(** * markdown-script: the markdown code-block extractor, the dependency
      inferrer, the project-id extractor and the repository harvester

    A shallow embedding of [automation.py] and [generate-markdown.py].
    Python strings are sequences of Unicode code points; the regular
    expressions of the scripts are run by a small backtracking matcher that
    follows the priorities of Python's [re] module (leftmost match, greedy
    repetition longest first, lazy repetition shortest first).  What the
    scripts print is left out; [sys.exit] and exceptions are outcomes. *)

From Stdlib Require Import NArith List Ascii String Lia Bool.
From stdpp Require Import base gmap sets list.

Local Open Scope N_scope.
Local Open Scope list_scope.

(** ** Strings *)

Definition char := N.
Definition str := list char.

Definition chr (a : ascii) : char := N_of_ascii a.

(** An ASCII literal as a Python string. *)
Definition lit (x : string) : str := map chr (list_ascii_of_string x).

Definition dquote : char := 34.
Definition squote : char := 39.
Definition newline : char := 10.
Definition backquote : char := 96.
Definition slash : char := 47.

(** [Py_UNICODE_ISSPACE]: the characters that [\s] matches in a [str]
    pattern and that [str.strip()] removes. *)
Definition is_space (c : char) : bool :=
  ((9 <=? c) && (c <=? 13)) || ((28 <=? c) && (c <=? 32))
  || (c =? 133) || (c =? 160) || (c =? 5760)
  || ((8192 <=? c) && (c <=? 8202))
  || (c =? 8232) || (c =? 8233) || (c =? 8239) || (c =? 8287) || (c =? 12288).

(** [a-zA-Z0-9] *)
Definition is_alnum (c : char) : bool :=
  ((97 <=? c) && (c <=? 122)) || ((65 <=? c) && (c <=? 90))
  || ((48 <=? c) && (c <=? 57)).

(** [s.startswith(prefix)] *)
Fixpoint startswith (s prefix : str) {struct prefix} : bool :=
  match prefix with
  | [] => true
  | p :: prefix' =>
      match s with
      | c :: s' => (c =? p) && startswith s' prefix'
      | [] => false
      end
  end.

(** [sub in s] *)
Fixpoint contains (sub s : str) : bool :=
  startswith s sub ||
  match s with
  | [] => false
  | _ :: s' => contains sub s'
  end.

(** [s.lstrip()], [s.rstrip()], [s.strip()] over a set of characters. *)
Fixpoint lstrip_by (p : char -> bool) (s : str) : str :=
  match s with
  | c :: s' => if p c then lstrip_by p s' else s
  | [] => []
  end.

Definition rstrip_by (p : char -> bool) (s : str) : str :=
  rev (lstrip_by p (rev s)).

Definition strip_by (p : char -> bool) (s : str) : str :=
  rstrip_by p (lstrip_by p s).

Definition strip (s : str) : str := strip_by is_space s.

(** [s.split(sep)] for a one-character separator: never empty, the fields
    between consecutive separators. *)
Fixpoint split (sep : char) (s : str) : list str :=
  match s with
  | [] => [[]]
  | c :: s' =>
      if c =? sep then [] :: split sep s'
      else match split sep s' with
           | field :: fields => (c :: field) :: fields
           | [] => [[c]]
           end
  end.

(** [sep.join(parts)] *)
Fixpoint join (sep : str) (parts : list str) : str :=
  match parts with
  | [] => []
  | [p] => p
  | p :: ps => p ++ sep ++ join sep ps
  end.

(** Truth value of a string: [not s] holds for the empty string only. *)
Definition truthy (s : str) : bool :=
  match s with [] => false | _ => true end.

(** ** Outcomes: a returned value, [sys.exit(code)] or a raised exception *)

Inductive outcome (A : Type) : Type :=
| Return (a : A)
| SysExit (code : Z)
| Raise (exception : string).
Arguments Return {A} a.
Arguments SysExit {A} code.
Arguments Raise {A} exception.

(** ** The regular expressions of the scripts

    The patterns of the scripts repeat single-character classes only, so
    repetition is over a class. *)

Inductive regex : Type :=
| Empty
| Lit (c : char)
| Class (p : char -> bool)
| Seq (r1 r2 : regex)
| Rep (greedy : bool) (min : nat) (p : char -> bool)
| Group (r : regex).

Fixpoint lits (l : str) : regex :=
  match l with
  | [] => Empty
  | c :: l' => Seq (Lit c) (lits l')
  end.

Fixpoint cat (rs : list regex) : regex :=
  match rs with
  | [] => Empty
  | r :: rs' => Seq r (cat rs')
  end.

(** A match in progress: the input still to read and the groups captured so
    far; a continuation decides whether the rest of the pattern matches. *)
Definition result : Type := str * list str.
Definition cont : Type := str -> list str -> option result.

(** [p{min,}]: the longest run first, then shorter ones. *)
Fixpoint rep_greedy (p : char -> bool) (min : nat) (s : str)
    (k : str -> option result) : option result :=
  let stop := match min with O => k s | S _ => None end in
  match s with
  | c :: s' =>
      if p c then
        match rep_greedy p (Nat.pred min) s' k with
        | Some r => Some r
        | None => stop
        end
      else stop
  | [] => stop
  end.

(** [p{min,}?]: the shortest run first, then longer ones. *)
Fixpoint rep_lazy (p : char -> bool) (min : nat) (s : str)
    (k : str -> option result) : option result :=
  let more :=
    match s with
    | c :: s' => if p c then rep_lazy p (Nat.pred min) s' k else None
    | [] => None
    end in
  match min with
  | O => match k s with
         | Some r => Some r
         | None => more
         end
  | S _ => more
  end.

Fixpoint exec (r : regex) (s : str) (caps : list str) (k : cont)
    : option result :=
  match r with
  | Empty => k s caps
  | Lit c =>
      match s with
      | c' :: s' => if c' =? c then k s' caps else None
      | [] => None
      end
  | Class p =>
      match s with
      | c' :: s' => if p c' then k s' caps else None
      | [] => None
      end
  | Seq r1 r2 => exec r1 s caps (fun s' caps' => exec r2 s' caps' k)
  | Rep true min p => rep_greedy p min s (fun s' => k s' caps)
  | Rep false min p => rep_lazy p min s (fun s' => k s' caps)
  | Group r' =>
      exec r' s caps
        (fun s' caps' => k s' (caps' ++ [take (length s - length s') s]))
  end.

(** A match that starts at the head of [s]: the input left after it and the
    captured groups. *)
Definition match_here (r : regex) (s : str) : option result :=
  exec r s [] (fun s' caps => Some (s', caps)).

(** [re.search]: the groups of the leftmost match. *)
Fixpoint re_search (r : regex) (s : str) : option (list str) :=
  match match_here r s with
  | Some (_, caps) => Some caps
  | None =>
      match s with
      | [] => None
      | _ :: s' => re_search r s'
      end
  end.

(** [re.findall]: the groups of the successive non-overlapping matches, left
    to right.  [skip] counts the characters of the previous match still to
    pass over.  After an empty match the scan moves on by one character; the
    patterns of the scripts open with a literal and never match the empty
    string, so the finer rule of [re] for that case plays no part. *)
Fixpoint findall_from (r : regex) (skip : nat) (s : str) : list (list str) :=
  match skip with
  | S n =>
      match s with
      | [] => []
      | _ :: s' => findall_from r n s'
      end
  | O =>
      match match_here r s with
      | Some (rest, caps) =>
          caps ::
          match s with
          | [] => []
          | _ :: s' => findall_from r (Nat.pred (length s - length rest)) s'
          end
      | None =>
          match s with
          | [] => []
          | _ :: s' => findall_from r O s'
          end
      end
  end.

Definition re_findall (r : regex) (s : str) : list (list str) :=
  findall_from r O s.

(** ** automation.py *)

Definition not_dquote (c : char) : bool := negb (c =? dquote).
Definition not_quote (c : char) : bool :=
  negb ((c =? squote) || (c =? dquote)).
Definition is_quote (c : char) : bool := (c =? squote) || (c =? dquote).
(** [.] without DOTALL *)
Definition dot (c : char) : bool := negb (c =? newline).
(** [[\s\S]] *)
Definition any_char (c : char) : bool := is_space c || negb (is_space c).

Definition wrapper_open : str := Eval cbv in lit "<ReactProject".
Definition id_attr : str := Eval cbv in lit "id=" ++ [dquote].
Definition fence : str := [backquote; backquote; backquote].
Definition file_attr : str := Eval cbv in lit "file=" ++ [dquote].

(** The pattern, piece by piece and writing Q for the double quote:
    [<ReactProject] [\s+] [id=Q] [( [^Q]+ )] [Q] [\s*] [>] *)
Definition project_id_re : regex :=
  cat [lits wrapper_open; Rep true 1 is_space; lits id_attr;
       Group (Rep true 1 not_dquote); Lit dquote; Rep true 0 is_space;
       Lit (chr ">")].

Definition extract_project_id (markdown : str) : outcome str :=
  match re_search project_id_re markdown with
  | None => SysExit 1
  | Some caps => Return (nth 0 caps [])
  end.

(** The pattern, piece by piece and writing Q for the double quote:
    [```] [[a-zA-Z0-9]+] [\s+] [file=Q] [( [^Q]* )] [Q] [\n] [( [\s\S]*? )] [```] *)
Definition code_block_re : regex :=
  cat [lits fence; Rep true 1 is_alnum; Rep true 1 is_space; lits file_attr;
       Group (Rep true 0 not_dquote); Lit dquote; Lit newline;
       Group (Rep false 0 any_char); lits fence].

Definition as_pair (caps : list str) : str * str :=
  (nth 0 caps [], nth 1 caps []).

(** The loop over the matched blocks: the first blank file name exits. *)
Fixpoint check_file_names (results : list (str * str)) : outcome unit :=
  match results with
  | [] => Return tt
  | (file, _) :: results' =>
      if negb (truthy (strip file)) then SysExit 1
      else check_file_names results'
  end.

Definition extract_files_from_markdown (content : str)
    : outcome (list (str * str)) :=
  let results := map as_pair (re_findall code_block_re content) in
  match check_file_names results with
  | Return _ => Return results
  | SysExit code => SysExit code
  | Raise e => Raise e
  end.

(** The pattern, piece by piece, writing A for the apostrophe and Q for the
    double quote: [import] [\s+] [.*?] [\s+] [from] [\s+] [[AQ]] [( [^AQ]+ )] [[AQ]] *)
Definition import_re : regex :=
  cat [lits (lit "import"); Rep true 1 is_space; Rep false 0 dot;
       Rep true 1 is_space; lits (lit "from"); Rep true 1 is_space;
       Class is_quote; Group (Rep true 1 not_quote); Class is_quote].

Definition ignore_dependencies : list str := [].

(** [blacklist_prefixes] is assigned the string next/ between parentheses,
    without a comma: the value is the string itself, not a tuple, and
    iterating over it yields its characters one by one. *)
Definition blacklist_prefixes : str := Eval cbv in lit "next/".

Definition iter_str (s : str) : list str := map (fun c => [c]) s.

(** The body of the loop over the specifiers of one file. *)
Definition add_dependency (dependencies : gset str) (dep : str) : gset str :=
  if bool_decide (dep ∈ ignore_dependencies) then dependencies
  else if existsb (fun prefix => startswith dep prefix)
            (iter_str blacklist_prefixes) then dependencies
  else if negb (startswith dep (lit "./")) && negb (startswith dep (lit "@/"))
  then
    if contains [slash] dep then
      let parts := split slash dep in
      let scope := nth 0 parts [] in
      let name := if (1 <? length parts)%nat then nth 1 parts [] else [] in
      dependencies ∪ {[ scope ++ [slash] ++ name ]}
    else dependencies ∪ {[ dep ]}
  else dependencies.

Definition import_specifiers (code : str) : list str :=
  map (fun caps => nth 0 caps []) (re_findall import_re code).

(** The set [dependencies] when the loop over the files ends. *)
Definition collect_dependencies (files : list (str * str)) : gset str :=
  fold_left
    (fun dependencies file =>
       fold_left add_dependency (import_specifiers (snd file)) dependencies)
    files ∅.

(** What the function then does: one install command for a package manager,
    or none. *)
Inductive install_action : Type :=
| RunInstall (pnpm : bool) (packages : gset str)
| NoInstall.

Definition install_third_party_dependencies (pnpm_lock_exists : bool)
    (files : list (str * str)) : install_action :=
  let dependencies := collect_dependencies files in
  if bool_decide (dependencies = ∅) then NoInstall
  else RunInstall pnpm_lock_exists dependencies.

(** ** generate-markdown.py *)

Record github_info : Type :=
  { owner : str; repo : str; branch : str; path : str }.

Section ParseGithubUrl.

(** [urlparse(url).path] of [urllib.parse], or the exception it raises. *)
Variable urlparse_path : str -> outcome str.

Definition is_slash (c : char) : bool := c =? slash.

Definition path_parts_of (url : str) : outcome (list str) :=
  let url := rstrip_by is_slash url in
  match urlparse_path url with
  | Return parsed_path => Return (split slash (strip_by is_slash parsed_path))
  | SysExit code => SysExit code
  | Raise e => Raise e
  end.

Definition parse_github_url (url : str) : outcome github_info :=
  match path_parts_of url with
  | Return path_parts =>
      if (length path_parts <? 2)%nat then Raise "ValueError"
      else
        let owner := nth 0 path_parts [] in
        let repo := nth 1 path_parts [] in
        if (3 <? length path_parts)%nat
           && bool_decide (nth 2 path_parts [] = lit "tree")
        then
          Return {| owner := owner; repo := repo;
                    branch := nth 3 path_parts [];
                    path := if (4 <? length path_parts)%nat
                            then join [slash] (drop 4 path_parts) else [] |}
        else
          Return {| owner := owner; repo := repo;
                    branch := lit "main";
                    path := if (3 <? length path_parts)%nat
                            then join [slash] (drop 3 path_parts) else [] |}
  | SysExit code => SysExit code
  | Raise e => Raise e
  end.

End ParseGithubUrl.

Record file_record : Type := { file_path : str; file_content : str }.

(** [s.rfind(c)]: the last index of [c], or -1. *)
Fixpoint rfind_from (c : char) (s : str) (i last : Z) : Z :=
  match s with
  | [] => last
  | x :: s' => rfind_from c s' (i + 1)%Z (if x =? c then i else last)
  end.

Definition rfind (c : char) (s : str) : Z := rfind_from c s 0%Z (-1)%Z.

Definition full_stop : char := 46.

Fixpoint has_non_dot (l : str) : bool :=
  match l with
  | [] => false
  | c :: l' => if negb (c =? full_stop) then true else has_non_dot l'
  end.

(** [os.path.splitext] of [posixpath]: the extension starts at the last dot
    of the last component, unless that component has only dots before it. *)
Definition splitext (p : str) : str * str :=
  let sepIndex := rfind slash p in
  let dotIndex := rfind full_stop p in
  if (sepIndex <? dotIndex)%Z
     && has_non_dot (drop (Z.to_nat (sepIndex + 1))
                          (take (Z.to_nat dotIndex) p))
  then (take (Z.to_nat dotIndex) p, drop (Z.to_nat dotIndex) p)
  else (p, []).

Definition file_type_of (file_path : str) : str :=
  let file_extension := drop 1 (snd (splitext file_path)) in
  if bool_decide
       (file_extension ∈ [lit "tsx"; lit "jsx"; lit "ts"; lit "js"])
  then lit "tsx" else file_extension.

(** One record of the output: the type label, a space, the file attribute
    with the path between double quotes, a newline, then the content on
    lines of its own between <file_codes> and </file_codes>, and an empty
    line. *)
Definition format_file (file : file_record) : str :=
  file_type_of (file_path file) ++ lit " file=" ++ [dquote]
  ++ file_path file ++ [dquote; newline] ++ lit "<file_codes>" ++ [newline]
  ++ file_content file ++ [newline] ++ lit "</file_codes>"
  ++ [newline; newline].

Definition create_markdown (files : list file_record) : str :=
  fold_left (fun markdown file => markdown ++ format_file file) files
            (lit "<ReactProject>" ++ [newline; newline])
  ++ lit "</ReactProject>" ++ [newline].

(** ** urllib.parse *)

(** A model of [urlparse(url).path] of [urllib.parse] (CPython 3.11) to run
    [parse_github_url] on: leading C0 controls and spaces and all tabs and
    newlines go, then the scheme, the network location, the fragment, the
    query and the parameters of the last segment are cut off.  A network
    location with one bracket and not the other raises ValueError; what
    Python validates further, for a network location with both brackets or
    with a character outside ASCII, is taken as given. *)
Module UrlModel.

Definition colon : char := 58.
Definition hash : char := 35.
Definition question : char := 63.
Definition semicolon : char := 59.

Definition c0_control_or_space (c : char) : bool := c <=? 32.
Definition unsafe_char (c : char) : bool :=
  (c =? 9) || (c =? 10) || (c =? 13).
Definition ascii_alpha (c : char) : bool :=
  ((65 <=? c) && (c <=? 90)) || ((97 <=? c) && (c <=? 122)).
Definition scheme_char (c : char) : bool :=
  is_alnum c || (c =? 43) || (c =? 45) || (c =? 46).
Definition lower (c : char) : char :=
  if (65 <=? c) && (c <=? 90) then c + 32 else c.

Fixpoint find_char (c : char) (s : str) : option nat :=
  match s with
  | [] => None
  | x :: s' => if x =? c then Some O else option_map S (find_char c s')
  end.

(** [s.split(c, 1)[0]] *)
Definition before_char (c : char) (s : str) : str :=
  match find_char c s with
  | Some i => take i s
  | None => s
  end.

Fixpoint netloc_end (s : str) : nat :=
  match s with
  | [] => O
  | x :: s' =>
      if (x =? slash) || (x =? question) || (x =? hash) then O
      else S (netloc_end s')
  end.

Definition uses_params : list str :=
  [[]; lit "ftp"; lit "hdl"; lit "prospero"; lit "http"; lit "imap";
   lit "https"; lit "shttp"; lit "rtsp"; lit "rtspu";
   lit "sip"; lit "sips"; lit "mms"; lit "sftp"; lit "tel"].

Definition split_scheme (url : str) : str * str :=
  match find_char colon url with
  | Some (S i) =>
      if ascii_alpha (hd 0 url) && forallb scheme_char (take (S i) url)
      then (map lower (take (S i) url), drop (S (S i)) url)
      else ([], url)
  | _ => ([], url)
  end.

Definition split_netloc (url : str) : str * str :=
  if startswith url [slash; slash] then
    let rest := drop 2 url in
    (take (netloc_end rest) rest, drop (netloc_end rest) rest)
  else ([], url).

Definition left_bracket : char := 91.
Definition right_bracket : char := 93.

(** [netloc.isascii()] *)
Definition isascii (netloc : str) : bool := forallb (fun c => c <? 128) netloc.

Definition split_params (url : str) : str :=
  let k := Z.to_nat (rfind slash url) in
  take k url ++ before_char semicolon (drop k url).

Section Validation.

(** Whether [_check_bracketed_netloc] lets a network location with both
    brackets through (it does in the releases that do not have it), and
    whether the test of [_checknetloc] on the NFKC form lets a network
    location with a character outside ASCII through. *)
Variable bracketed_netloc_ok : str -> bool.
Variable nfkc_netloc_ok : str -> bool.

Definition urlparse_path (url : str) : outcome str :=
  let url := lstrip_by c0_control_or_space url in
  let url := List.filter (fun c => negb (unsafe_char c)) url in
  let (scheme, url) := split_scheme url in
  let (netloc, url) := split_netloc url in
  let has_left := contains [left_bracket] netloc in
  let has_right := contains [right_bracket] netloc in
  if (has_left && negb has_right) || (has_right && negb has_left)
  then Raise "ValueError"
  else if has_left && has_right && negb (bracketed_netloc_ok netloc)
  then Raise "ValueError"
  else
    let url := before_char question (before_char hash url) in
    if negb (isascii netloc) && negb (nfkc_netloc_ok netloc)
    then Raise "ValueError"
    else Return (if bool_decide (scheme ∈ uses_params)
                    && contains [semicolon] url
                 then split_params url else url).

End Validation.

End UrlModel.

(** ** automation.py: the folder name *)

(** [re.sub(pattern, repl, s)] for a replacement without group reference:
    the text with every match, left to right and non-overlapping, replaced.
    [skip] counts the characters of the match under way still to drop.
    After an empty match the scan copies one character and moves on; the
    two patterns of [slugify] match one character at least, so the finer
    rule of [re] for that case plays no part. *)
Fixpoint sub_from (r : regex) (repl : str) (skip : nat) (s : str) : str :=
  match skip with
  | S n =>
      match s with
      | [] => []
      | _ :: s' => sub_from r repl n s'
      end
  | O =>
      match match_here r s with
      | Some (rest, _) =>
          let n := (length s - length rest)%nat in
          repl ++
          match s with
          | [] => []
          | c :: s' =>
              match n with O => [c] | S _ => [] end
              ++ sub_from r repl (Nat.pred n) s'
          end
      | None =>
          match s with
          | [] => []
          | c :: s' => c :: sub_from r repl O s'
          end
      end
  end.

Definition re_sub (r : regex) (repl : str) (s : str) : str :=
  sub_from r repl O s.

Definition hyphen : char := 45.
Definition underscore : char := 95.
Definition is_hyphen (c : char) : bool := c =? hyphen.

Section Slugify.

(** [unicodedata.normalize('NFKD', text)], [text.lower()] and the class [\w]
    of a [str] pattern, all three as the Unicode tables of Python have
    them. *)
Variable normalize_nfkd : str -> str.
Variable str_lower : str -> str.
Variable is_word : char -> bool.

(** [[^\w\s-]] *)
Definition not_word_space_hyphen (c : char) : bool :=
  negb (is_word c || is_space c || (c =? hyphen)).

(** [[\s_-]] *)
Definition space_underscore_hyphen (c : char) : bool :=
  is_space c || (c =? underscore) || (c =? hyphen).

Definition slugify (text : str) : str :=
  let text := normalize_nfkd text in
  let text := re_sub (Class not_word_space_hyphen) [] (str_lower text) in
  let text :=
    strip_by is_hyphen
      (re_sub (Rep true 1 space_underscore_hyphen) [hyphen] text) in
  text.

End Slugify.

(** On ASCII text NFKD changes nothing, [lower] maps A-Z to a-z and [\w] is
    [a-zA-Z0-9_]. *)
Definition ascii_lower (c : char) : char :=
  if (65 <=? c) && (c <=? 90) then c + 32 else c.

Definition ascii_word (c : char) : bool := is_alnum c || (c =? underscore).

Definition slugify_ascii (text : str) : str :=
  slugify (fun text => text) (map ascii_lower) ascii_word text.

(** ** generate-markdown.py: the crawl *)

(** The JSON of the contents API, as far as the crawl reads it: an entry
    has a path, a type and a URL, and, when it is the answer for one file,
    perhaps a content and an encoding; an answer is a list of entries or one
    entry. *)
Record entry : Type :=
  { entry_path : str; entry_type : str; entry_url : str;
    entry_content : option str; entry_encoding : option str }.

Inductive json : Type :=
| JList (entries : list entry)
| JDict (e : entry).

Record response : Type := { status_code : Z; response_json : json }.

(** [s.endswith(suffix)] *)
Definition endswith (s suffix : str) : bool :=
  startswith (rev s) (rev suffix).

Definition text_extensions : list str :=
  [lit ".js"; lit ".jsx"; lit ".ts"; lit ".tsx"; lit ".css"; lit ".scss";
   lit ".html"; lit ".md"; lit ".json"; lit ".py"; lit ".txt"].

Section Crawl.

(** [fnmatch.fnmatch(path, pattern)]. *)
Variable fnmatch : str -> str -> bool.

(** [requests.get(url, headers=HEADERS)] followed by [.json()]: the answer of
    the remote end, the same for the same URL as long as the crawl lasts, or
    the exception raised. *)
Variable requests_get : str -> outcome response.

(** [base64.b64decode(content).decode('utf-8', errors='replace')], or nothing
    when it raises. *)
Variable b64decode_utf8 : str -> option str.

Fixpoint should_skip_path (path : str) (skip_patterns : list str) : bool :=
  match skip_patterns with
  | [] => false
  | pattern :: skip_patterns' =>
      if fnmatch path pattern then true
      else should_skip_path path skip_patterns'
  end.

Variables (owner_ repo_ branch_ : str) (skip_patterns : list str).

Definition contents_url (path : str) : str :=
  lit "https://api.github.com/repos/" ++ owner_ ++ [slash] ++ repo_
  ++ lit "/contents/" ++ path ++ lit "?ref=" ++ branch_.

(** The download of one file entry: the record to append, if any. *)
Definition download (item : entry) : outcome (list file_record) :=
  match requests_get (entry_url item) with
  | Return file_response =>
      if (status_code file_response =? 200)%Z then
        match response_json file_response with
        | JDict file_data =>
            let encoded_content :=
              match entry_content file_data with
              | Some c => c
              | None => []
              end in
            if bool_decide (entry_encoding file_data = Some (lit "base64"))
            then
              match b64decode_utf8 encoded_content with
              | Some content =>
                  Return [{| file_path := entry_path item;
                             file_content := content |}]
              | None => Return []
              end
            else Return []
        | JList _ => Raise "AttributeError"
        end
      else Return []
  | SysExit code => SysExit code
  | Raise e => Raise e
  end.

(** [fetch_contents(path)], with the list [all_files] it appends to.
    [limit] is the depth of calls that the interpreter allows. *)
Fixpoint fetch_contents (limit : nat) (path : str)
    (all_files : list file_record) : outcome (list file_record) :=
  match limit with
  | O => Raise "RecursionError"
  | S limit' =>
      match requests_get (contents_url path) with
      | Return response =>
          if negb (status_code response =? 200)%Z then Return all_files
          else
            let contents :=
              match response_json response with
              | JList entries => entries
              | JDict e => [e]
              end in
            (fix each (items : list entry) (all_files : list file_record)
               : outcome (list file_record) :=
               match items with
               | [] => Return all_files
               | item :: items' =>
                   let item_path := entry_path item in
                   if should_skip_path item_path skip_patterns
                   then each items' all_files
                   else if bool_decide (entry_type item = lit "dir") then
                     match fetch_contents limit' item_path all_files with
                     | Return all_files' => each items' all_files'
                     | SysExit code => SysExit code
                     | Raise e => Raise e
                     end
                   else if bool_decide (entry_type item = lit "file") then
                     if existsb (endswith item_path) text_extensions then
                       match download item with
                       | Return new => each items' (all_files ++ new)
                       | SysExit code => SysExit code
                       | Raise e => Raise e
                       end
                     else each items' all_files
                   else each items' all_files
               end) contents all_files
      | SysExit code => SysExit code
      | Raise e => Raise e
      end
  end.

Definition get_repo_contents (limit : nat) (path : str)
    : outcome (list file_record) :=
  fetch_contents limit path [].

End Crawl.

(** ** automation.py: the prompt, the commands and the files *)

(** What [input] gives: a line, or the exception raised. *)
Inductive typed : Type :=
| Line (s : str)
| KeyboardInterrupt
| EOFError.

Definition prompt_for_markdown_file (answer : typed) : outcome str :=
  match answer with
  | Line s =>
      let file_path := strip s in
      if negb (truthy file_path) then SysExit 1 else Return file_path
  | KeyboardInterrupt => SysExit 1
  | EOFError => Raise "EOFError"
  end.

Section Commands.

(** [subprocess.run(command, shell=True).returncode], which may depend on
    the commands run before. *)
Variable returncode : list str -> str -> Z.

(** The commands run so far are the state. *)
Definition run_command (history : list str) (command : str)
    : list str * outcome unit :=
  let result := returncode history command in
  (history ++ [command],
   if negb (result =? 0)%Z then Raise "RuntimeError" else Return tt).

Definition setup_shadcn (usingToast : bool) (history : list str)
    : list str * outcome unit :=
  let using_pnpm := false in
  let shadcn := if usingToast then lit "shadcn" else lit "shadcn@latest" in
  let default_options :=
    if usingToast then [] else lit "-t next -b neutral --cwd ." in
  let '(history, using_pnpm) :=
    if using_pnpm then
      match run_command history (lit "npm i pnpm") with
      | (history, Return _) =>
          match run_command history (lit "pnpm --version") with
          | (history, Return _) => (history, using_pnpm)
          | (history, _) => (history, false)
          end
      | (history, _) => (history, false)
      end
    else (history, using_pnpm) in
  let cmd :=
    if using_pnpm
    then lit "pnpm dlx " ++ shadcn ++ lit " init " ++ default_options
    else lit "npx " ++ shadcn ++ lit " init " ++ default_options in
  match run_command history
          (lit "echo " ++ [dquote] ++ lit "." ++ [dquote] ++ lit " | " ++ cmd)
  with
  | (history, Return _) =>
      let add_cmd :=
        if using_pnpm
        then lit "pnpm dlx " ++ shadcn ++ lit " add -a"
        else lit "npx " ++ shadcn ++ lit " add -a" in
      run_command history add_cmd
  | (history, failure) => (history, failure)
  end.

(** [package_json_data] is the parsed package.json: a table of tables.
    [pnpm_lock_exists] is what [Path(pnpm-lock.yaml).exists()] answers. *)
Definition reinstall_npm_package (pnpm_lock_exists : bool)
    (package_name : str) (package_json_data : gmap str (gmap str str))
    (history : list str) : list str * outcome unit :=
  let deps := default ∅ (package_json_data !! lit "dependencies") in
  let dev_deps := default ∅ (package_json_data !! lit "devDependencies") in
  let found :=
    bool_decide (is_Some (deps !! package_name))
    || bool_decide (is_Some (dev_deps !! package_name)) in
  if negb found then (history, Return tt)
  else
    let uninstall_cmd :=
      if pnpm_lock_exists then lit "pnpm remove " ++ package_name
      else lit "npm uninstall " ++ package_name in
    let install_cmd :=
      if pnpm_lock_exists then lit "pnpm add " ++ package_name
      else lit "npm install " ++ package_name in
    match run_command history uninstall_cmd with
    | (history, Return _) => run_command history install_cmd
    | (history, failure) => (history, failure)
    end.

End Commands.

(** The test of [process_markdown_project] for the toast components. *)
Definition using_toast (content : str) : bool :=
  contains (lit "@/components/ui/toast") content
  || contains (lit "@/components/ui/toaster") content.

Section WriteProjectFiles.

(** The file system as [write_project_files] uses it: [Path.resolve], in
    the working directory of the call, [Path.parent], [Path.exists],
    [Path.mkdir(parents=True, exist_ok=True)] and [Path.write_text], each
    giving its result, or the new state, or the exception raised. *)
Variables (file_system fs_path : Type).
Variable resolve : file_system -> str -> outcome fs_path.
Variable parent : fs_path -> fs_path.
Variable path_exists : file_system -> fs_path -> outcome bool.
Variable mkdir_parents : file_system -> fs_path -> outcome file_system.
Variable write_text : file_system -> fs_path -> str -> outcome file_system.

Fixpoint write_project_files (files : list (str * str)) (fs : file_system)
    : outcome file_system :=
  match files with
  | [] => Return fs
  | (file_path, code) :: files' =>
      match resolve fs file_path with
      | Return full_path =>
          match
            match path_exists fs (parent full_path) with
            | Return false => mkdir_parents fs (parent full_path)
            | Return true => Return fs
            | SysExit code => SysExit code
            | Raise e => Raise e
            end
          with
          | Return fs1 =>
              match write_text fs1 full_path code with
              | Return fs2 => write_project_files files' fs2
              | SysExit code => SysExit code
              | Raise e => Raise e
              end
          | SysExit code => SysExit code
          | Raise e => Raise e
          end
      | SysExit code => SysExit code
      | Raise e => Raise e
      end
  end.

End WriteProjectFiles.
Arguments write_project_files {file_system fs_path}.

(** * The vocabulary of the statements *)

(** ** Patterns *)

(** The words a pattern can match, whatever the priorities. *)
Fixpoint lang (r : regex) (w : str) : Prop :=
  match r with
  | Empty => w = []
  | Lit c => w = [c]
  | Class p => exists c, w = [c] /\ p c = true
  | Seq r1 r2 => exists w1 w2, w = w1 ++ w2 /\ lang r1 w1 /\ lang r2 w2
  | Rep _ min p => forallb p w = true /\ (min <= length w)%nat
  | Group r' => lang r' w
  end.

(** The next character, if any, is outside the class: a run of the class
    cannot go further. *)
Definition stops (p : char -> bool) (s : str) : bool :=
  match s with
  | c :: _ => negb (p c)
  | [] => true
  end.

Definition differs (x c : char) : bool := negb (c =? x).

(** ** Wrapper tags *)

Definition lt_sign : char := 60.

Definition gt_sign : char := 62.

(** The wrapper tag, with the white space after the tag name, the value of
    the id attribute and the white space before the closing bracket. *)
Definition wrapper_tag (ws1 v ws2 : str) : str :=
  wrapper_open ++ ws1 ++ id_attr ++ v ++ [dquote] ++ ws2 ++ [gt_sign].

Definition wrapper_tail (ws1 v ws2 : str) : str :=
  tl wrapper_open ++ ws1 ++ id_attr ++ v ++ [dquote] ++ ws2 ++ [gt_sign].

(** The text has a wrapper tag with an id attribute, whatever its value. *)
Definition has_wrapper_tag (markdown : str) : Prop :=
  exists pre ws1 v ws2 post,
    markdown = pre ++ wrapper_tag ws1 v ws2 ++ post
    /\ ws1 <> [] /\ forallb is_space ws1 = true
    /\ forallb not_dquote v = true /\ forallb is_space ws2 = true.

(** The text has a wrapper tag whose id attribute has a value that is not
    empty. *)
Definition has_id_tag (markdown : str) : Prop :=
  exists pre ws1 v ws2 post,
    markdown = pre ++ wrapper_tag ws1 v ws2 ++ post
    /\ ws1 <> [] /\ forallb is_space ws1 = true
    /\ v <> [] /\ forallb not_dquote v = true
    /\ forallb is_space ws2 = true.

Definition demo_tag : str :=
  Eval cbv in wrapper_tag [32] (lit "demo") [].

(** ** Texts of annotated code blocks *)

Definition nonempty (s : str) : bool := truthy s.

Definition blank (s : str) : bool := forallb is_space s.

Definition fence_free (s : str) : bool := negb (contains fence s).

(** An annotated code block as it stands in the text: the language tag, the
    white space after it, the path of the file attribute and the body. *)
Record code_block : Type :=
  { tag : str; tag_space : str; block_path : str; body : str }.

Definition render_block (b : code_block) : str :=
  fence ++ tag b ++ tag_space b ++ file_attr ++ block_path b
  ++ [dquote; newline] ++ body b ++ fence.

(** The closing fence is the first fence after the opening line: the body
    has no fence and does not end with a backquote. *)
Definition body_ok (body : str) : bool :=
  negb (contains fence (body ++ [backquote; backquote])).

Definition block_ok (b : code_block) : bool :=
  nonempty (tag b) && forallb is_alnum (tag b)
  && nonempty (tag_space b) && forallb is_space (tag_space b)
  && forallb not_dquote (block_path b)
  && body_ok (body b).

(** A text of annotated blocks: each block with the text up to the next
    block, after a leading text. *)
Fixpoint render_blocks (l : list (code_block * str)) : str :=
  match l with
  | [] => []
  | (b, gap) :: l' => render_block b ++ gap ++ render_blocks l'
  end.

Record document : Type :=
  { lead : str; blocks : list (code_block * str) }.

Definition render (d : document) : str := lead d ++ render_blocks (blocks d).

(** Every block is well shaped and no fence stands between the blocks. *)
Definition shaped (d : document) : bool :=
  fence_free (lead d)
  && forallb (fun bg => block_ok (fst bg) && fence_free (snd bg)) (blocks d).

Definition records_of (d : document) : list (str * str) :=
  map (fun bg => (block_path (fst bg), body (fst bg))) (blocks d).


(** ** Records of the formatter *)

Definition record_fence_free (file : file_record) : bool :=
  fence_free (file_path file) && fence_free (file_content file).

Definition pair_of (file : file_record) : str * str :=
  (file_path file, file_content file).

(** ** Specifiers *)

(** The specifiers the loop passes over. *)
Definition skipped (dep : str) : bool :=
  bool_decide (dep ∈ ignore_dependencies)
  || existsb (fun prefix => startswith dep prefix) (iter_str blacklist_prefixes)
  || startswith dep (lit "./") || startswith dep (lit "@/").

(** The name under which a specifier that is kept enters the set. *)
Definition package_name (dep : str) : str :=
  if contains [slash] dep then
    let parts := split slash dep in
    nth 0 parts [] ++ [slash]
    ++ (if (1 <? length parts)%nat then nth 1 parts [] else [])
  else dep.

(** ** URLs of github.com *)

(** The URLs below have the network location github.com, without bracket
    and all ASCII, for which Python validates nothing further: the model is
    run with a validation that is never asked. *)
Definition never_asked (netloc : str) : bool := true.

Definition urlparse_path_model : str -> outcome str :=
  UrlModel.urlparse_path never_asked never_asked.

Definition parse_github_url_model : str -> outcome github_info :=
  parse_github_url urlparse_path_model.

(** A segment of a path: not empty, without white space or control
    character, and without the characters that end a segment or the path. *)
Definition segment_char (c : char) : bool :=
  (32 <? c) && differs slash c && differs UrlModel.question c
  && differs UrlModel.hash c && differs UrlModel.semicolon c.

Definition segment (s : str) : bool := nonempty s && forallb segment_char s.

(** The characters of a path made of segments. *)
Definition path_char (c : char) : bool :=
  (32 <? c) && differs UrlModel.question c
  && differs UrlModel.hash c && differs UrlModel.semicolon c.

(** The last character is the character of a segment. *)
Definition ends_in_segment (s : str) : bool :=
  match rev s with
  | y :: _ => segment_char y
  | [] => false
  end.

Definition github_prefix : str := Eval cbv in lit "https://github.com/".

Definition github_url (segments : list str) : str :=
  github_prefix ++ join [slash] segments.

(** ** Concrete inputs *)

Definition cpp_block : code_block :=
  {| tag := lit "c++"; tag_space := [32];
     block_path := lit "a.cpp"; body := lit "int x;" |}.

Definition ts_block : code_block :=
  {| tag := lit "ts"; tag_space := [32]; block_path := lit "a.ts";
     body := lit "import z from 'zod'" |}.

Definition local_block : code_block :=
  {| tag := lit "ts"; tag_space := [32]; block_path := lit "b/c.ts";
     body := lit "import './local'" |}.

Definition blank_block : code_block :=
  {| tag := lit "js"; tag_space := [32]; block_path := [32; 9];
     body := lit "let y = 1" |}.

Definition two_blocks : document :=
  {| lead := lit "# Project" ++ [newline];
     blocks := [(ts_block, [newline; newline]); (local_block, [newline])] |}.

Definition with_blank_block : document :=
  {| lead := [];
     blocks := [(ts_block, [newline]); (blank_block, [newline]);
                (local_block, [])] |}.

Definition a_ts : file_record :=
  {| file_path := lit "a.ts"; file_content := lit "x" |}.

Definition readme : file_record :=
  {| file_path := lit "docs/README.md";
     file_content := lit "Use `npm run dev`." |}.

Definition imports_code : str :=
  lit "import a from './components/x'" ++ [newline]
  ++ lit "import b from '@/lib/y'" ++ [newline]
  ++ lit "import { z } from " ++ [dquote] ++ lit "zod" ++ [dquote; newline]
  ++ lit "import * as Toast from '@radix-ui/react-toast/sub'" ++ [newline]
  ++ lit "import Link from 'next/link'" ++ [newline].

Definition express_code : str := lit "import express from 'express'".

(** A fence without file attribute, then an annotated block. *)
Definition plain_then_annotated : str :=
  lit "```js" ++ [newline] ++ lit "let x = `a`" ++ [newline] ++ lit "```"
  ++ [newline] ++ render_block ts_block ++ [newline].

(** A fence with its tag alone on the first line, and a content whose
    first line reads as a file attribute. *)
Definition toml_block : code_block :=
  {| tag := lit "toml"; tag_space := [newline];
     block_path := lit "config.toml"; body := lit "other=1" ++ [newline] |}.

Definition toml_blank_block : code_block :=
  {| tag := lit "toml"; tag_space := [newline];
     block_path := []; body := lit "other=1" ++ [newline] |}.

(** A wrapper tag with the empty id, then one with the id b. *)
Definition empty_id_then_b : str :=
  wrapper_tag [32] [] [] ++ [newline] ++ wrapper_tag [32] (lit "b") [].

Definition flash_cards_url : str :=
  lit "https://github.com/ameerhmzx/language-flash-cards".

Definition flash_cards_tree_url : str :=
  lit "https://github.com/ameerhmzx/language-flash-cards/tree/dev/src/app/".

(** ** Captured groups *)

(** The words a pattern can match, with the groups captured on the way, in
    the order in which the groups close. *)
Fixpoint lang_caps (r : regex) (w : str) (cs : list str) : Prop :=
  match r with
  | Empty => w = [] /\ cs = []
  | Lit c => w = [c] /\ cs = []
  | Class p => (exists c, w = [c] /\ p c = true) /\ cs = []
  | Seq r1 r2 =>
      exists w1 w2 cs1 cs2,
        w = w1 ++ w2 /\ cs = cs1 ++ cs2
        /\ lang_caps r1 w1 cs1 /\ lang_caps r2 w2 cs2
  | Rep _ min p => (forallb p w = true /\ (min <= length w)%nat) /\ cs = []
  | Group r' => exists cs', lang_caps r' w cs' /\ cs = cs' ++ [w]
  end.

(** ** Names of packages *)

(** The number of slashes of a name. *)
Definition slashes (s : str) : nat := length (List.filter is_slash s).

(** The first character of the specifier is none of n, e, x, t and the
    slash. *)
Definition first_char_kept (dep : str) : bool :=
  match dep with
  | [] => true
  | c :: _ => forallb (fun x => differs x c) blacklist_prefixes
  end.

(** ** Slugs *)

(** A run of characters of the class replaced by one [h]; [in_run] tells
    that the run is under way. *)
Fixpoint squeeze (p : char -> bool) (h : char) (in_run : bool) (s : str)
    : str :=
  match s with
  | [] => []
  | c :: s' =>
      if p c then
        if in_run then squeeze p h true s' else h :: squeeze p h true s'
      else c :: squeeze p h false s'
  end.

Definition ascii_text (s : str) : bool := forallb (fun c => c <? 128) s.

(** The characters of an ASCII slug: a-z, 0-9 and the hyphen. *)
Definition slug_char (c : char) : bool :=
  ((97 <=? c) && (c <=? 122)) || ((48 <=? c) && (c <=? 57)) || (c =? hyphen).

Definition ends_with_hyphen (s : str) : bool :=
  match rev s with
  | c :: _ => c =? hyphen
  | [] => false
  end.

(** ** Files of a crawl *)

(** A file as the crawl can return it: its path has one of the text
    extensions and matches no skip pattern, and its content is the decoding
    of the content field of an answer with status 200 and encoding base64. *)
Definition crawled
    (fnmatch : str -> str -> bool) (requests_get : str -> outcome response)
    (b64decode_utf8 : str -> option str) (skip_patterns : list str)
    (f : file_record) : Prop :=
  existsb (endswith (file_path f)) text_extensions = true
  /\ should_skip_path fnmatch (file_path f) skip_patterns = false
  /\ exists url file_response file_data,
       requests_get url = Return file_response
       /\ status_code file_response = 200%Z
       /\ response_json file_response = JDict file_data
       /\ entry_encoding file_data = Some (lit "base64")
       /\ b64decode_utf8 (match entry_content file_data with
                          | Some c => c
                          | None => []
                          end) = Some (file_content f).

(** ** Paths of files *)

(** A directory part: empty, or ended by a slash. *)
Definition dir_part (d : str) : bool :=
  match rev d with
  | [] => true
  | c :: _ => c =? slash
  end.

Definition no_dot (s : str) : bool := forallb (differs full_stop) s.
Definition no_slash (s : str) : bool := forallb (differs slash) s.

Definition js_family : list str := [lit "tsx"; lit "jsx"; lit "ts"; lit "js"].

(** The path and the content of the record have no opening of a wrapper
    tag. *)
Definition record_tag_free (file : file_record) : bool :=
  negb (contains wrapper_open (file_path file))
  && negb (contains wrapper_open (file_content file)).

(** ** Commands *)

(** Each command of [new], run in turn after [history], exits with 0. *)
Fixpoint all_succeed (returncode : list str -> str -> Z)
    (history new : list str) : bool :=
  match new with
  | [] => true
  | command :: new' =>
      (returncode history command =? 0)%Z
      && all_succeed returncode (history ++ [command]) new'
  end.

(** No command of [new] follows one that failed, and the outcome is a
    return when the last one succeeded too, a RuntimeError when it failed. *)
Definition fail_fast (returncode : list str -> str -> Z)
    (history new : list str) (o : outcome unit) : Prop :=
  all_succeed returncode history (removelast new) = true
  /\ (o = Return tt <-> all_succeed returncode history new = true)
  /\ (o = Return tt \/ o = Raise "RuntimeError").

(** The two commands of the component tool, as the code spells them. *)
Definition init_command (usingToast : bool) : str :=
  lit "echo " ++ [dquote] ++ lit "." ++ [dquote] ++ lit " | npx "
  ++ (if usingToast then lit "shadcn init "
      else lit "shadcn@latest init -t next -b neutral --cwd .").

Definition add_command (usingToast : bool) : str :=
  if usingToast then lit "npx shadcn add -a"
  else lit "npx shadcn@latest add -a".

(** The two commands of a package manager on a package. *)
Definition uninstall_command (pnpm_lock_exists : bool) (package_name : str)
    : str :=
  (if pnpm_lock_exists then lit "pnpm remove " else lit "npm uninstall ")
  ++ package_name.

Definition install_command (pnpm_lock_exists : bool) (package_name : str)
    : str :=
  (if pnpm_lock_exists then lit "pnpm add " else lit "npm install ")
  ++ package_name.

(** A command of the component tool through npx, with no mention of pnpm. *)
Definition npx_shadcn (command : str) : Prop :=
  contains (lit "npx shadcn") command = true
  /\ contains (lit "pnpm") command = false.

(** A command that ends with the name of the package and starts with the
    name of the package manager. *)
Definition manages (manager package_name command : str) : Prop :=
  exists verb, command = verb ++ package_name
               /\ startswith verb manager = true.

(** The package is a key of one of the two tables of package.json. *)
Definition listed (package_name : str)
    (package_json_data : gmap str (gmap str str)) : Prop :=
  is_Some (default ∅ (package_json_data !! lit "dependencies")
             !! package_name)
  \/ is_Some (default ∅ (package_json_data !! lit "devDependencies")
                !! package_name).

(** ** Written files *)

Section LastWrite.

Context {fs_path : Type} `{EqDecision fs_path}.
Variable resolve_now : str -> outcome fs_path.

(** The code of the last pair of [files] whose path resolves to [p]. *)
Fixpoint last_write (files : list (str * str)) (p : fs_path) : option str :=
  match files with
  | [] => None
  | (file_path, code) :: files' =>
      match last_write files' p with
      | Some later => Some later
      | None =>
          match resolve_now file_path with
          | Return q => if decide (q = p) then Some code else None
          | _ => None
          end
      end
  end.

End LastWrite.

(** A small file system: the directories that exist and the text of each
    file; paths are resolved to themselves. *)
Definition small_fs : Type := gset str * gmap str str.

Definition small_resolve (fs : small_fs) (file_path : str) : outcome str :=
  Return file_path.

Definition small_parent (p : str) : str :=
  rstrip_by (differs slash) p.

Definition small_exists (fs : small_fs) (d : str) : outcome bool :=
  Return (bool_decide (d ∈ fs.1)).

Definition small_mkdir (fs : small_fs) (d : str) : outcome small_fs :=
  Return ({[d]} ∪ fs.1, fs.2).

Definition small_write (fs : small_fs) (p text : str) : outcome small_fs :=
  Return (fs.1, <[p := text]> fs.2).

Definition small_read (fs : small_fs) (p : str) : option str := fs.2 !! p.

Definition three_writes : list (str * str) :=
  [(lit "app/page.tsx", lit "one"); (lit "lib/utils.ts", lit "two");
   (lit "app/page.tsx", lit "three")].

Definition always_zero (history : list str) (command : str) : Z := 0%Z.

(** ** A small repository *)

(** [fnmatch] on patterns without wild card: the path itself. *)
Definition exact_fnmatch (path pattern : str) : bool :=
  bool_decide (path = pattern).

Definition dir_entry (path : str) : entry :=
  {| entry_path := path; entry_type := lit "dir"; entry_url := [];
     entry_content := None; entry_encoding := None |}.

Definition file_entry (path url : str) : entry :=
  {| entry_path := path; entry_type := lit "file"; entry_url := url;
     entry_content := None; entry_encoding := None |}.

Definition blob (path content : str) : entry :=
  {| entry_path := path; entry_type := lit "file"; entry_url := [];
     entry_content := Some content; entry_encoding := Some (lit "base64") |}.

Definition ok (j : json) : outcome response :=
  Return {| status_code := 200; response_json := j |}.

(** The answers of a repository o/r on the branch main with README.md, a
    file LICENSE and a directory src that holds a.ts; secret.ts is passed
    over by the crawl below; any other URL is answered with status 404. *)
Definition small_repo (url : str) : outcome response :=
  if bool_decide (url = contents_url (lit "o") (lit "r") (lit "main") [])
  then ok (JList [dir_entry (lit "src");
                  file_entry (lit "README.md") (lit "blob/1");
                  file_entry (lit "LICENSE") (lit "blob/2")])
  else if bool_decide
            (url = contents_url (lit "o") (lit "r") (lit "main") (lit "src"))
  then ok (JList [file_entry (lit "src/a.ts") (lit "blob/3");
                  file_entry (lit "src/secret.ts") (lit "blob/4")])
  else if bool_decide (url = lit "blob/1")
  then ok (JDict (blob (lit "README.md") (lit "SGk=")))
  else if bool_decide (url = lit "blob/3")
  then ok (JDict (blob (lit "src/a.ts") (lit "eA==")))
  else Return {| status_code := 404; response_json := JList [] |}.

(** The decoding of the two contents of the small repository. *)
Definition small_b64decode (content : str) : option str :=
  if bool_decide (content = lit "SGk=") then Some (lit "Hi")
  else if bool_decide (content = lit "eA==") then Some (lit "x")
  else None.

Definition small_repo_files : list file_record :=
  [{| file_path := lit "src/a.ts"; file_content := lit "x" |};
   {| file_path := lit "README.md"; file_content := lit "Hi" |}].

Definition zod_package_json : gmap str (gmap str str) :=
  {[ lit "dependencies" := {[ lit "zod" := lit "^3.22.0" ]} ]}.

(** * Properties *)

(** ** Strings *)

Lemma startswith_app (p s : str) : startswith (p ++ s) p = true.
Proof.
  induction p as [|c p IH]; simpl; [reflexivity|].
  now rewrite N.eqb_refl.
Qed.

Lemma startswith_split (s p : str) :
  startswith s p = true -> s = p ++ drop (length p) s.
Proof.
  revert s; induction p as [|c p IH]; intros s H; simpl in *.
  - now rewrite drop_0.
  - destruct s as [|c' s]; [discriminate|].
    apply andb_true_iff in H as [Hc Hs].
    apply N.eqb_eq in Hc; subst c'.
    simpl. f_equal. now apply IH.
Qed.

Lemma startswith_app_l (a b p : str) :
  startswith a p = true -> startswith (a ++ b) p = true.
Proof.
  revert a; induction p as [|c p IH]; intros a H; simpl in *; [reflexivity|].
  destruct a as [|c' a]; [discriminate|]. simpl.
  apply andb_true_iff in H as [Hc Hs].
  rewrite Hc. simpl. now apply IH.
Qed.

Lemma contains_app_intro (a sub b : str) : contains sub (a ++ sub ++ b) = true.
Proof.
  induction a as [|c a IH]; simpl.
  - destruct (sub ++ b) eqn:E; simpl; rewrite <- E, startswith_app;
      reflexivity.
  - rewrite IH. apply orb_true_r.
Qed.

Lemma contains_cons_false (sub : str) (c : char) (s : str) :
  contains sub (c :: s) = false ->
  startswith (c :: s) sub = false /\ contains sub s = false.
Proof. simpl. intros H. now apply orb_false_iff in H. Qed.

Lemma contains_false_head (sub s : str) :
  contains sub s = false -> startswith s sub = false.
Proof. destruct s; simpl; intros H; now apply orb_false_iff in H. Qed.

Lemma contains_false_drop (sub a b : str) :
  contains sub (a ++ b) = false -> contains sub b = false.
Proof.
  induction a as [|c a IH]; simpl; [easy|].
  intros H. apply orb_false_iff in H as [_ H]. now apply IH.
Qed.

Lemma contains_false_take (sub a b : str) :
  contains sub (a ++ b) = false -> contains sub a = false.
Proof.
  induction a as [|c a IH]; intros H.
  - simpl in H. apply contains_false_head in H. simpl.
    destruct sub as [|x sub]; [destruct b; discriminate|reflexivity].
  - change ((c :: a) ++ b) with (c :: (a ++ b)) in H.
    apply contains_cons_false in H as [Hh Ht]. simpl.
    rewrite (IH Ht), orb_false_r.
    destruct (startswith (c :: a) sub) eqn:E; [|reflexivity].
    pose proof (startswith_app_l (c :: a) b sub E) as E'.
    change ((c :: a) ++ b) with (c :: (a ++ b)) in E'. congruence.
Qed.

(** A prefix that starts inside [a] and runs into [c :: b] passes over [c]:
    when [c] does not occur in it, it lies inside [a]. *)
Lemma startswith_app_sep (p a : str) (c : char) (b : str) :
  ~ In c p -> startswith (a ++ c :: b) p = true -> startswith a p = true.
Proof.
  revert a; induction p as [|x p IH]; intros a Hc H; simpl in *; [reflexivity|].
  destruct a as [|y a]; simpl in *.
  - apply andb_true_iff in H as [H _]. apply N.eqb_eq in H. subst. tauto.
  - apply andb_true_iff in H as [Hy H]. rewrite Hy. simpl.
    apply IH; tauto.
Qed.

Lemma contains_app_sep (p a : str) (c : char) (b : str) :
  ~ In c p -> p <> [] ->
  contains p a = false -> contains p b = false ->
  contains p (a ++ c :: b) = false.
Proof.
  intros Hc Hp Ha Hb.
  assert (Hcb : contains p (c :: b) = false).
  { simpl. rewrite Hb, orb_false_r.
    destruct p as [|x p]; [congruence|]. simpl.
    destruct (N.eqb_spec c x); [subst; simpl in Hc; tauto|reflexivity]. }
  induction a as [|y a IH]; [exact Hcb|].
  apply contains_cons_false in Ha as [Hh Ht].
  change ((y :: a) ++ c :: b) with (y :: (a ++ c :: b)).
  simpl. rewrite (IH Ht), orb_false_r.
  destruct (startswith (y :: a ++ c :: b) p) eqn:E; [|reflexivity].
  apply (startswith_app_sep p (y :: a) c b Hc) in E. congruence.
Qed.

Lemma lstrip_by_all (p : char -> bool) (s : str) :
  lstrip_by p s = [] <-> forallb p s = true.
Proof.
  induction s as [|c s IH]; simpl; [tauto|].
  destruct (p c); simpl; [exact IH|]. split; discriminate.
Qed.

Lemma forallb_rev (p : char -> bool) (s : str) :
  forallb p (rev s) = forallb p s.
Proof.
  induction s as [|c s IH]; simpl; [reflexivity|].
  rewrite forallb_app, IH. simpl. rewrite andb_true_r. apply andb_comm.
Qed.

Lemma lstrip_by_suffix (p : char -> bool) (s : str) :
  exists a, s = a ++ lstrip_by p s /\ forallb p a = true.
Proof.
  induction s as [|c s (a & Ha & Hp)]; simpl; [now exists []|].
  destruct (p c) eqn:E.
  - exists (c :: a). simpl. rewrite E, Hp. split; [now f_equal|reflexivity].
  - now exists [].
Qed.

(** [not file.strip()] holds exactly for the empty and the whitespace-only
    strings. *)
Lemma strip_blank (s : str) :
  negb (truthy (strip s)) = forallb is_space s.
Proof.
  assert (H : strip s = [] <-> forallb is_space s = true).
  { unfold strip, strip_by, rstrip_by.
    destruct (lstrip_by_suffix is_space s) as (a & Ha & Hp).
    set (t := lstrip_by is_space s) in *.
    split; intros H.
    - apply (f_equal (@rev char)) in H. rewrite rev_involutive in H.
      simpl in H. apply lstrip_by_all in H. rewrite forallb_rev in H.
      rewrite Ha, forallb_app, Hp, H. reflexivity.
    - rewrite Ha, forallb_app in H. apply andb_true_iff in H as [_ H].
      rewrite <- forallb_rev in H. apply lstrip_by_all in H.
      now rewrite H. }
  destruct (strip s) eqn:E, (forallb is_space s) eqn:F; simpl; try reflexivity.
  - destruct H as [H _]. now discriminate H.
  - destruct H as [_ H]. now discriminate H.
Qed.

(** ** The matcher *)

Section Matcher.

Implicit Types (p : char -> bool) (s w : str) (k : str -> option result).

Lemma exec_lits (l s : str) (caps : list str) (k : cont) :
  exec (lits l) s caps k =
  if startswith s l then k (drop (length l) s) caps else None.
Proof.
  revert s; induction l as [|c l IH]; intros s; simpl.
  - now rewrite drop_0.
  - destruct s as [|c' s]; [reflexivity|].
    destruct (c' =? c); simpl; [apply IH|reflexivity].
Qed.

Lemma exec_lits_app (l s : str) (caps : list str) (k : cont) :
  exec (lits l) (l ++ s) caps k = k s caps.
Proof.
  rewrite exec_lits, startswith_app, drop_app_length. reflexivity.
Qed.

Lemma rep_greedy_run p min w s k r :
  forallb p w = true -> stops p s = true -> (min <= length w)%nat ->
  k s = Some r -> rep_greedy p min (w ++ s) k = Some r.
Proof.
  revert min; induction w as [|c w IH]; intros min Hw Hs Hmin Hk.
  - simpl in Hmin. assert (min = O) by lia. subst min.
    destruct s as [|c s]; [exact Hk|].
    simpl in Hs. apply negb_true_iff in Hs. simpl. now rewrite Hs.
  - simpl in Hw. apply andb_true_iff in Hw as [Hc Hw].
    change ((c :: w) ++ s) with (c :: (w ++ s)). cbn [rep_greedy].
    rewrite Hc.
    rewrite (IH (Nat.pred min)); auto. simpl in Hmin. lia.
Qed.

Lemma rep_greedy_stop p s k :
  stops p s = true -> rep_greedy p 1 s k = None.
Proof.
  destruct s as [|c s]; simpl; [reflexivity|].
  intros H. apply negb_true_iff in H. now rewrite H.
Qed.

Lemma rep_lazy_first p w s k r :
  forallb p w = true ->
  (forall w1 w2, w = w1 ++ w2 -> w2 <> [] -> k (w2 ++ s) = None) ->
  k s = Some r -> rep_lazy p 0 (w ++ s) k = Some r.
Proof.
  induction w as [|c w IH]; intros Hw Hnone Hk.
  - destruct s; simpl; rewrite Hk; reflexivity.
  - simpl in Hw. apply andb_true_iff in Hw as [Hc Hw].
    change ((c :: w) ++ s) with (c :: (w ++ s)).
    cbn [rep_lazy].
    change (c :: (w ++ s)) with ((c :: w) ++ s).
    rewrite (Hnone [] (c :: w) eq_refl); [|discriminate].
    rewrite Hc. cbn [Nat.pred]. apply IH; auto.
    intros w1 w2 E Hne. apply (Hnone (c :: w1) w2); [|exact Hne].
    subst w. reflexivity.
Qed.

Lemma rep_greedy_sound p min s k res :
  rep_greedy p min s k = Some res ->
  exists w s', s = w ++ s' /\ forallb p w = true /\ (min <= length w)%nat
               /\ k s' = Some res.
Proof.
  revert min; induction s as [|c s IH]; intros min H.
  - simpl in H. destruct min; [|discriminate].
    exists [], []. auto.
  - cbn [rep_greedy] in H.
    assert (Hstop : match min with O => k (c :: s) | S _ => None end
                    = Some res ->
                    exists w s', c :: s = w ++ s' /\ forallb p w = true
                                 /\ (min <= length w)%nat
                                 /\ k s' = Some res).
    { destruct min; [|discriminate]. intros Hk.
      exists [], (c :: s). auto. }
    destruct (p c) eqn:Hc; [|auto].
    destruct (rep_greedy p (Nat.pred min) s k) eqn:E; [|auto].
    injection H as ->.
    destruct (IH _ E) as (w & s' & -> & Hw & Hmin & Hk).
    exists (c :: w), s'. simpl. rewrite Hc, Hw.
    repeat split; auto. lia.
Qed.

Lemma rep_lazy_sound p min s k res :
  rep_lazy p min s k = Some res ->
  exists w s', s = w ++ s' /\ forallb p w = true /\ (min <= length w)%nat
               /\ k s' = Some res.
Proof.
  revert min; induction s as [|c s IH]; intros min H.
  - simpl in H. destruct min; [|discriminate].
    destruct (k []) eqn:E; [|discriminate]. injection H as ->.
    exists [], []. auto.
  - cbn [rep_lazy] in H.
    assert (Hmore : (if p c then rep_lazy p (Nat.pred min) s k else None)
                    = Some res ->
                    exists w s', c :: s = w ++ s' /\ forallb p w = true
                                 /\ (min <= length w)%nat
                                 /\ k s' = Some res).
    { destruct (p c) eqn:Hc; [|discriminate]. intros E.
      destruct (IH _ E) as (w & s' & -> & Hw & Hmin & Hk).
      exists (c :: w), s'. simpl. rewrite Hc, Hw.
      repeat split; auto. lia. }
    destruct min; [|auto].
    destruct (k (c :: s)) eqn:E; [|auto].
    injection H as ->. exists [], (c :: s). auto.
Qed.

(** Whatever the matcher accepts is a word of the pattern followed by an
    input on which the continuation succeeds. *)
Lemma exec_sound (r : regex) :
  forall s caps (k : cont) res,
    exec r s caps k = Some res ->
    exists w s' caps', s = w ++ s' /\ lang r w /\ k s' caps' = Some res.
Proof.
  induction r as [|c|p|r1 IH1 r2 IH2|greedy min p|r IH];
    intros s caps k res H; simpl in H.
  - exists [], s, caps. repeat split; auto.
  - destruct s as [|c' s]; [discriminate|].
    destruct (N.eqb_spec c' c); [subst|discriminate].
    exists [c], s, caps. repeat split; auto.
  - destruct s as [|c' s]; [discriminate|].
    destruct (p c') eqn:Hc; [|discriminate].
    exists [c'], s, caps. simpl. eauto.
  - destruct (IH1 _ _ _ _ H) as (w1 & s1 & caps1 & -> & Hw1 & H1).
    destruct (IH2 _ _ _ _ H1) as (w2 & s2 & caps2 & -> & Hw2 & H2).
    exists (w1 ++ w2), s2, caps2. rewrite <- app_assoc.
    simpl. eauto 10.
  - destruct greedy.
    + destruct (rep_greedy_sound _ _ _ _ _ H) as (w & s' & -> & ? & ? & ?).
      exists w, s', caps. simpl. auto.
    + destruct (rep_lazy_sound _ _ _ _ _ H) as (w & s' & -> & ? & ? & ?).
      exists w, s', caps. simpl. auto.
  - destruct (IH _ _ _ _ H) as (w & s' & caps' & -> & Hw & Hk).
    eexists w, s', _. simpl. eauto.
Qed.

Lemma match_here_sound (r : regex) s rest caps :
  match_here r s = Some (rest, caps) -> exists w, s = w ++ rest /\ lang r w.
Proof.
  intros H. apply exec_sound in H as (w & s' & caps' & -> & Hw & Hk).
  injection Hk as -> _. eauto.
Qed.

Lemma lang_lits (l w : str) : lang (lits l) w -> w = l.
Proof.
  revert w; induction l as [|c l IH]; intros w; simpl; [auto|].
  intros (w1 & w2 & -> & -> & H). simpl. f_equal. auto.
Qed.

(** The group captured by a match of [w] at the head of [w ++ s]. *)
Lemma take_matched (w s : str) :
  take (length (w ++ s) - length s) (w ++ s) = w.
Proof.
  rewrite length_app.
  replace (length w + length s - length s)%nat with (length w) by lia.
  apply take_app_length.
Qed.

(** *** [re.search] and [re.findall] over a text *)

Lemma re_search_skip (r : regex) (a b : str) :
  (forall a1 a2, a = a1 ++ a2 -> a2 <> [] -> match_here r (a2 ++ b) = None) ->
  re_search r (a ++ b) = re_search r b.
Proof.
  induction a as [|c a IH]; intros H; [reflexivity|].
  change ((c :: a) ++ b) with (c :: (a ++ b)). cbn [re_search].
  change (c :: (a ++ b)) with ((c :: a) ++ b).
  rewrite (H [] (c :: a) eq_refl); [|discriminate].
  apply IH. intros a1 a2 -> Hne. now apply (H (c :: a1) a2).
Qed.

Lemma re_search_none (r : regex) (s : str) :
  (forall a b, s = a ++ b -> match_here r b = None) -> re_search r s = None.
Proof.
  induction s as [|c s IH]; intros H.
  - simpl. now rewrite (H [] [] eq_refl).
  - cbn [re_search]. rewrite (H [] (c :: s) eq_refl).
    apply IH. intros a b ->. now apply (H (c :: a) b).
Qed.

Lemma re_search_here (r : regex) (s rest : str) (caps : list str) :
  match_here r s = Some (rest, caps) -> re_search r s = Some caps.
Proof. intros H. destruct s; simpl; now rewrite H. Qed.

Lemma findall_from_skip (r : regex) (a b : str) :
  findall_from r (length a) (a ++ b) = findall_from r O b.
Proof. induction a as [|c a IH]; [reflexivity|exact IH]. Qed.

Lemma findall_no_match (r : regex) (a b : str) :
  (forall a1 a2, a = a1 ++ a2 -> a2 <> [] -> match_here r (a2 ++ b) = None) ->
  re_findall r (a ++ b) = re_findall r b.
Proof.
  unfold re_findall.
  induction a as [|c a IH]; intros H; [reflexivity|].
  change ((c :: a) ++ b) with (c :: (a ++ b)). cbn [findall_from].
  change (c :: (a ++ b)) with ((c :: a) ++ b).
  rewrite (H [] (c :: a) eq_refl); [|discriminate].
  apply IH. intros a1 a2 -> Hne. now apply (H (c :: a1) a2).
Qed.

Lemma findall_none (r : regex) (s : str) :
  (forall a b, s = a ++ b -> match_here r b = None) -> re_findall r s = [].
Proof.
  unfold re_findall. induction s as [|c s IH]; intros H.
  - simpl. now rewrite (H [] [] eq_refl).
  - cbn [findall_from]. rewrite (H [] (c :: s) eq_refl).
    apply IH. intros a b ->. now apply (H (c :: a) b).
Qed.

Lemma findall_match (r : regex) (w rest : str) (caps : list str) :
  w <> [] -> match_here r (w ++ rest) = Some (rest, caps) ->
  re_findall r (w ++ rest) = caps :: re_findall r rest.
Proof.
  unfold re_findall. intros Hw H.
  destruct w as [|c w]; [congruence|].
  change ((c :: w) ++ rest) with (c :: (w ++ rest)) in *.
  cbn [findall_from]. rewrite H. f_equal.
  replace (Nat.pred (length (c :: (w ++ rest)) - length rest))
    with (length w).
  - apply findall_from_skip.
  - simpl. rewrite length_app. lia.
Qed.

End Matcher.

Section MatcherMore.

Implicit Types (p : char -> bool) (s w : str) (k : str -> option result).

Lemma rep_greedy_none p min w s k :
  forallb p w = true -> stops p s = true ->
  (forall w1 w2, w = w1 ++ w2 -> k (w2 ++ s) = None) ->
  rep_greedy p min (w ++ s) k = None.
Proof.
  revert min; induction w as [|c w IH]; intros min Hw Hs Hk.
  - pose proof (Hk [] [] eq_refl) as Hk0. simpl in Hk0.
    destruct s as [|c s]; simpl.
    + destruct min; auto.
    + simpl in Hs. apply negb_true_iff in Hs. rewrite Hs.
      destruct min; auto.
  - simpl in Hw. apply andb_true_iff in Hw as [Hc Hw].
    change ((c :: w) ++ s) with (c :: (w ++ s)). cbn [rep_greedy].
    rewrite Hc, IH; auto.
    + destruct min; [|reflexivity]. apply (Hk [] (c :: w) eq_refl).
    + intros w1 w2 ->. apply (Hk (c :: w1) w2 eq_refl).
Qed.

Lemma re_search_some (r : regex) (s : str) (caps : list str) :
  re_search r s = Some caps ->
  exists a b rest, s = a ++ b /\ match_here r b = Some (rest, caps).
Proof.
  induction s as [|c s IH]; cbn [re_search].
  - destruct (match_here r []) as [[rest caps']|] eqn:E; [|discriminate].
    intros [= ->]. exists [], [], rest. auto.
  - destruct (match_here r (c :: s)) as [[rest caps']|] eqn:E.
    + intros [= ->]. exists [], (c :: s), rest. auto.
    + intros H. destruct (IH H) as (a & b & rest & -> & Hm).
      exists (c :: a), b, rest. auto.
Qed.

Lemma findall_some (r : regex) (s : str) (caps : list str) :
  forall skip, In caps (findall_from r skip s) ->
  exists a b rest, s = a ++ b /\ match_here r b = Some (rest, caps).
Proof.
  induction s as [|c s IH]; intros skip H.
  - destruct skip; simpl in H; [|contradiction].
    destruct (match_here r []) as [[rest caps']|] eqn:E; [|contradiction].
    destruct H as [->|[]]. exists [], [], rest. auto.
  - assert (Hrec : forall n, In caps (findall_from r n s) ->
              exists a b rest, c :: s = a ++ b
                               /\ match_here r b = Some (rest, caps)).
    { intros n Hn. destruct (IH n Hn) as (a & b & rest & -> & Hm).
      exists (c :: a), b, rest. auto. }
    destruct skip; cbn [findall_from] in H; [|eauto].
    destruct (match_here r (c :: s)) as [[rest caps']|] eqn:E; [|eauto].
    destruct H as [->|H]; [|eauto].
    exists [], (c :: s), rest. auto.
Qed.

(** A pattern that opens with a literal whose first character does not
    come back in it finds no match that starts in [pre] when the literal
    does not occur in [pre] and the text goes on with that character. *)
Lemma no_match_before (r : regex) (c0 : char) (p' pre b : str) :
  (forall s, startswith s (c0 :: p') = false -> match_here r s = None) ->
  ~ In c0 p' -> contains (c0 :: p') pre = false ->
  forall a1 a2, pre = a1 ++ a2 -> a2 <> [] ->
                match_here r (a2 ++ c0 :: b) = None.
Proof.
  intros Hr Hc Hpre a1 a2 -> Hne. apply Hr.
  apply contains_false_drop in Hpre.
  destruct a2 as [|y a2]; [congruence|].
  apply contains_cons_false in Hpre as [Hh _].
  destruct (startswith ((y :: a2) ++ c0 :: b) (c0 :: p')) eqn:E; [|reflexivity].
  simpl in E, Hh. apply andb_true_iff in E as [Ey E].
  rewrite Ey in Hh. simpl in Hh.
  apply (startswith_app_sep p' a2 c0 b Hc) in E. congruence.
Qed.

Lemma no_match_without_head (r : regex) (c0 : char) (a b : str) :
  (forall c s, (c =? c0) = false -> match_here r (c :: s) = None) ->
  forallb (differs c0) a = true ->
  forall a1 a2, a = a1 ++ a2 -> a2 <> [] -> match_here r (a2 ++ b) = None.
Proof.
  intros Hr Ha a1 a2 -> Hne.
  rewrite forallb_app in Ha. apply andb_true_iff in Ha as [_ Ha].
  destruct a2 as [|y a2]; [congruence|]. simpl in Ha.
  apply andb_true_iff in Ha as [Hy _]. apply negb_true_iff in Hy.
  now apply Hr.
Qed.

End MatcherMore.

(** ** The project identifier *)

Lemma space_not (c x : char) :
  is_space c = true -> is_space x = false -> (c =? x) = false.
Proof.
  intros Hc Hx. destruct (N.eqb_spec c x); [subst; congruence|reflexivity].
Qed.

Lemma project_id_needs_open (s : str) :
  startswith s wrapper_open = false -> match_here project_id_re s = None.
Proof.
  intros H. unfold match_here, project_id_re. cbn [cat exec].
  now rewrite exec_lits, H.
Qed.

Lemma project_id_needs_lt (c : char) (s : str) :
  (c =? 60) = false -> match_here project_id_re (c :: s) = None.
Proof. intros H. apply project_id_needs_open. simpl. now rewrite H. Qed.

(** At a wrapper tag with a value the pattern matches and captures it. *)
Lemma match_wrapper_tag (ws1 v ws2 rest : str) :
  ws1 <> [] -> forallb is_space ws1 = true ->
  v <> [] -> forallb not_dquote v = true ->
  forallb is_space ws2 = true ->
  match_here project_id_re (wrapper_tag ws1 v ws2 ++ rest) = Some (rest, [v]).
Proof.
  intros Hne1 Hws1 Hnev Hv Hws2.
  unfold match_here, project_id_re, wrapper_tag. cbn [cat exec].
  repeat rewrite <- app_assoc. rewrite exec_lits_app.
  apply rep_greedy_run; [exact Hws1|reflexivity| |].
  { destruct ws1; [congruence|simpl; lia]. }
  cbv beta. rewrite exec_lits_app.
  apply rep_greedy_run; [exact Hv|reflexivity| |].
  { destruct v; [congruence|simpl; lia]. }
  cbv beta. rewrite take_matched.
  cbn [exec app]. rewrite N.eqb_refl.
  apply rep_greedy_run; [exact Hws2|reflexivity|simpl; lia|].
  reflexivity.
Qed.

(** At a wrapper tag whose value is empty the pattern does not match. *)
Lemma no_match_empty_id (ws1 ws2 rest : str) :
  forallb is_space ws1 = true ->
  match_here project_id_re (wrapper_tag ws1 [] ws2 ++ rest) = None.
Proof.
  intros Hws1.
  unfold match_here, project_id_re, wrapper_tag. cbn [cat exec].
  repeat rewrite <- app_assoc. rewrite exec_lits_app.
  apply rep_greedy_none; [exact Hws1|reflexivity|].
  intros w1 w2 ->. rewrite forallb_app in Hws1.
  apply andb_true_iff in Hws1 as [_ Hw2].
  cbv beta. destruct w2 as [|c w2].
  - rewrite app_nil_l, exec_lits_app. reflexivity.
  - rewrite exec_lits. simpl in Hw2. apply andb_true_iff in Hw2 as [Hc _].
    simpl. now rewrite (space_not c 105 Hc).
Qed.

Lemma wrapper_tag_cons (ws1 v ws2 : str) :
  wrapper_tag ws1 v ws2 = lt_sign :: wrapper_tail ws1 v ws2.
Proof. reflexivity. Qed.

Lemma forallb_space_not (x : char) (ws : str) :
  is_space x = false -> forallb is_space ws = true ->
  forallb (differs x) ws = true.
Proof.
  intros Hx. induction ws as [|c ws IH]; simpl; [reflexivity|].
  intros H. apply andb_true_iff in H as [Hc Hws]. unfold differs at 1.
  now rewrite (space_not c x Hc Hx), IH.
Qed.

Lemma wrapper_tail_no_lt (ws1 v ws2 : str) :
  forallb is_space ws1 = true -> forallb is_space ws2 = true ->
  forallb (differs lt_sign) v = true ->
  forallb (differs lt_sign) (wrapper_tail ws1 v ws2) = true.
Proof.
  intros H1 H2 Hv. unfold wrapper_tail.
  repeat rewrite forallb_app.
  rewrite (forallb_space_not lt_sign ws1), (forallb_space_not lt_sign ws2), Hv;
    auto.
Qed.

Lemma re_search_cons_none (r : regex) (c : char) (s : str) :
  match_here r (c :: s) = None -> re_search r (c :: s) = re_search r s.
Proof. intros H. cbn [re_search]. now rewrite H. Qed.

Lemma project_id_absent (s : str) :
  contains wrapper_open s = false -> re_search project_id_re s = None.
Proof.
  intros H. apply re_search_none. intros a b ->.
  apply project_id_needs_open, contains_false_head.
  now apply contains_false_drop in H.
Qed.

Lemma project_id_skip (pre rest : str) :
  contains wrapper_open pre = false ->
  re_search project_id_re (pre ++ lt_sign :: rest)
  = re_search project_id_re (lt_sign :: rest).
Proof.
  intros H. apply re_search_skip.
  apply (no_match_before project_id_re lt_sign (tl wrapper_open)).
  - exact project_id_needs_open.
  - vm_compute. intuition discriminate.
  - exact H.
Qed.

(** What a match of the pattern looks like. *)
Lemma project_id_match_shape (b rest : str) (caps : list str) :
  match_here project_id_re b = Some (rest, caps) ->
  exists ws1 v ws2,
    b = wrapper_tag ws1 v ws2 ++ rest
    /\ ws1 <> [] /\ forallb is_space ws1 = true
    /\ v <> [] /\ forallb not_dquote v = true
    /\ forallb is_space ws2 = true.
Proof.
  intros H. apply match_here_sound in H as (w & -> & Hw).
  unfold project_id_re in Hw. cbn [cat lang] in Hw.
  destruct Hw as (w1 & x1 & -> & Hw1 & ws1 & x2 & -> & [Hws1 Hlen1]
                  & w3 & x3 & -> & Hw3 & v & x4 & -> & [Hv Hlenv]
                  & w5 & x5 & -> & -> & ws2 & x6 & -> & [Hws2 _]
                  & w7 & x7 & -> & -> & ->).
  apply lang_lits in Hw1, Hw3. subst w1 w3.
  exists ws1, v, ws2. unfold wrapper_tag.
  repeat rewrite <- app_assoc. repeat split; auto.
  - destruct ws1; simpl in *; [lia|discriminate].
  - destruct v; simpl in *; [lia|discriminate].
Qed.

Lemma extract_project_id_first (pre ws1 v ws2 post : str) :
  contains wrapper_open pre = false ->
  ws1 <> [] -> forallb is_space ws1 = true ->
  v <> [] -> forallb not_dquote v = true ->
  forallb is_space ws2 = true ->
  extract_project_id (pre ++ wrapper_tag ws1 v ws2 ++ post) = Return v.
Proof.
  intros Hpre Hne1 Hws1 Hnev Hv Hws2. unfold extract_project_id.
  rewrite wrapper_tag_cons. change ((?c :: ?a) ++ ?b) with (c :: (a ++ b)).
  rewrite project_id_skip by exact Hpre.
  change (lt_sign :: (wrapper_tail ws1 v ws2 ++ post))
    with (wrapper_tag ws1 v ws2 ++ post).
  now rewrite (re_search_here _ _ _ _
                 (match_wrapper_tag ws1 v ws2 post Hne1 Hws1 Hnev Hv Hws2)).
Qed.

Lemma extract_project_id_needs_tag (markdown : str) :
  extract_project_id markdown <> SysExit 1 ->
  exists pre ws1 v ws2 post,
    markdown = pre ++ wrapper_tag ws1 v ws2 ++ post
    /\ ws1 <> [] /\ forallb is_space ws1 = true
    /\ v <> [] /\ forallb not_dquote v = true
    /\ forallb is_space ws2 = true.
Proof.
  unfold extract_project_id.
  destruct (re_search project_id_re markdown) as [caps|] eqn:E; [|congruence].
  intros _. apply re_search_some in E as (pre & b & rest & -> & Hm).
  apply project_id_match_shape in Hm as (ws1 & v' & ws2 & -> & H).
  exists pre, ws1, v', ws2, rest. auto.
Qed.

(** C7: the project identifier is the value of the id attribute of the
    first wrapper tag, and the script exits with status 1 when the text has
    no wrapper tag with an id attribute.  A text whose first wrapper tag
    has the value demo gives demo, whatever follows it, further wrapper
    tags included. *)
Theorem extract_project_id_spec :
  (forall markdown,
      ~ has_wrapper_tag markdown -> extract_project_id markdown = SysExit 1)
  /\ (forall pre post,
         contains wrapper_open pre = false ->
         extract_project_id (pre ++ demo_tag ++ post) = Return (lit "demo"))
  /\ (forall pre ws1 v ws2 post,
         contains wrapper_open pre = false ->
         ws1 <> [] -> forallb is_space ws1 = true ->
         v <> [] -> forallb not_dquote v = true ->
         forallb is_space ws2 = true ->
         extract_project_id (pre ++ wrapper_tag ws1 v ws2 ++ post) = Return v).
Proof.
  split; [|split].
  - intros markdown Hno.
    destruct (extract_project_id markdown) as [v|code|e] eqn:E.
    + exfalso. apply Hno.
      destruct (extract_project_id_needs_tag markdown)
        as (pre & ws1 & v' & ws2 & post & H); [congruence|].
      exists pre, ws1, v', ws2, post. tauto.
    + unfold extract_project_id in E.
      destruct (re_search project_id_re markdown); congruence.
    + unfold extract_project_id in E.
      destruct (re_search project_id_re markdown); congruence.
  - intros pre post Hpre.
    apply (extract_project_id_first pre [32] (lit "demo") [] post);
      auto; discriminate.
  - exact extract_project_id_first.
Qed.

(** The search passes over a wrapper tag whose id attribute is empty. *)
Lemma re_search_empty_id (pre ws1 ws2 post : str) :
  contains wrapper_open pre = false ->
  forallb is_space ws1 = true -> forallb is_space ws2 = true ->
  re_search project_id_re (pre ++ wrapper_tag ws1 [] ws2 ++ post)
  = re_search project_id_re post.
Proof.
  intros Hpre Hws1 Hws2.
  rewrite wrapper_tag_cons. change ((?c :: ?a) ++ ?b) with (c :: (a ++ b)).
  rewrite project_id_skip by exact Hpre.
  rewrite re_search_cons_none.
  2:{ change (lt_sign :: (wrapper_tail ws1 [] ws2 ++ post))
        with (wrapper_tag ws1 [] ws2 ++ post).
      now apply no_match_empty_id. }
  apply re_search_skip.
  apply (no_match_without_head project_id_re lt_sign).
  - exact project_id_needs_lt.
  - now apply wrapper_tail_no_lt.
Qed.

(** A match further on is found, unless one is found before. *)
Lemma re_search_finds (r : regex) (a b rest : str) (caps : list str) :
  match_here r b = Some (rest, caps) ->
  exists caps', re_search r (a ++ b) = Some caps'.
Proof.
  intros H. induction a as [|c a IH].
  - exists caps. exact (re_search_here r b rest caps H).
  - change ((c :: a) ++ b) with (c :: (a ++ b)). cbn [re_search].
    destruct (match_here r (c :: a ++ b)) as [[rest' caps']|];
      [now exists caps'|exact IH].
Qed.

(** The script exits with status 1 exactly on the texts without a wrapper
    tag whose id is not empty. *)
Lemma extract_project_id_fails_iff (markdown : str) :
  extract_project_id markdown = SysExit 1 <-> ~ has_id_tag markdown.
Proof.
  split.
  - intros E (pre & ws1 & v & ws2 & post & -> & Hne & Hws1 & Hv & Hq & Hws2).
    destruct (re_search_finds project_id_re pre
                (wrapper_tag ws1 v ws2 ++ post) post [v]
                (match_wrapper_tag ws1 v ws2 post Hne Hws1 Hv Hq Hws2))
      as [caps H].
    unfold extract_project_id in E. rewrite H in E. discriminate E.
  - intros Hno.
    destruct (extract_project_id markdown) as [v|code|e] eqn:E.
    + exfalso. apply Hno.
      apply extract_project_id_needs_tag. rewrite E. discriminate.
    + unfold extract_project_id in E.
      destruct (re_search project_id_re markdown); congruence.
    + unfold extract_project_id in E.
      destruct (re_search project_id_re markdown); congruence.
Qed.

(** C9, as stated, fails: a text with a wrapper tag whose id is empty,
    followed by a wrapper tag with the id b, returns b. *)
Lemma empty_id_then_id_returns :
  startswith empty_id_then_b (wrapper_tag [32] [] []) = true
  /\ extract_project_id empty_id_then_b = Return (lit "b")
  /\ extract_project_id empty_id_then_b <> SysExit 1.
Proof. repeat split; vm_compute; [reflexivity..|discriminate]. Qed.

(** C9, amended: a wrapper tag whose id attribute is empty is not a match
    and counts for nothing.  A text with such a tag exits with status 1, as
    a text without wrapper tag does, exactly when it has no wrapper tag
    whose id is not empty; when it has one, an identifier is returned.
    After a text without wrapper tag the tag with the empty id is passed
    over, the result being that of the text after it; when that text has
    no wrapper tag either the script exits with status 1. *)
Theorem extract_project_id_empty_id (pre ws1 ws2 post : str) :
  forallb is_space ws1 = true -> forallb is_space ws2 = true ->
  let markdown := pre ++ wrapper_tag ws1 [] ws2 ++ post in
  (extract_project_id markdown = SysExit 1 <-> ~ has_id_tag markdown)
  /\ (has_id_tag markdown ->
      exists v, extract_project_id markdown = Return v)
  /\ (contains wrapper_open pre = false ->
      extract_project_id markdown = extract_project_id post
      /\ (contains wrapper_open post = false ->
          extract_project_id markdown = SysExit 1)).
Proof.
  intros Hws1 Hws2 markdown. split; [|split].
  - apply extract_project_id_fails_iff.
  - intros Htag.
    destruct (extract_project_id markdown) as [v|code|e] eqn:E.
    + now exists v.
    + exfalso. unfold extract_project_id in E.
      destruct (re_search project_id_re markdown) eqn:Es; [discriminate|].
      apply (proj1 (extract_project_id_fails_iff markdown)); [|exact Htag].
      unfold extract_project_id. now rewrite Es.
    + exfalso. unfold extract_project_id in E.
      destruct (re_search project_id_re markdown); discriminate.
  - intros Hpre. subst markdown. unfold extract_project_id.
    rewrite (re_search_empty_id pre ws1 ws2 post Hpre Hws1 Hws2).
    split; [reflexivity|].
    intros Hpost. now rewrite project_id_absent.
Qed.

(** ** Code blocks *)

Lemma space_not_alnum (c : char) : is_space c = true -> is_alnum c = false.
Proof.
  intros H. destruct (is_alnum c) eqn:E; [exfalso|reflexivity].
  unfold is_space, is_alnum in *.
  repeat rewrite ?orb_true_iff, ?andb_true_iff, ?N.leb_le, ?N.eqb_eq in H.
  repeat rewrite ?orb_true_iff, ?andb_true_iff, ?N.leb_le, ?N.eqb_eq in E.
  lia.
Qed.

Lemma any_char_all (s : str) : forallb any_char s = true.
Proof.
  induction s as [|c s IH]; simpl; [reflexivity|].
  rewrite IH. unfold any_char. now destruct (is_space c).
Qed.

Lemma nonempty_length (s : str) : nonempty s = true -> (1 <= length s)%nat.
Proof. destruct s; simpl; [discriminate|lia]. Qed.

Lemma stops_space_run (p : char -> bool) (ws rest : str) :
  (forall c, is_space c = true -> p c = false) ->
  nonempty ws = true -> forallb is_space ws = true ->
  stops p (ws ++ rest) = true.
Proof.
  intros Hp Hne Hws. destruct ws as [|c ws]; [discriminate|].
  simpl in *. apply andb_true_iff in Hws as [Hc _].
  now rewrite (Hp c Hc).
Qed.

(** In a body that is [body_ok] no fence starts before the closing one. *)
Lemma body_ok_no_early_fence (body w1 w2 rest : str) :
  body_ok body = true -> body = w1 ++ w2 -> w2 <> [] ->
  startswith (w2 ++ fence ++ rest) fence = false.
Proof.
  unfold body_ok. intros H -> Hne. apply negb_true_iff in H.
  rewrite <- app_assoc in H. apply contains_false_drop in H.
  apply contains_false_head in H.
  destruct w2 as [|c [|d [|e w]]]; [congruence|..]; exact H.
Qed.

Lemma code_block_needs_fence (s : str) :
  startswith s fence = false -> match_here code_block_re s = None.
Proof.
  intros H. unfold match_here, code_block_re. cbn [cat exec].
  now rewrite exec_lits, H.
Qed.

Lemma code_block_needs_alnum (s : str) :
  stops is_alnum s = true -> match_here code_block_re (fence ++ s) = None.
Proof.
  intros H. unfold match_here, code_block_re. cbn [cat exec].
  rewrite exec_lits_app. now apply rep_greedy_stop.
Qed.

(** At an annotated block the pattern matches and captures the path and the
    body. *)
Lemma match_block (b : code_block) (rest : str) :
  block_ok b = true ->
  match_here code_block_re (render_block b ++ rest)
  = Some (rest, [block_path b; body b]).
Proof.
  unfold block_ok. repeat rewrite andb_true_iff.
  intros [[[[[Htag Halnum] Hsp] Hspace] Hpath] Hbody].
  unfold match_here, code_block_re, render_block. cbn [cat exec].
  repeat rewrite <- app_assoc. rewrite exec_lits_app.
  apply rep_greedy_run;
    [exact Halnum| |now apply nonempty_length|].
  { apply stops_space_run; auto using space_not_alnum. }
  cbv beta. apply rep_greedy_run;
    [exact Hspace|reflexivity|now apply nonempty_length|].
  cbv beta. rewrite exec_lits_app.
  apply rep_greedy_run; [exact Hpath|reflexivity|simpl; lia|].
  cbv beta. rewrite take_matched.
  cbn [exec app]. rewrite !N.eqb_refl.
  apply rep_lazy_first; [apply any_char_all| |].
  - intros w1 w2 E Hne. cbv beta. rewrite exec_lits.
    now rewrite (body_ok_no_early_fence (body b) w1 w2 rest Hbody E Hne).
  - cbv beta. rewrite exec_lits_app.
    change (body b ++ fence ++ rest) with (body b ++ (fence ++ rest)).
    rewrite take_matched. reflexivity.
Qed.

(** No match starts in a stretch of text without fence that a fence
    follows. *)
Lemma no_match_in_gap (g rest : str) :
  contains fence g = false ->
  forall a1 a2, g = a1 ++ a2 -> a2 <> [] ->
                match_here code_block_re (a2 ++ fence ++ rest) = None.
Proof.
  intros Hg a1 a2 -> Hne. apply contains_false_drop in Hg.
  apply contains_false_head in Hg.
  destruct a2 as [|c [|d [|e a]]]; [congruence|..].
  - destruct (N.eqb_spec c backquote) as [->|Hc].
    + now apply (code_block_needs_alnum (backquote :: rest)).
    + apply code_block_needs_fence. simpl.
      apply N.eqb_neq in Hc. now rewrite Hc.
  - destruct (N.eqb_spec c backquote) as [->|Hc];
      [destruct (N.eqb_spec d backquote) as [->|Hd]|].
    + now apply (code_block_needs_alnum (backquote :: backquote :: rest)).
    + apply code_block_needs_fence. simpl.
      apply N.eqb_neq in Hd. now rewrite Hd.
    + apply code_block_needs_fence. simpl.
      apply N.eqb_neq in Hc. now rewrite Hc.
  - apply code_block_needs_fence. exact Hg.
Qed.

Lemma code_block_absent (s : str) :
  contains fence s = false -> re_findall code_block_re s = [].
Proof.
  intros H. apply findall_none. intros a b ->.
  apply code_block_needs_fence, contains_false_head.
  now apply contains_false_drop in H.
Qed.

Lemma render_block_cons (b : code_block) :
  exists t, render_block b = backquote :: backquote :: backquote :: t.
Proof. unfold render_block. eexists. reflexivity. Qed.

Lemma findall_render_blocks (l : list (code_block * str)) :
  forall g,
    fence_free g = true ->
    forallb (fun bg => block_ok (fst bg) && fence_free (snd bg)) l = true ->
    re_findall code_block_re (g ++ render_blocks l)
    = map (fun bg => [block_path (fst bg); body (fst bg)]) l.
Proof.
  induction l as [|[b gap] l IH]; intros g Hg Hl.
  - simpl. rewrite app_nil_r. apply code_block_absent.
    now apply negb_true_iff in Hg.
  - simpl in Hl. apply andb_true_iff in Hl as [Hb Hl].
    apply andb_true_iff in Hb as [Hb Hgap].
    cbn [render_blocks map fst snd].
    destruct (render_block_cons b) as [t Ht].
    rewrite findall_no_match.
    + rewrite (findall_match code_block_re (render_block b)
                 (gap ++ render_blocks l) [block_path b; body b]);
        [|rewrite Ht; discriminate|now apply match_block].
      f_equal. now apply IH.
    + intros a1 a2 E Hne. rewrite Ht.
      change ((backquote :: backquote :: backquote :: t) ++ ?x)
        with (fence ++ (t ++ x)).
      apply (no_match_in_gap g _ (proj1 (negb_true_iff _) Hg) a1 a2 E Hne).
Qed.

Lemma findall_render (d : document) :
  shaped d = true ->
  map as_pair (re_findall code_block_re (render d)) = records_of d.
Proof.
  unfold shaped, render, records_of. intros H.
  apply andb_true_iff in H as [Hlead Hblocks].
  rewrite findall_render_blocks by assumption.
  rewrite map_map. reflexivity.
Qed.


Lemma check_file_names_blank (results : list (str * str)) :
  existsb (fun r => blank (fst r)) results = true ->
  check_file_names results = SysExit 1.
Proof.
  induction results as [|[file code] results IH]; simpl; [discriminate|].
  rewrite strip_blank. unfold blank at 1.
  destruct (forallb is_space file); simpl; auto.
Qed.

Lemma extract_of_findall (content : str) :
  extract_files_from_markdown content =
  match check_file_names (map as_pair (re_findall code_block_re content)) with
  | Return _ => Return (map as_pair (re_findall code_block_re content))
  | SysExit code => SysExit code
  | Raise e => Raise e
  end.
Proof. reflexivity. Qed.

(** What a match of the pattern looks like. *)
Lemma code_block_match_shape (s rest : str) (caps : list str) :
  match_here code_block_re s = Some (rest, caps) ->
  exists t ws p c,
    s = fence ++ t ++ ws ++ file_attr ++ p ++ [dquote; newline] ++ c
        ++ fence ++ rest
    /\ t <> [] /\ forallb is_alnum t = true
    /\ ws <> [] /\ forallb is_space ws = true
    /\ forallb not_dquote p = true.
Proof.
  intros H. apply match_here_sound in H as (w & -> & Hw).
  unfold code_block_re in Hw. cbn [cat lang] in Hw.
  destruct Hw as (w1 & x1 & -> & Hw1 & t & x2 & -> & [Ht Hlent]
                  & ws & x3 & -> & [Hws Hlenws] & w4 & x4 & -> & Hw4
                  & p & x5 & -> & [Hp _] & w6 & x6 & -> & ->
                  & w7 & x7 & -> & -> & c & x8 & -> & _
                  & w9 & x9 & -> & Hw9 & ->).
  apply lang_lits in Hw1, Hw4, Hw9. subst w1 w4 w9.
  exists t, ws, p, c. repeat rewrite <- app_assoc. repeat split; auto.
  - destruct t; simpl in *; [lia|discriminate].
  - destruct ws; simpl in *; [lia|discriminate].
Qed.

Lemma code_block_needs_file_attr (s : str) :
  contains file_attr s = false -> re_findall code_block_re s = [].
Proof.
  intros H. apply findall_none. intros a b ->.
  apply contains_false_drop in H.
  destruct (match_here code_block_re b) as [[rest caps]|] eqn:E;
    [exfalso|reflexivity].
  apply code_block_match_shape in E as (t & ws & p & c & -> & _).
  rewrite (app_assoc fence), (app_assoc (fence ++ t)) in H.
  now rewrite contains_app_intro in H.
Qed.


(** C4: when one matched block has an empty or blank path the extraction
    exits with status 1 and returns no record, whatever the other blocks
    are; so it is for a text of well-shaped blocks one of which has such a
    path. *)
Theorem extract_blank_path :
  (forall content file code,
      In (file, code) (map as_pair (re_findall code_block_re content)) ->
      blank file = true ->
      extract_files_from_markdown content = SysExit 1)
  /\ (forall d,
         shaped d = true ->
         existsb (fun r => blank (fst r)) (records_of d) = true ->
         extract_files_from_markdown (render d) = SysExit 1).
Proof.
  split.
  - intros content file code Hin Hblank.
    rewrite extract_of_findall, check_file_names_blank; [reflexivity|].
    apply existsb_exists. exists (file, code). auto.
  - intros d Hshaped Hblank.
    rewrite extract_of_findall, (findall_render d Hshaped).
    now rewrite check_file_names_blank.
Qed.

(** No match starts at a fence whose language tag and white space are not
    followed by the file attribute: [t] is the run of letters and digits
    after the fence, [ws] the run of white space after it. *)
Lemma fence_without_file_attr (t ws x : str) :
  forallb is_alnum t = true -> forallb is_space ws = true ->
  stops is_alnum (ws ++ x) = true -> stops is_space x = true ->
  startswith x file_attr = false ->
  match_here code_block_re (fence ++ t ++ ws ++ x) = None.
Proof.
  intros Ht Hws Hstop1 Hstop2 Hx.
  unfold match_here, code_block_re. cbn [cat exec].
  rewrite exec_lits_app.
  apply rep_greedy_none; [exact Ht|exact Hstop1|].
  intros t1 t2 ->. cbv beta.
  rewrite forallb_app in Ht. apply andb_true_iff in Ht as [_ Ht2].
  destruct t2 as [|c t2].
  - rewrite app_nil_l.
    apply rep_greedy_none; [exact Hws|exact Hstop2|].
    intros w1 w2 ->. cbv beta. rewrite exec_lits.
    rewrite forallb_app in Hws. apply andb_true_iff in Hws as [_ Hw2].
    destruct w2 as [|d w2]; [now rewrite app_nil_l, Hx|].
    simpl in Hw2. apply andb_true_iff in Hw2 as [Hd _].
    simpl. now rewrite (space_not d 102 Hd).
  - apply rep_greedy_stop. simpl in *.
    apply andb_true_iff in Ht2 as [Hc _].
    destruct (is_space c) eqn:E; [|reflexivity].
    now rewrite (space_not_alnum c E) in Hc.
Qed.

(** C8, as stated, fails: the white space between the language tag and
    the file attribute may be a line end.  A fence with its tag alone on
    its line is matched when its content starts with a line that reads as a
    file attribute, with the path of that line; when that path is empty the
    script exits with status 1. *)
Lemma fence_line_without_attr_matched :
  render_block toml_block
  = lit "```toml" ++ [newline] ++ file_attr ++ lit "config.toml"
    ++ [dquote; newline] ++ lit "other=1" ++ [newline] ++ lit "```"
  /\ contains (lit "file=") (lit "```toml") = false
  /\ extract_files_from_markdown (render_block toml_block)
     = Return [(lit "config.toml", lit "other=1" ++ [newline])]
  /\ extract_files_from_markdown (render_block toml_blank_block)
     = SysExit 1.
Proof. repeat split; vm_compute; reflexivity. Qed.

(** C8, amended: a text in which the pattern matches nowhere gives the
    empty list and no error; so does a text without fence, and a text in
    which no file attribute stands.  A fence whose language tag and the run
    of white space after it, line ends included, are not followed by the
    file attribute is no match. *)
Theorem extract_no_block :
  (forall content,
      re_findall code_block_re content = [] ->
      extract_files_from_markdown content = Return [])
  /\ (forall content,
         contains fence content = false ->
         extract_files_from_markdown content = Return [])
  /\ (forall content,
         contains file_attr content = false ->
         extract_files_from_markdown content = Return [])
  /\ (forall t ws x,
         forallb is_alnum t = true -> forallb is_space ws = true ->
         stops is_alnum (ws ++ x) = true -> stops is_space x = true ->
         startswith x file_attr = false ->
         match_here code_block_re (fence ++ t ++ ws ++ x) = None).
Proof.
  split; [|split; [|split]];
    [intros content H; rewrite extract_of_findall..|].
  - now rewrite H.
  - now rewrite code_block_absent.
  - now rewrite code_block_needs_file_attr.
  - exact fence_without_file_attr.
Qed.

(** C3, as stated, fails: a block whose language tag is c++ is not
    matched. *)
Lemma language_tag_cpp_not_matched :
  re_findall code_block_re (render_block cpp_block) = []
  /\ extract_files_from_markdown (render_block cpp_block) = Return [].
Proof. split; vm_compute; reflexivity. Qed.

(** A block is found after a text without fence: its path and body are the
    next match and the scan goes on after its closing fence. *)
Lemma findall_block (before : str) (b : code_block) (rest : str) :
  fence_free before = true -> block_ok b = true ->
  re_findall code_block_re (before ++ render_block b ++ rest)
  = [block_path b; body b] :: re_findall code_block_re rest.
Proof.
  intros Hbefore Hb.
  destruct (render_block_cons b) as [t Ht].
  rewrite findall_no_match.
  - apply findall_match; [rewrite Ht; discriminate|now apply match_block].
  - intros a1 a2 E Hne. rewrite Ht.
    change ((backquote :: backquote :: backquote :: t) ++ ?x)
      with (fence ++ (t ++ x)).
    apply (no_match_in_gap before _ (proj1 (negb_true_iff _) Hbefore)
             a1 a2 E Hne).
Qed.

(** No match starts at a fence whose language tag is empty or goes on with
    a character that is neither an ASCII letter or digit nor white space. *)
Lemma fence_with_other_tag (t : str) (c : char) (rest : str) :
  forallb is_alnum t = true -> is_alnum c = false ->
  t = [] \/ is_space c = false ->
  match_here code_block_re (fence ++ t ++ c :: rest) = None.
Proof.
  intros Ht Hc [->|Hsp].
  - apply code_block_needs_alnum. simpl. now rewrite Hc.
  - apply (fence_without_file_attr t [] (c :: rest)); auto.
    + simpl. now rewrite Hc.
    + simpl. now rewrite Hsp.
    + simpl. destruct (N.eqb_spec c 102) as [->|]; [discriminate|reflexivity].
Qed.

(** C3, amended: a block whose language tag is a non-empty run of ASCII
    letters and digits, followed by white space, the file attribute and a
    newline, is matched wherever it stands after a text without fence, with
    its path and body; a fence whose tag is empty or has another character
    is no match. *)
Theorem language_tag_alnum_matched :
  (forall (before : str) (b : code_block) (rest : str),
      fence_free before = true -> block_ok b = true ->
      re_findall code_block_re (before ++ render_block b ++ rest)
      = [block_path b; body b] :: re_findall code_block_re rest)
  /\ (forall (t : str) (c : char) (rest : str),
         forallb is_alnum t = true -> is_alnum c = false ->
         t = [] \/ is_space c = false ->
         match_here code_block_re (fence ++ t ++ c :: rest) = None).
Proof. split; [exact findall_block|exact fence_with_other_tag]. Qed.

(** ** The formatter *)

Lemma no_fence_cons (c : char) (s : str) :
  (c =? backquote) = false -> contains fence s = false ->
  contains fence (c :: s) = false.
Proof. intros Hc Hs. simpl. now rewrite Hc, Hs. Qed.

Lemma no_fence_sep (a : str) (c : char) (b : str) :
  (c =? backquote) = false ->
  contains fence a = false -> contains fence b = false ->
  contains fence (a ++ c :: b) = false.
Proof.
  intros Hc Ha Hb.
  apply contains_app_sep; [|discriminate|exact Ha|exact Hb].
  apply N.eqb_neq in Hc. unfold fence. simpl. intuition congruence.
Qed.

Lemma no_fence_drop (n : nat) (s : str) :
  contains fence s = false -> contains fence (drop n s) = false.
Proof.
  intros H. rewrite <- (take_drop n s) in H.
  now apply contains_false_drop in H.
Qed.

Lemma file_type_no_fence (p : str) :
  contains fence p = false -> contains fence (file_type_of p) = false.
Proof.
  intros H. unfold file_type_of.
  destruct (bool_decide _); [reflexivity|].
  apply no_fence_drop. unfold splitext.
  destruct (_ && _); simpl; [now apply no_fence_drop|reflexivity].
Qed.

Lemma format_file_no_fence (file : file_record) (rest : str) :
  record_fence_free file = true -> contains fence rest = false ->
  contains fence (format_file file ++ rest) = false.
Proof.
  unfold record_fence_free, fence_free. intros H Hrest.
  apply andb_true_iff in H as [Hp Hc]. apply negb_true_iff in Hp, Hc.
  unfold format_file. repeat rewrite <- app_assoc.
  apply no_fence_sep; [reflexivity|now apply file_type_no_fence|].
  repeat (apply no_fence_cons; [reflexivity|]).
  apply no_fence_sep; [reflexivity|exact Hp|].
  repeat (apply no_fence_cons; [reflexivity|]).
  apply no_fence_sep; [reflexivity|exact Hc|].
  repeat (apply no_fence_cons; [reflexivity|]).
  exact Hrest.
Qed.

Lemma create_markdown_concat (files : list file_record) :
  create_markdown files
  = (lit "<ReactProject>" ++ [newline; newline])
    ++ concat (map format_file files) ++ lit "</ReactProject>" ++ [newline].
Proof.
  unfold create_markdown.
  generalize (lit "<ReactProject>" ++ [newline; newline]).
  generalize (lit "</ReactProject>" ++ [newline]).
  intros footer acc. revert acc.
  induction files as [|file files IH]; intros acc;
    cbn [fold_left map concat].
  - reflexivity.
  - rewrite IH. now repeat rewrite <- app_assoc.
Qed.

Lemma create_markdown_no_fence (files : list file_record) :
  forallb record_fence_free files = true ->
  contains fence (create_markdown files) = false.
Proof.
  intros H. rewrite create_markdown_concat.
  change ((lit "<ReactProject>" ++ [newline; newline]) ++ ?x)
    with (lit "<ReactProject>" ++ newline :: newline :: x).
  apply no_fence_sep; [reflexivity|reflexivity|].
  apply no_fence_cons; [reflexivity|].
  induction files as [|file files IH]; cbn [map concat].
  - reflexivity.
  - cbn [forallb] in H. apply andb_true_iff in H as [Hf Hfs].
    rewrite <- app_assoc. apply format_file_no_fence; auto.
Qed.

(** C1, as stated, fails: the markdown made for one record without fence
    has no block that the extractor matches, so the record does not come
    back. *)
Lemma round_trip_fails :
  forallb record_fence_free [a_ts] = true
  /\ extract_files_from_markdown (create_markdown [a_ts]) = Return []
  /\ extract_files_from_markdown (create_markdown [a_ts])
     <> Return (map pair_of [a_ts]).
Proof. repeat split; vm_compute; [reflexivity..|discriminate]. Qed.

(** C1, amended: the formatter writes no fence, so for records whose paths
    and contents have no fence the extractor finds no block in the markdown
    it makes and returns the empty list; the records come back only when
    there is none. *)
Theorem extract_of_create_markdown (files : list file_record) :
  forallb record_fence_free files = true ->
  extract_files_from_markdown (create_markdown files) = Return []
  /\ (extract_files_from_markdown (create_markdown files)
      = Return (map pair_of files) <-> files = []).
Proof.
  intros H.
  assert (E : extract_files_from_markdown (create_markdown files) = Return []).
  { rewrite extract_of_findall.
    now rewrite code_block_absent by now apply create_markdown_no_fence. }
  split; [exact E|]. rewrite E. split.
  - destruct files; [reflexivity|discriminate].
  - intros ->. reflexivity.
Qed.

(** ** Dependencies *)

Lemma add_dependency_eq (dependencies : gset str) (dep : str) :
  add_dependency dependencies dep
  = if skipped dep then dependencies
    else dependencies ∪ {[ package_name dep ]}.
Proof.
  unfold add_dependency, skipped, package_name.
  destruct (bool_decide (dep ∈ ignore_dependencies)); [reflexivity|].
  destruct (existsb _ _); [reflexivity|].
  destruct (startswith dep (lit "./")); [reflexivity|].
  destruct (startswith dep (lit "@/")); [reflexivity|].
  simpl. destruct (contains [slash] dep); reflexivity.
Qed.

(** Iterating over the string next/ gives one-character prefixes: the test
    on the blacklist looks at the first character of the specifier only. *)
Lemma blacklisted_first_char (dep : str) :
  existsb (fun prefix => startswith dep prefix) (iter_str blacklist_prefixes)
  = match dep with
    | [] => false
    | c :: _ => (c =? chr "n") || (c =? chr "e") || (c =? chr "x")
                || (c =? chr "t") || (c =? chr "/")
    end.
Proof.
  destruct dep as [|c dep]; [reflexivity|].
  cbn. now rewrite !andb_true_r, orb_false_r, !orb_assoc.
Qed.

Lemma fold_add_dependency (deps : list str) :
  forall (dependencies : gset str) (x : str),
    x ∈ fold_left add_dependency deps dependencies
    <-> x ∈ dependencies
        \/ exists dep, In dep deps /\ skipped dep = false
                       /\ x = package_name dep.
Proof.
  induction deps as [|dep deps IH]; intros D x; simpl.
  - split; [auto|]. intros [H|(dep & [] & _)]. exact H.
  - rewrite IH, add_dependency_eq.
    destruct (skipped dep) eqn:E.
    + split.
      * intros [H|(d & Hin & Hd)]; [auto|right; exists d; auto].
      * intros [H|(d & [->|Hin] & Hs & Hd)]; [auto|congruence|].
        right; exists d; auto.
    + rewrite elem_of_union, elem_of_singleton. split.
      * intros [[H| ->]|(d & Hin & Hd)]; [auto|right; exists dep; auto|].
        right; exists d; auto.
      * intros [H|(d & [->|Hin] & Hs & Hd)]; [auto|auto|].
        right; exists d; auto.
Qed.

(** The set the loops build: the names of the specifiers that are not
    passed over. *)
Lemma collect_dependencies_elem (files : list (str * str)) (x : str) :
  x ∈ collect_dependencies files
  <-> exists file dep,
        In file files /\ In dep (import_specifiers (snd file))
        /\ skipped dep = false /\ x = package_name dep.
Proof.
  unfold collect_dependencies.
  assert (H : forall D : gset str,
             x ∈ fold_left
                   (fun dependencies file =>
                      fold_left add_dependency
                                (import_specifiers (snd file)) dependencies)
                   files D
             <-> x ∈ D
                 \/ exists file dep,
                     In file files /\ In dep (import_specifiers (snd file))
                     /\ skipped dep = false /\ x = package_name dep).
  { induction files as [|file files IH]; intros D; simpl.
    - split; [auto|]. intros [H|(f & d & [] & _)]. exact H.
    - rewrite IH, fold_add_dependency. split.
      + intros [[H|(d & Hin & Hd)]|(f & d & Hf & Hd)]; [auto| |].
        * right. exists file, d. auto.
        * right. exists f, d. auto.
      + intros [H|(f & d & [->|Hf] & Hin & Hd)]; [auto| |].
        * left. right. exists d. auto.
        * right. exists f, d. auto. }
  rewrite H. split; [|auto]. intros [Hx|Hx]; [|exact Hx].
  now apply not_elem_of_empty in Hx.
Qed.

(** The name of a specifier starts with the character the specifier starts
    with. *)
Lemma package_name_head (dep : str) :
  head (package_name dep) = head dep.
Proof.
  destruct dep as [|c dep]; [reflexivity|].
  unfold package_name. destruct (contains [slash] (c :: dep)); [|reflexivity].
  cbn [split]. destruct (N.eqb_spec c slash) as [->|Hc]; [reflexivity|].
  destruct (split slash dep); reflexivity.
Qed.

Lemma skipped_next (dep : str) :
  head dep = Some (chr "n") -> skipped dep = true.
Proof.
  destruct dep as [|c dep]; [discriminate|]. intros [= ->].
  unfold skipped. rewrite blacklisted_first_char. reflexivity.
Qed.

(** C6: the specifiers ./components/x and @/lib/y add nothing to the set,
    zod enters it as zod, @radix-ui/react-toast/sub enters it as
    @radix-ui/react-toast, a specifier that starts with next/ adds nothing,
    and no name of the inferred set starts with next/. *)
Theorem dependency_inference_examples :
  (forall D, add_dependency D (lit "./components/x") = D)
  /\ (forall D, add_dependency D (lit "@/lib/y") = D)
  /\ (forall D, add_dependency D (lit "zod") = D ∪ {[ lit "zod" ]})
  /\ (forall D, add_dependency D (lit "@radix-ui/react-toast/sub")
                = D ∪ {[ lit "@radix-ui/react-toast" ]})
  /\ (forall D rest, add_dependency D (lit "next/" ++ rest) = D)
  /\ (forall files x,
         x ∈ collect_dependencies files -> startswith x (lit "next/") = false)
  /\ import_specifiers imports_code
     = [lit "./components/x"; lit "@/lib/y"; lit "zod";
        lit "@radix-ui/react-toast/sub"; lit "next/link"]
  /\ collect_dependencies [(lit "app/page.tsx", imports_code)]
     = {[ lit "zod" ]} ∪ {[ lit "@radix-ui/react-toast" ]}.
Proof.
  split; [|split; [|split; [|split; [|split; [|split; [|split]]]]]].
  - intros D. now rewrite add_dependency_eq.
  - intros D. now rewrite add_dependency_eq.
  - intros D. now rewrite add_dependency_eq.
  - intros D. now rewrite add_dependency_eq.
  - intros D rest. rewrite add_dependency_eq.
    now rewrite skipped_next.
  - intros files x Hx.
    apply collect_dependencies_elem in Hx as (file & dep & _ & _ & Hs & ->).
    destruct (startswith (package_name dep) (lit "next/")) eqn:E;
      [|reflexivity].
    apply startswith_split in E.
    rewrite skipped_next in Hs; [discriminate|].
    rewrite <- package_name_head, E. reflexivity.
  - vm_compute. reflexivity.
  - vm_compute. reflexivity.
Qed.

(** C2 fails on the code: the specifier express is not in the ignore list
    and starts with none of next/, ./ and @/, yet it is left out, because
    the blacklist test compares the first character e with the characters
    of next/. *)
Theorem express_is_left_out :
  import_specifiers express_code = [lit "express"]
  /\ bool_decide (lit "express" ∈ ignore_dependencies) = false
  /\ startswith (lit "express") (lit "next/") = false
  /\ startswith (lit "express") (lit "./") = false
  /\ startswith (lit "express") (lit "@/") = false
  /\ skipped (lit "express") = true
  /\ collect_dependencies [(lit "server.ts", express_code)] = ∅
  /\ (forall lock,
         install_third_party_dependencies lock [(lit "server.ts", express_code)]
         = NoInstall).
Proof.
  split; [|split; [|split; [|split; [|split; [|split; [|split]]]]]];
    vm_compute; reflexivity.
Qed.

(** ** Repository URLs *)

Example path_parts_flash_cards :
  path_parts_of urlparse_path_model flash_cards_url
  = Return [lit "ameerhmzx"; lit "language-flash-cards"].
Proof. vm_compute. reflexivity. Qed.

Example parse_flash_cards :
  parse_github_url_model flash_cards_url
  = Return {| owner := lit "ameerhmzx"; repo := lit "language-flash-cards";
              branch := lit "main"; path := [] |}.
Proof. vm_compute. reflexivity. Qed.

Example parse_flash_cards_tree :
  parse_github_url_model flash_cards_tree_url
  = Return {| owner := lit "ameerhmzx"; repo := lit "language-flash-cards";
              branch := lit "dev"; path := lit "src/app" |}.
Proof. vm_compute. reflexivity. Qed.

Example parse_owner_only :
  parse_github_url_model (lit "https://github.com/ameerhmzx")
  = Raise "ValueError".
Proof. vm_compute. reflexivity. Qed.

(** C10: when the path of the URL has the two segments owner and repo only,
    the branch is main and the subpath is empty; when the segment tree and
    a branch follow owner and repo, the branch is that one and the subpath
    is the remaining segments joined by slashes. *)
Theorem parse_github_url_branch
    (urlparse_path : str -> outcome str) (url o r : str) :
  (path_parts_of urlparse_path url = Return [o; r] ->
   parse_github_url urlparse_path url
   = Return {| owner := o; repo := r; branch := lit "main"; path := [] |})
  /\ (forall b rest,
         path_parts_of urlparse_path url
         = Return (o :: r :: lit "tree" :: b :: rest) ->
         parse_github_url urlparse_path url
         = Return {| owner := o; repo := r; branch := b;
                     path := join [slash] rest |}).
Proof.
  split.
  - intros H. unfold parse_github_url. rewrite H. reflexivity.
  - intros b rest H. unfold parse_github_url. rewrite H.
    cbn [length Nat.ltb Nat.leb nth andb].
    rewrite bool_decide_eq_true_2 by reflexivity.
    destruct rest; reflexivity.
Qed.

(** *** URLs of github.com, through the model of urlparse *)

Lemma segment_char_path (c : char) : segment_char c = true -> path_char c = true.
Proof.
  unfold segment_char, path_char. repeat rewrite andb_true_iff. tauto.
Qed.

Lemma segment_char_no_slash (c : char) :
  segment_char c = true -> is_slash c = false.
Proof.
  unfold segment_char, differs, is_slash. repeat rewrite andb_true_iff.
  intros [[[[_ H] _] _] _]. now apply negb_true_iff in H.
Qed.

Lemma split_no_sep (sep : char) (a : str) :
  forallb (differs sep) a = true -> split sep a = [a].
Proof.
  induction a as [|c a IH]; simpl; [reflexivity|].
  intros H. apply andb_true_iff in H as [Hc Ha].
  unfold differs in Hc. apply negb_true_iff in Hc.
  now rewrite Hc, (IH Ha).
Qed.

Lemma split_app_sep (sep : char) (a b : str) :
  forallb (differs sep) a = true ->
  split sep (a ++ sep :: b) = a :: split sep b.
Proof.
  induction a as [|c a IH]; simpl.
  - intros _. now rewrite N.eqb_refl.
  - intros H. apply andb_true_iff in H as [Hc Ha].
    unfold differs in Hc. apply negb_true_iff in Hc.
    now rewrite Hc, (IH Ha).
Qed.

Lemma segment_no_slash (a : str) :
  segment a = true -> forallb (differs slash) a = true.
Proof.
  unfold segment. intros H. apply andb_true_iff in H as [_ H].
  induction a as [|c a IH]; simpl in *; [reflexivity|].
  apply andb_true_iff in H as [Hc Ha]. rewrite (IH Ha), andb_true_r.
  unfold segment_char in Hc. repeat rewrite andb_true_iff in Hc. tauto.
Qed.

Lemma split_join (segments : list str) :
  segments <> [] -> forallb segment segments = true ->
  split slash (join [slash] segments) = segments.
Proof.
  induction segments as [|a [|b rest] IH]; intros Hne H; [congruence|..].
  - simpl in *. rewrite andb_true_r in H.
    now apply split_no_sep, segment_no_slash.
  - cbn [forallb] in H. apply andb_true_iff in H as [Ha Hrest].
    change (join [slash] (a :: b :: rest))
      with (a ++ slash :: join [slash] (b :: rest)).
    rewrite split_app_sep by now apply segment_no_slash.
    f_equal. apply IH; [discriminate|exact Hrest].
Qed.

Lemma join_path_chars (segments : list str) :
  forallb segment segments = true ->
  forallb path_char (join [slash] segments) = true.
Proof.
  assert (Hseg : forall a, segment a = true -> forallb path_char a = true).
  { unfold segment. intros a H. apply andb_true_iff in H as [_ H].
    induction a as [|c a IH]; simpl in *; [reflexivity|].
    apply andb_true_iff in H as [Hc Ha].
    now rewrite (segment_char_path c Hc), (IH Ha). }
  induction segments as [|a [|b rest] IH]; intros H; [reflexivity|..].
  - simpl in *. rewrite andb_true_r in H. auto.
  - cbn [forallb] in H. apply andb_true_iff in H as [Ha Hrest].
    change (join [slash] (a :: b :: rest))
      with (a ++ slash :: join [slash] (b :: rest)).
    rewrite forallb_app. cbn [forallb].
    rewrite (Hseg a Ha), (IH Hrest). reflexivity.
Qed.

Lemma ends_in_segment_app (a b : str) :
  ends_in_segment b = true -> ends_in_segment (a ++ b) = true.
Proof.
  unfold ends_in_segment. rewrite rev_app_distr.
  destruct (rev b); [discriminate|auto].
Qed.

Lemma segment_ends (a : str) : segment a = true -> ends_in_segment a = true.
Proof.
  unfold segment, ends_in_segment. intros H.
  apply andb_true_iff in H as [Hne H]. rewrite <- forallb_rev in H.
  destruct (rev a) as [|y t] eqn:E.
  - apply (f_equal (@rev char)) in E. rewrite rev_involutive in E.
    subst a. discriminate.
  - simpl in H. now apply andb_true_iff in H as [H _].
Qed.

Lemma join_ends (segments : list str) :
  segments <> [] -> forallb segment segments = true ->
  ends_in_segment (join [slash] segments) = true.
Proof.
  induction segments as [|a [|b rest] IH]; intros Hne H; [congruence|..].
  - simpl in *. rewrite andb_true_r in H. now apply segment_ends.
  - cbn [forallb] in H. apply andb_true_iff in H as [Ha Hrest].
    change (join [slash] (a :: b :: rest))
      with (a ++ slash :: join [slash] (b :: rest)).
    apply ends_in_segment_app.
    apply (ends_in_segment_app [slash]).
    apply IH; [discriminate|exact Hrest].
Qed.

Lemma rstrip_slash_id (s : str) :
  ends_in_segment s = true -> rstrip_by is_slash s = s.
Proof.
  unfold ends_in_segment, rstrip_by. intros H.
  destruct (rev s) as [|y t] eqn:E; [discriminate|].
  simpl. rewrite (segment_char_no_slash y H).
  rewrite <- E. apply rev_involutive.
Qed.

Lemma join_head (segments : list str) :
  segments <> [] -> forallb segment segments = true ->
  exists x t, join [slash] segments = x :: t /\ segment_char x = true.
Proof.
  destruct segments as [|a rest]; [congruence|]. intros _ H.
  cbn [forallb] in H. apply andb_true_iff in H as [Ha _].
  unfold segment in Ha. apply andb_true_iff in Ha as [Hne Ha].
  destruct a as [|x a]; [discriminate|].
  simpl in Ha. apply andb_true_iff in Ha as [Hx _].
  destruct rest; simpl; eauto.
Qed.

Lemma find_char_absent (c : char) (s : str) :
  forallb (differs c) s = true -> UrlModel.find_char c s = None.
Proof.
  induction s as [|x s IH]; simpl; [reflexivity|].
  intros H. apply andb_true_iff in H as [Hx Hs].
  unfold differs in Hx. apply negb_true_iff in Hx.
  now rewrite Hx, (IH Hs).
Qed.

Lemma contains_char_absent (c : char) (s : str) :
  forallb (differs c) s = true -> contains [c] s = false.
Proof.
  induction s as [|x s IH]; simpl; [reflexivity|].
  intros H. apply andb_true_iff in H as [Hx Hs].
  unfold differs in Hx. apply negb_true_iff in Hx.
  now rewrite Hx, (IH Hs).
Qed.

Lemma forallb_weaken (p q : char -> bool) (s : str) :
  (forall c, p c = true -> q c = true) ->
  forallb p s = true -> forallb q s = true.
Proof.
  intros Hpq. induction s as [|c s IH]; simpl; [reflexivity|].
  intros H. apply andb_true_iff in H as [Hc Hs].
  now rewrite (Hpq c Hc), (IH Hs).
Qed.

Lemma filter_all (p : char -> bool) (s : str) :
  forallb p s = true -> List.filter p s = s.
Proof.
  induction s as [|c s IH]; simpl; [reflexivity|].
  intros H. apply andb_true_iff in H as [Hc Hs].
  now rewrite Hc, (IH Hs).
Qed.

Lemma path_char_safe (c : char) :
  path_char c = true -> negb (UrlModel.unsafe_char c) = true.
Proof.
  unfold path_char, UrlModel.unsafe_char. repeat rewrite andb_true_iff.
  intros [[[H _] _] _]. apply N.ltb_lt in H.
  apply negb_true_iff. repeat rewrite orb_false_iff.
  repeat split; apply N.eqb_neq; lia.
Qed.

(** The path that the model gives for a URL of github.com. *)
Lemma urlparse_path_github (bracketed_netloc_ok nfkc_netloc_ok : str -> bool)
    (p : str) :
  forallb path_char p = true ->
  UrlModel.urlparse_path bracketed_netloc_ok nfkc_netloc_ok
    (github_prefix ++ p) = Return (slash :: p).
Proof.
  intros Hp. unfold UrlModel.urlparse_path.
  change (lstrip_by UrlModel.c0_control_or_space (github_prefix ++ p))
    with (github_prefix ++ p).
  rewrite filter_all.
  2:{ rewrite forallb_app.
      rewrite (forallb_weaken path_char _ p path_char_safe Hp).
      reflexivity. }
  change (UrlModel.split_scheme (github_prefix ++ p))
    with (lit "https", lit "//github.com" ++ slash :: p).
  cbv iota beta.
  change (UrlModel.split_netloc (lit "//github.com" ++ slash :: p))
    with (lit "github.com", slash :: p).
  cbv iota beta.
  change (contains [UrlModel.left_bracket] (lit "github.com")) with false.
  change (contains [UrlModel.right_bracket] (lit "github.com")) with false.
  change (UrlModel.isascii (lit "github.com")) with true.
  cbv iota beta zeta. cbn [andb orb negb].
  assert (Hh : forallb (differs UrlModel.hash) (slash :: p) = true).
  { simpl. apply (forallb_weaken path_char); [|exact Hp].
    unfold path_char. intros c. repeat rewrite andb_true_iff. tauto. }
  assert (Hq : forallb (differs UrlModel.question) (slash :: p) = true).
  { simpl. apply (forallb_weaken path_char); [|exact Hp].
    unfold path_char. intros c. repeat rewrite andb_true_iff. tauto. }
  assert (Hs : forallb (differs UrlModel.semicolon) (slash :: p) = true).
  { simpl. apply (forallb_weaken path_char); [|exact Hp].
    unfold path_char. intros c. repeat rewrite andb_true_iff. tauto. }
  unfold UrlModel.before_char.
  rewrite (find_char_absent _ _ Hh), (find_char_absent _ _ Hq).
  rewrite (contains_char_absent _ _ Hs), andb_false_r. reflexivity.
Qed.

(** The segments that [parse_github_url] works on, for a URL of github.com
    made of segments. *)
Lemma path_parts_github_url (bracketed_netloc_ok nfkc_netloc_ok : str -> bool)
    (segments : list str) :
  segments <> [] -> forallb segment segments = true ->
  path_parts_of (UrlModel.urlparse_path bracketed_netloc_ok nfkc_netloc_ok)
    (github_url segments)
  = Return segments.
Proof.
  intros Hne Hseg. unfold path_parts_of, github_url.
  rewrite rstrip_slash_id by now apply ends_in_segment_app, join_ends.
  rewrite urlparse_path_github by now apply join_path_chars.
  unfold strip_by.
  destruct (join_head segments Hne Hseg) as (x & t & E & Hx).
  replace (lstrip_by is_slash (slash :: join [slash] segments))
    with (join [slash] segments).
  - rewrite rstrip_slash_id by now apply join_ends.
    now rewrite split_join.
  - rewrite E. simpl. now rewrite (segment_char_no_slash x Hx).
Qed.

(** For a URL of github.com with the segments owner and repo only the
    branch is main and the subpath empty; with tree and a branch after them
    the branch is that one and the subpath the segments that follow. *)
Lemma parse_github_url_of_segments
    (bracketed_netloc_ok nfkc_netloc_ok : str -> bool)
    (o r b : str) (rest : list str) :
  segment o = true -> segment r = true -> segment b = true ->
  forallb segment rest = true ->
  let urlparse_path :=
    UrlModel.urlparse_path bracketed_netloc_ok nfkc_netloc_ok in
  parse_github_url urlparse_path (github_url [o; r])
  = Return {| owner := o; repo := r; branch := lit "main"; path := [] |}
  /\ parse_github_url urlparse_path
       (github_url (o :: r :: lit "tree" :: b :: rest))
     = Return {| owner := o; repo := r; branch := b;
                 path := join [slash] rest |}.
Proof.
  intros Ho Hr Hb Hrest. cbv zeta. unfold parse_github_url.
  split.
  - rewrite path_parts_github_url; [reflexivity|discriminate|].
    simpl. now rewrite Ho, Hr.
  - rewrite path_parts_github_url; [|discriminate|].
    + cbn [length Nat.ltb Nat.leb nth andb].
      rewrite bool_decide_eq_true_2 by reflexivity.
      destruct rest; reflexivity.
    + cbn [forallb]. now rewrite Ho, Hr, Hb, Hrest.
Qed.

(** ** The statements at concrete inputs *)

Lemma extract_of_create_markdown_witness :
  forallb record_fence_free [a_ts; readme] = true
  /\ extract_files_from_markdown (create_markdown [a_ts; readme]) = Return [].
Proof.
  split; [reflexivity|].
  apply (proj1 (extract_of_create_markdown [a_ts; readme] eq_refl)).
Defined.

Lemma language_tag_alnum_matched_witness :
  re_findall code_block_re
    (lit "See `a.ts`: " ++ render_block ts_block ++ lit " done")
  = [lit "a.ts"; lit "import z from 'zod'"]
    :: re_findall code_block_re (lit " done")
  /\ match_here code_block_re
       (fence ++ lit "c" ++ chr "+" :: lit "+ file=x") = None.
Proof.
  split.
  - apply (proj1 language_tag_alnum_matched (lit "See `a.ts`: ") ts_block
             (lit " done")); reflexivity.
  - apply (proj2 language_tag_alnum_matched (lit "c") (chr "+")
             (lit "+ file=x")); [reflexivity|reflexivity|].
    right. reflexivity.
Defined.

Lemma extract_blank_path_witness :
  extract_files_from_markdown
    (render_block ts_block ++ render_block blank_block) = SysExit 1
  /\ extract_files_from_markdown (render with_blank_block) = SysExit 1.
Proof.
  split.
  - apply (proj1 extract_blank_path
             (render_block ts_block ++ render_block blank_block)
             [32; 9] (lit "let y = 1")).
    + vm_compute. right. left. reflexivity.
    + reflexivity.
  - apply (proj2 extract_blank_path with_blank_block); reflexivity.
Defined.


Lemma has_wrapper_tag_id_attr (markdown : str) :
  has_wrapper_tag markdown -> contains id_attr markdown = true.
Proof.
  intros (pre & ws1 & v & ws2 & post & -> & _). unfold wrapper_tag.
  repeat rewrite <- app_assoc.
  rewrite (app_assoc wrapper_open), (app_assoc pre).
  apply contains_app_intro.
Qed.

Lemma extract_project_id_spec_witness :
  extract_project_id (create_markdown [a_ts]) = SysExit 1
  /\ extract_project_id (lit "# Title" ++ [newline] ++ demo_tag ++ lit "...")
     = Return (lit "demo")
  /\ extract_project_id
       (wrapper_tag [32; 32] (lit "shop") [newline]
        ++ wrapper_tag [32] (lit "blog") [])
     = Return (lit "shop").
Proof.
  split; [|split].
  - apply (proj1 extract_project_id_spec (create_markdown [a_ts])).
    intros H. apply has_wrapper_tag_id_attr in H.
    vm_compute in H. discriminate H.
  - apply (proj1 (proj2 extract_project_id_spec)
             (lit "# Title" ++ [newline]) (lit "...")).
    reflexivity.
  - apply (proj2 (proj2 extract_project_id_spec)
             [] [32; 32] (lit "shop") [newline]
             (wrapper_tag [32] (lit "blog") []));
      try reflexivity; discriminate.
Defined.

Lemma extract_no_block_witness :
  extract_files_from_markdown (lit "```js file=a.js```") = Return []
  /\ extract_files_from_markdown (lit "no code here, only `ticks`")
     = Return []
  /\ extract_files_from_markdown
       (lit "```js" ++ [newline] ++ lit "let x = 1" ++ [newline] ++ lit "```")
     = Return []
  /\ match_here code_block_re
       (fence ++ lit "js" ++ [newline]
        ++ (lit "let x = 1" ++ [newline] ++ fence)) = None.
Proof.
  split; [|split; [|split]].
  - apply (proj1 extract_no_block (lit "```js file=a.js```")). reflexivity.
  - apply (proj1 (proj2 extract_no_block)
             (lit "no code here, only `ticks`")). reflexivity.
  - apply (proj1 (proj2 (proj2 extract_no_block))
             (lit "```js" ++ [newline] ++ lit "let x = 1" ++ [newline]
              ++ lit "```")). reflexivity.
  - apply (proj2 (proj2 (proj2 extract_no_block))
             (lit "js") [newline] (lit "let x = 1" ++ [newline] ++ fence));
      reflexivity.
Defined.

Lemma extract_project_id_empty_id_witness :
  extract_project_id
    (lit "# Title" ++ [newline] ++ wrapper_tag [32] [] []
     ++ lit "</ReactProject>") = SysExit 1.
Proof.
  apply (proj2 (proj2 (proj2 (extract_project_id_empty_id
                                (lit "# Title" ++ [newline]) [32] []
                                (lit "</ReactProject>") eq_refl eq_refl))
                 eq_refl)).
  reflexivity.
Defined.

Lemma dependency_inference_examples_witness :
  startswith (lit "zod") (lit "next/") = false.
Proof.
  apply (proj1 (proj2 (proj2 (proj2 (proj2 (proj2
           dependency_inference_examples)))))
           [(lit "app/page.tsx", imports_code)] (lit "zod")).
  apply (bool_decide_unpack _). vm_compute. reflexivity.
Defined.

Lemma parse_github_url_branch_witness :
  parse_github_url urlparse_path_model flash_cards_url
  = Return {| owner := lit "ameerhmzx"; repo := lit "language-flash-cards";
              branch := lit "main"; path := [] |}
  /\ parse_github_url urlparse_path_model flash_cards_tree_url
     = Return {| owner := lit "ameerhmzx"; repo := lit "language-flash-cards";
                 branch := lit "dev"; path := lit "src/app" |}.
Proof.
  split.
  - apply (proj1 (parse_github_url_branch urlparse_path_model
                    flash_cards_url (lit "ameerhmzx")
                    (lit "language-flash-cards"))).
    vm_compute. reflexivity.
  - apply (proj2 (parse_github_url_branch urlparse_path_model
                    flash_cards_tree_url (lit "ameerhmzx")
                    (lit "language-flash-cards"))
             (lit "dev") [lit "src"; lit "app"]).
    vm_compute. reflexivity.
Defined.

(** A fence without file attribute is left out and the annotated block
    after it still comes out. *)
Example plain_fence_left_out :
  extract_files_from_markdown plain_then_annotated
  = Return [(lit "a.ts", lit "import z from 'zod'")].
Proof. vm_compute. reflexivity. Qed.

(** The scenario of the two blocks a.ts and b/c.ts: both records come out
    and the inferred set is zod alone, the second file having no import
    with a from clause. *)
Example scenario_two_blocks :
  extract_files_from_markdown (render two_blocks)
  = Return [(lit "a.ts", lit "import z from 'zod'");
            (lit "b/c.ts", lit "import './local'")]
  /\ collect_dependencies (records_of two_blocks) = {[ lit "zod" ]}.
Proof. split; vm_compute; reflexivity. Qed.

(** * Further properties *)

(** ** What a match captures *)

Lemma exec_sound_caps (r : regex) :
  forall s caps (k : cont) res,
    exec r s caps k = Some res ->
    exists w s' cs,
      s = w ++ s' /\ lang_caps r w cs /\ k s' (caps ++ cs) = Some res.
Proof.
  induction r as [|c|p|r1 IH1 r2 IH2|greedy min p|r IH];
    intros s caps k res H; simpl in H.
  - exists [], s, []. rewrite app_nil_r. repeat split; auto.
  - destruct s as [|c' s]; [discriminate|].
    destruct (N.eqb_spec c' c); [subst|discriminate].
    exists [c], s, []. rewrite app_nil_r. repeat split; auto.
  - destruct s as [|c' s]; [discriminate|].
    destruct (p c') eqn:Hc; [|discriminate].
    exists [c'], s, []. rewrite app_nil_r. simpl. eauto 10.
  - destruct (IH1 _ _ _ _ H) as (w1 & s1 & cs1 & -> & Hw1 & H1).
    destruct (IH2 _ _ _ _ H1) as (w2 & s2 & cs2 & -> & Hw2 & H2).
    exists (w1 ++ w2), s2, (cs1 ++ cs2).
    split; [now rewrite app_assoc|].
    split; [|now rewrite app_assoc].
    simpl. exists w1, w2, cs1, cs2. auto.
  - destruct greedy.
    + destruct (rep_greedy_sound _ _ _ _ _ H) as (w & s' & -> & ? & ? & ?).
      exists w, s', []. rewrite app_nil_r. simpl. auto.
    + destruct (rep_lazy_sound _ _ _ _ _ H) as (w & s' & -> & ? & ? & ?).
      exists w, s', []. rewrite app_nil_r. simpl. auto.
  - destruct (IH _ _ _ _ H) as (w & s' & cs & -> & Hw & Hk).
    rewrite take_matched in Hk.
    exists w, s', (cs ++ [w]). simpl.
    split; [reflexivity|]. split; [eauto|].
    now rewrite app_assoc.
Qed.

Lemma match_here_sound_caps (r : regex) (s rest : str) (caps : list str) :
  match_here r s = Some (rest, caps) ->
  exists w, s = w ++ rest /\ lang_caps r w caps.
Proof.
  intros H. apply exec_sound_caps in H as (w & s' & cs & -> & Hw & Hk).
  simpl in Hk. injection Hk as -> <-. eauto.
Qed.

Lemma lang_caps_lits (l w : str) (cs : list str) :
  lang_caps (lits l) w cs -> w = l /\ cs = [].
Proof.
  revert w cs; induction l as [|c l IH]; intros w cs; simpl; [auto|].
  intros (w1 & w2 & cs1 & cs2 & -> & -> & [-> ->] & H).
  apply IH in H as [-> ->]. auto.
Qed.

(** A lazy run stops at the first place where the rest of the pattern
    matches. *)
Lemma rep_lazy_sound_first (p : char -> bool) (s : str)
    (k : str -> option result) (res : result) :
  rep_lazy p 0 s k = Some res ->
  exists w s',
    s = w ++ s' /\ forallb p w = true /\ k s' = Some res
    /\ forall w1 w2, w = w1 ++ w2 -> w2 <> [] -> k (w2 ++ s') = None.
Proof.
  induction s as [|c s IH]; intros H.
  - simpl in H. destruct (k []) eqn:E; [|discriminate]. injection H as ->.
    exists [], []. split; [reflexivity|]. split; [reflexivity|].
    split; [exact E|].
    intros w1 w2 E' Hne. destruct w1, w2; try discriminate; congruence.
  - cbn [rep_lazy] in H. destruct (k (c :: s)) eqn:E.
    + injection H as ->. exists [], (c :: s).
      split; [reflexivity|]. split; [reflexivity|]. split; [exact E|].
      intros w1 w2 E' Hne. destruct w1, w2; try discriminate; congruence.
    + destruct (p c) eqn:Hc; [|discriminate]. cbn [Nat.pred] in H.
      destruct (IH H) as (w & s' & -> & Hw & Hk & Hfirst).
      exists (c :: w), s'. simpl. rewrite Hc, Hw.
      split; [reflexivity|]. split; [reflexivity|]. split; [exact Hk|].
      intros w1 w2 E' Hne. destruct w1 as [|x w1].
      * simpl in E'. subst w2. exact E.
      * injection E' as _ E'. exact (Hfirst w1 w2 E' Hne).
Qed.

Lemma body_ok_of_first_fence (b rest : str) :
  (forall w1 w2, b = w1 ++ w2 -> w2 <> [] ->
                 startswith (w2 ++ fence ++ rest) fence = false) ->
  body_ok b = true.
Proof.
  unfold body_ok. intros H. apply negb_true_iff.
  induction b as [|c b IH]; [reflexivity|].
  change ((c :: b) ++ [backquote; backquote])
    with (c :: (b ++ [backquote; backquote])).
  cbn [contains]. rewrite IH.
  - rewrite orb_false_r.
    destruct (startswith (c :: b ++ [backquote; backquote]) fence) eqn:E;
      [|reflexivity].
    apply (startswith_app_l _ (backquote :: rest)) in E.
    change ((c :: b ++ [backquote; backquote]) ++ backquote :: rest)
      with (c :: ((b ++ [backquote; backquote]) ++ backquote :: rest)) in E.
    rewrite <- app_assoc in E.
    rewrite <- (H [] (c :: b) eq_refl); [|discriminate].
    rewrite <- E. reflexivity.
  - intros w1 w2 -> Hne. now apply (H (c :: w1) w2).
Qed.

(** A match of the code-block pattern is an annotated block at the head of
    the text, well shaped, and the groups are its path and its body. *)
Lemma code_block_match_block (s rest : str) (caps : list str) :
  match_here code_block_re s = Some (rest, caps) ->
  exists b : code_block,
    s = render_block b ++ rest /\ caps = [block_path b; body b]
    /\ block_ok b = true.
Proof.
  unfold match_here, code_block_re. cbn [cat]. intros H.
  cbn [exec] in H. rewrite exec_lits in H.
  destruct (startswith s fence) eqn:E0; [|discriminate].
  apply startswith_split in E0. rewrite E0. clear E0.
  generalize dependent (drop (length fence) s). clear s. intros s H.
  apply rep_greedy_sound in H as (t & s1 & -> & Ht & Hlt & H).
  apply rep_greedy_sound in H as (ws & s2 & -> & Hws & Hlws & H).
  rewrite exec_lits in H.
  destruct (startswith s2 file_attr) eqn:E1; [|discriminate].
  apply startswith_split in E1. rewrite E1. clear E1.
  generalize dependent (drop (length file_attr) s2). clear s2. intros s2 H.
  apply rep_greedy_sound in H as (p & s3 & -> & Hp & _ & H).
  rewrite take_matched in H.
  destruct s3 as [|q s3]; [discriminate|].
  destruct (N.eqb_spec q dquote) as [->|]; [|discriminate].
  destruct s3 as [|n s3]; [discriminate|].
  destruct (N.eqb_spec n newline) as [->|]; [|discriminate].
  apply rep_lazy_sound_first in H as (c & s4 & -> & _ & H & Hfirst).
  rewrite exec_lits in H.
  destruct (startswith s4 fence) eqn:E2; [|discriminate].
  apply startswith_split in E2. rewrite E2 in Hfirst, H |- *.
  rewrite take_matched in H. rewrite drop_app_length in H.
  injection H as <- <-.
  exists {| tag := t; tag_space := ws; block_path := p; body := c |}.
  unfold render_block, block_ok. cbn [tag tag_space block_path body].
  repeat rewrite <- app_assoc. split; [reflexivity|]. split; [reflexivity|].
  rewrite Ht, Hws, Hp.
  replace (nonempty t) with true by (destruct t; simpl in *; [lia|easy]).
  replace (nonempty ws) with true by (destruct ws; simpl in *; [lia|easy]).
  simpl. apply (body_ok_of_first_fence c (drop (length fence) s4)).
  intros w1 w2 Ec Hne. specialize (Hfirst w1 w2 Ec Hne).
  rewrite exec_lits in Hfirst.
  now destruct (startswith (w2 ++ fence ++ drop (length fence) s4) fence).
Qed.

Lemma check_file_names_return (results : list (str * str)) (u : unit) :
  check_file_names results = Return u ->
  forallb (fun r => negb (blank (fst r))) results = true.
Proof.
  induction results as [|[file code] results IH]; simpl; [reflexivity|].
  rewrite strip_blank. unfold blank at 1.
  destruct (forallb is_space file); simpl; [discriminate|exact IH].
Qed.

(** X1: every record that the extraction returns is an annotated block of
    the text, well shaped, with a path that is not blank: the record is the
    path and the body of that block as they stand in the text. *)
Theorem extract_returns_blocks (content : str) (results : list (str * str)) :
  extract_files_from_markdown content = Return results ->
  Forall (fun r =>
            exists pre b post,
              content = pre ++ render_block b ++ post
              /\ block_ok b = true /\ blank (block_path b) = false
              /\ r = (block_path b, body b))
         results.
Proof.
  rewrite extract_of_findall.
  destruct (check_file_names _) as [u| |] eqn:E; [|discriminate..].
  intros [= <-]. apply check_file_names_return in E.
  rewrite forallb_forall in E. apply List.Forall_forall. intros r Hr.
  specialize (E r Hr). apply negb_true_iff in E.
  apply in_map_iff in Hr as (caps & <- & Hcaps).
  apply findall_some in Hcaps as (pre & s & post & -> & Hm).
  apply code_block_match_block in Hm as (b & -> & -> & Hb).
  exists pre, b, post. repeat split; auto.
Qed.

(** What a match of the wrapper-tag pattern captures. *)
Lemma project_id_match_value (s rest : str) (caps : list str) :
  match_here project_id_re s = Some (rest, caps) ->
  exists ws1 v ws2,
    s = wrapper_tag ws1 v ws2 ++ rest /\ caps = [v]
    /\ ws1 <> [] /\ forallb is_space ws1 = true
    /\ v <> [] /\ forallb not_dquote v = true
    /\ forallb is_space ws2 = true.
Proof.
  intros H. apply match_here_sound_caps in H as (w & -> & Hw).
  unfold project_id_re in Hw. cbn [cat lang_caps] in Hw.
  destruct Hw as (w1 & x1 & c1 & d1 & -> & -> & Hw1
                  & ws1 & x2 & c2 & d2 & -> & -> & [[Hws1 Hlen1] ->]
                  & w3 & x3 & c3 & d3 & -> & -> & Hw3
                  & v & x4 & c4 & d4 & -> & -> & [c4' [[[Hv Hlenv] ->] ->]]
                  & w5 & x5 & c5 & d5 & -> & -> & [-> ->]
                  & ws2 & x6 & c6 & d6 & -> & -> & [[Hws2 _] ->]
                  & w7 & x7 & c7 & d7 & -> & -> & [-> ->] & [-> ->]).
  apply lang_caps_lits in Hw1 as [-> ->], Hw3 as [-> ->].
  exists ws1, v, ws2. unfold wrapper_tag.
  repeat rewrite <- app_assoc. repeat split; auto.
  - destruct ws1; simpl in *; [lia|discriminate].
  - destruct v; simpl in *; [lia|discriminate].
Qed.

(** X2: an identifier that [extract_project_id] returns is not empty, has
    no double quote, and is the value of a wrapper tag of the text. *)
Theorem extract_project_id_returns_value (markdown v : str) :
  extract_project_id markdown = Return v ->
  v <> [] /\ forallb not_dquote v = true
  /\ exists pre ws1 ws2 post,
       markdown = pre ++ wrapper_tag ws1 v ws2 ++ post
       /\ ws1 <> [] /\ forallb is_space ws1 = true
       /\ forallb is_space ws2 = true.
Proof.
  unfold extract_project_id.
  destruct (re_search project_id_re markdown) as [caps|] eqn:E;
    [|discriminate].
  intros [= <-]. apply re_search_some in E as (pre & s & rest & -> & Hm).
  apply project_id_match_value in Hm
    as (ws1 & v & ws2 & -> & -> & Hne1 & Hws1 & Hnev & Hv & Hws2).
  simpl. split; [exact Hnev|]. split; [exact Hv|].
  exists pre, ws1, ws2, rest. auto.
Qed.

(** What a match of the import pattern captures. *)
Lemma import_match_specifier (s rest : str) (caps : list str) :
  match_here import_re s = Some (rest, caps) ->
  exists ws1 mid ws2 ws3 q1 dep q2,
    s = lit "import" ++ ws1 ++ mid ++ ws2 ++ lit "from" ++ ws3
        ++ [q1] ++ dep ++ [q2] ++ rest
    /\ caps = [dep]
    /\ ws1 <> [] /\ forallb is_space ws1 = true
    /\ forallb dot mid = true
    /\ ws2 <> [] /\ forallb is_space ws2 = true
    /\ ws3 <> [] /\ forallb is_space ws3 = true
    /\ is_quote q1 = true /\ is_quote q2 = true
    /\ dep <> [] /\ forallb not_quote dep = true.
Proof.
  intros H. apply match_here_sound_caps in H as (w & -> & Hw).
  unfold import_re in Hw. cbn [cat lang_caps] in Hw.
  destruct Hw as (w1 & x1 & c1 & d1 & -> & -> & Hw1
                  & ws1 & x2 & c2 & d2 & -> & -> & [[Hws1 Hlen1] ->]
                  & mid & x3 & c3 & d3 & -> & -> & [[Hmid _] ->]
                  & ws2 & x4 & c4 & d4 & -> & -> & [[Hws2 Hlen2] ->]
                  & w5 & x5 & c5 & d5 & -> & -> & Hw5
                  & ws3 & x6 & c6 & d6 & -> & -> & [[Hws3 Hlen3] ->]
                  & w7 & x7 & c7 & d7 & -> & -> & [(q1 & -> & Hq1) ->]
                  & dep & x8 & c8 & d8 & -> & ->
                    & [c8' [[[Hdep Hlend] ->] ->]]
                  & w9 & x9 & c9 & d9 & -> & -> & [(q2 & -> & Hq2) ->]
                  & [-> ->]).
  apply lang_caps_lits in Hw1 as [-> ->], Hw5 as [-> ->].
  exists ws1, mid, ws2, ws3, q1, dep, q2.
  repeat rewrite <- app_assoc.
  assert (Hne : forall l : str, (1 <= length l)%nat -> l <> []).
  { intros [|? ?]; simpl; [lia|discriminate]. }
  repeat split; auto.
Qed.

(** X3: every specifier that the inferrer reads in a file is not empty, has
    no quote of either kind, and stands between two quotes, which need not
    be the same, after import, white space, a stretch without newline,
    white space, from and white space. *)
Theorem import_specifiers_sound (code dep : str) :
  In dep (import_specifiers code) ->
  dep <> [] /\ forallb not_quote dep = true
  /\ exists pre ws1 mid ws2 ws3 q1 q2 post,
       code = pre ++ lit "import" ++ ws1 ++ mid ++ ws2 ++ lit "from" ++ ws3
              ++ [q1] ++ dep ++ [q2] ++ post
       /\ ws1 <> [] /\ forallb is_space ws1 = true
       /\ forallb dot mid = true
       /\ ws2 <> [] /\ forallb is_space ws2 = true
       /\ ws3 <> [] /\ forallb is_space ws3 = true
       /\ is_quote q1 = true /\ is_quote q2 = true.
Proof.
  unfold import_specifiers. intros H.
  apply in_map_iff in H as (caps & <- & Hcaps).
  apply findall_some in Hcaps as (pre & s & post & -> & Hm).
  apply import_match_specifier in Hm
    as (ws1 & mid & ws2 & ws3 & q1 & d & q2 & -> & -> & H).
  simpl. destruct H as (? & ? & ? & ? & ? & ? & ? & ? & ? & ? & ?).
  split; [auto|]. split; [auto|].
  exists pre, ws1, mid, ws2, ws3, q1, q2, post. repeat split; auto.
Qed.

(** ** The inferred set of packages *)

Lemma split_first (sep : char) (s : str) :
  exists f fs,
    split sep s = f :: fs /\ forallb (differs sep) f = true
    /\ ((fs = [] /\ s = f)
        \/ exists rest, s = f ++ sep :: rest /\ split sep rest = fs).
Proof.
  induction s as [|c s (f & fs & E & Hf & H)]; cbn [split].
  - exists [], []. auto.
  - destruct (N.eqb_spec c sep) as [->|Hc].
    + exists [], (split sep s). split; [reflexivity|]. split; [reflexivity|].
      right. exists s. auto.
    + rewrite E. exists (c :: f), fs. split; [reflexivity|].
      split.
      { simpl. rewrite Hf. unfold differs.
        apply N.eqb_neq in Hc. now rewrite Hc. }
      destruct H as [[-> ->]|(rest & -> & Hrest)]; [left; auto|].
      right. exists rest. auto.
Qed.

Lemma contains_char_in (c : char) (s : str) :
  contains [c] s = negb (forallb (differs c) s).
Proof.
  induction s as [|x s IH]; [reflexivity|].
  cbn [contains startswith forallb]. rewrite IH. unfold differs at 2.
  rewrite andb_true_r. destruct (x =? c); reflexivity.
Qed.

(** A specifier with a slash is named by its first two fields, and these
    are the stretch before the first slash and the stretch after it up to
    the next slash. *)
Lemma package_name_slash (dep : str) :
  contains [slash] dep = true ->
  exists scope name rest,
    package_name dep = scope ++ slash :: name
    /\ dep = scope ++ slash :: rest
    /\ forallb (differs slash) scope = true
    /\ forallb (differs slash) name = true
    /\ exists more, rest = name ++ more.
Proof.
  intros H. unfold package_name. rewrite H.
  destruct (split_first slash dep) as (f & fs & E & Hf & Hs).
  destruct Hs as [[-> ->]|(rest & -> & Hrest)].
  - rewrite contains_char_in, Hf in H. discriminate.
  - destruct (split_first slash rest) as (g & gs & E' & Hg & Hs').
    rewrite E. rewrite <- Hrest, E'. cbn [length nth Nat.ltb Nat.leb].
    exists f, g, rest. repeat split; auto.
    destruct Hs' as [[_ ->]|(more & -> & _)].
    + exists []. now rewrite app_nil_r.
    + exists (slash :: more). reflexivity.
Qed.

Lemma startswith_scope (scope u v : str) (c : char) :
  forallb (differs slash) scope = true -> (c =? slash) = false ->
  startswith (scope ++ slash :: u) [c; slash]
  = startswith (scope ++ slash :: v) [c; slash].
Proof.
  intros Hs Hc. destruct scope as [|a [|b scope]]; cbn [app startswith].
  - rewrite (N.eqb_sym slash c), Hc. reflexivity.
  - reflexivity.
  - cbn [forallb] in Hs. apply andb_true_iff in Hs as [_ Hs].
    apply andb_true_iff in Hs as [Hb _]. unfold differs in Hb.
    apply negb_true_iff in Hb. rewrite Hb. now rewrite andb_false_r.
Qed.

Lemma slashes_none (s : str) :
  forallb (differs slash) s = true -> slashes s = O.
Proof.
  unfold slashes. induction s as [|c s IH]; simpl; [reflexivity|].
  intros H. apply andb_true_iff in H as [Hc Hs].
  unfold differs in Hc. apply negb_true_iff in Hc.
  unfold is_slash at 1. rewrite Hc. auto.
Qed.

Lemma slashes_app (a b : str) : slashes (a ++ b) = (slashes a + slashes b)%nat.
Proof. unfold slashes. now rewrite List.filter_app, length_app. Qed.

Lemma forallb_app_l (p : char -> bool) (a b : str) :
  forallb p (a ++ b) = true -> forallb p a = true.
Proof. rewrite forallb_app. intros H. now apply andb_true_iff in H. Qed.

(** The name of a specifier that is kept. *)
Lemma package_name_shape (dep : str) :
  dep <> [] -> forallb not_quote dep = true -> skipped dep = false ->
  package_name dep <> []
  /\ (slashes (package_name dep) <= 1)%nat
  /\ forallb not_quote (package_name dep) = true
  /\ startswith (package_name dep) (lit "./") = false
  /\ startswith (package_name dep) (lit "@/") = false.
Proof.
  intros Hne Hq Hs. unfold skipped in Hs.
  repeat rewrite orb_false_iff in Hs. destruct Hs as [[[_ _] Hrel] Hal].
  destruct (contains [slash] dep) eqn:E.
  - destruct (package_name_slash dep E)
      as (scope & name & rest & -> & Hdep & Hsc & Hna & more & Hmore).
    split; [now destruct scope|].
    split.
    { change (scope ++ slash :: name) with (scope ++ [slash] ++ name).
      rewrite !slashes_app, (slashes_none scope Hsc), (slashes_none name Hna).
      reflexivity. }
    split.
    { rewrite Hdep, Hmore in Hq. rewrite forallb_app in Hq |- *.
      apply andb_true_iff in Hq as [Hq1 Hq2]. rewrite Hq1.
      cbn [forallb andb] in Hq2 |- *.
      apply andb_true_iff in Hq2 as [Hq2 Hq3]. rewrite Hq2.
      now apply forallb_app_l in Hq3. }
    rewrite Hdep in Hrel, Hal.
    split.
    + etransitivity; [|exact Hrel].
      exact (startswith_scope scope name rest 46 Hsc eq_refl).
    + etransitivity; [|exact Hal].
      exact (startswith_scope scope name rest 64 Hsc eq_refl).
  - unfold package_name. rewrite E.
    rewrite contains_char_in in E. apply negb_false_iff in E.
    split; [exact Hne|]. split; [rewrite (slashes_none dep E); lia|].
    split; [exact Hq|]. split; [exact Hrel|exact Hal].
Qed.

(** X4: every name of the inferred set is not empty, has at most one slash,
    has no quote, and starts with neither ./ nor @/. *)
Theorem dependency_names_shape (files : list (str * str)) (x : str) :
  x ∈ collect_dependencies files ->
  x <> [] /\ (slashes x <= 1)%nat /\ forallb not_quote x = true
  /\ startswith x (lit "./") = false /\ startswith x (lit "@/") = false.
Proof.
  intros H.
  apply collect_dependencies_elem in H as (file & dep & _ & Hdep & Hs & ->).
  apply import_specifiers_sound in Hdep as (Hne & Hq & _).
  now apply package_name_shape.
Qed.

(** X5: the inferred set of a list of files put end to end is the union of
    the sets of the two lists, so that neither the order of the files nor a
    file met twice changes it. *)
Theorem collect_dependencies_app :
  (forall files1 files2,
      collect_dependencies (files1 ++ files2)
      = collect_dependencies files1 ∪ collect_dependencies files2)
  /\ (forall files files',
         Permutation files files' ->
         collect_dependencies files = collect_dependencies files')
  /\ (forall files, collect_dependencies (files ++ files)
                    = collect_dependencies files).
Proof.
  assert (Happ : forall files1 files2,
             collect_dependencies (files1 ++ files2)
             = collect_dependencies files1 ∪ collect_dependencies files2).
  { intros files1 files2. apply set_eq. intros x.
    rewrite elem_of_union, !collect_dependencies_elem. split.
    - intros (file & dep & Hin & H). apply in_app_iff in Hin as [Hin|Hin];
        [left|right]; exists file, dep; auto.
    - intros [(file & dep & Hin & H)|(file & dep & Hin & H)];
        exists file, dep; (split; [apply in_app_iff; auto|exact H]). }
  split; [exact Happ|]. split.
  - intros files files' Hperm. apply set_eq. intros x.
    rewrite !collect_dependencies_elem.
    split; intros (file & dep & Hin & H); exists file, dep;
      (split; [|exact H]).
    + now apply (Permutation_in _ Hperm).
    + now apply (Permutation_in _ (Permutation_sym Hperm)).
  - intros files. rewrite Happ. apply set_eq. intros x.
    rewrite elem_of_union. tauto.
Qed.

Lemma first_char_kept_eq (dep : str) :
  existsb (fun prefix => startswith dep prefix) (iter_str blacklist_prefixes)
  = negb (first_char_kept dep).
Proof.
  rewrite blacklisted_first_char. destruct dep as [|c dep]; [reflexivity|].
  cbn. unfold differs. rewrite andb_true_r.
  rewrite !negb_andb, !negb_involutive, !orb_assoc. reflexivity.
Qed.

(** X6: the rule of the inferred set as the code has it.  A name is in the
    set exactly when it is the name of a specifier read in one of the files
    whose first character is none of n, e, x, t and the slash, and which
    starts with neither ./ nor @/. *)
Theorem collect_dependencies_rule (files : list (str * str)) (x : str) :
  x ∈ collect_dependencies files
  <-> exists file dep,
        In file files /\ In dep (import_specifiers (snd file))
        /\ first_char_kept dep = true
        /\ startswith dep (lit "./") = false
        /\ startswith dep (lit "@/") = false
        /\ x = package_name dep.
Proof.
  rewrite collect_dependencies_elem.
  assert (Hs : forall dep,
             skipped dep = false
             <-> first_char_kept dep = true
                 /\ startswith dep (lit "./") = false
                 /\ startswith dep (lit "@/") = false).
  { intros dep. unfold skipped. rewrite first_char_kept_eq.
    change (bool_decide (dep ∈ ignore_dependencies)) with (bool_decide (dep ∈ @nil str)).
    rewrite bool_decide_eq_false_2 by apply not_elem_of_nil.
    rewrite !orb_false_iff, negb_false_iff. tauto. }
  split; intros (file & dep & Hin & Hdep & H); exists file, dep.
  - destruct H as [H ->]. apply Hs in H. tauto.
  - destruct H as (H1 & H2 & H3 & ->).
    repeat split; auto. apply Hs. auto.
Qed.

(** X7: no install command is issued exactly when every specifier read in
    the files is passed over; otherwise one command is issued, for the
    package manager that the lock file selects and for the whole inferred
    set. *)
Theorem install_action_spec (lock : bool) (files : list (str * str)) :
  (install_third_party_dependencies lock files = NoInstall
   <-> forall file dep,
         In file files -> In dep (import_specifiers (snd file)) ->
         skipped dep = true)
  /\ (install_third_party_dependencies lock files <> NoInstall ->
      install_third_party_dependencies lock files
      = RunInstall lock (collect_dependencies files)).
Proof.
  unfold install_third_party_dependencies.
  destruct (bool_decide (collect_dependencies files = ∅)) eqn:E.
  - apply bool_decide_eq_true in E. split; [|congruence].
    split; [intros _|reflexivity].
    intros file dep Hin Hdep.
    destruct (skipped dep) eqn:Hs; [reflexivity|exfalso].
    assert (H : package_name dep ∈ collect_dependencies files).
    { apply collect_dependencies_elem. exists file, dep. auto. }
    rewrite E in H. now apply not_elem_of_empty in H.
  - apply bool_decide_eq_false in E. split; [|reflexivity].
    split; [discriminate|]. intros H. exfalso. apply E.
    apply set_eq. intros x. rewrite collect_dependencies_elem.
    split; [|intros Hx; now apply not_elem_of_empty in Hx].
    intros (file & dep & Hin & Hdep & Hs & _).
    rewrite (H file dep Hin Hdep) in Hs. discriminate.
Qed.

(** ** Parsed repository URLs *)

Lemma lstrip_by_app_all (p : char -> bool) (a b : str) :
  forallb p a = true -> lstrip_by p (a ++ b) = lstrip_by p b.
Proof.
  induction a as [|c a IH]; simpl; [reflexivity|].
  intros H. apply andb_true_iff in H as [Hc Ha]. now rewrite Hc, IH.
Qed.

Lemma rstrip_by_app_all (p : char -> bool) (s t : str) :
  forallb p t = true -> rstrip_by p (s ++ t) = rstrip_by p s.
Proof.
  intros H. unfold rstrip_by. rewrite rev_app_distr.
  now rewrite lstrip_by_app_all by now rewrite forallb_rev.
Qed.

(** X8: slashes at the end of the URL change nothing. *)
Theorem parse_github_url_trailing_slashes
    (urlparse_path : str -> outcome str) (url slashes_ : str) :
  forallb is_slash slashes_ = true ->
  parse_github_url urlparse_path (url ++ slashes_)
  = parse_github_url urlparse_path url.
Proof.
  intros H. unfold parse_github_url, path_parts_of.
  now rewrite rstrip_by_app_all.
Qed.

Lemma lstrip_by_head (p : char -> bool) (s : str) (c : char) (t : str) :
  lstrip_by p s = c :: t -> p c = false.
Proof.
  induction s as [|x s IH]; simpl; [discriminate|].
  destruct (p x) eqn:E; [exact IH|]. now intros [= <- _].
Qed.

Lemma rstrip_by_prefix (p : char -> bool) (s : str) :
  exists b, s = rstrip_by p s ++ b.
Proof.
  unfold rstrip_by.
  destruct (lstrip_by_suffix p (rev s)) as (a & Ha & _).
  exists (rev a). rewrite <- rev_app_distr, <- Ha. now rewrite rev_involutive.
Qed.

Lemma split_fields (sep : char) (s : str) :
  Forall (fun f => forallb (differs sep) f = true) (split sep s).
Proof.
  induction s as [|c s IH]; cbn [split]; [repeat constructor|].
  destruct (N.eqb_spec c sep) as [->|Hc]; [now constructor|].
  destruct (split sep s) as [|f fs]; [repeat constructor|].
  - simpl. unfold differs. apply N.eqb_neq in Hc. now rewrite Hc.
  - apply Forall_cons_iff in IH as [Hf Hfs]. constructor; [|exact Hfs].
    simpl. rewrite Hf. unfold differs. apply N.eqb_neq in Hc.
    now rewrite Hc.
Qed.

Lemma nth_fields (sep : char) (s : str) (n : nat) :
  forallb (differs sep) (nth n (split sep s) []) = true.
Proof.
  pose proof (split_fields sep s) as H.
  rewrite List.Forall_forall in H.
  destruct (Nat.lt_ge_cases n (length (split sep s))) as [Hn|Hn].
  - apply H. now apply nth_In.
  - now rewrite nth_overflow.
Qed.

(** The first field of a stripped path that has two fields is not empty. *)
Lemma stripped_first_field (p : str) :
  (2 <= length (split slash (strip_by is_slash p)))%nat ->
  nth 0 (split slash (strip_by is_slash p)) [] <> [].
Proof.
  unfold strip_by. set (t := lstrip_by is_slash p).
  destruct (rstrip_by_prefix is_slash t) as (b & Hb).
  destruct (rstrip_by is_slash t) as [|c u] eqn:E; [simpl; lia|].
  intros _. assert (Hc : is_slash c = false).
  { apply (lstrip_by_head is_slash p c (u ++ b)). fold t. now rewrite Hb. }
  cbn [split]. unfold is_slash in Hc. rewrite Hc.
  destruct (split slash u); discriminate.
Qed.

(** X9: in a parsed URL the owner is never empty, and neither the owner
    nor the repository nor the branch has a slash. *)
Theorem parse_github_url_fields
    (urlparse_path : str -> outcome str) (url : str) (info : github_info) :
  parse_github_url urlparse_path url = Return info ->
  owner info <> []
  /\ forallb (differs slash) (owner info) = true
  /\ forallb (differs slash) (repo info) = true
  /\ forallb (differs slash) (branch info) = true.
Proof.
  unfold parse_github_url, path_parts_of.
  destruct (urlparse_path _) as [p| |]; [|discriminate..].
  set (parts := split slash (strip_by is_slash p)).
  destruct (length parts <? 2)%nat eqn:Hlen; [discriminate|].
  apply Nat.ltb_ge in Hlen.
  assert (Ho : nth 0 parts [] <> []) by now apply stripped_first_field.
  destruct (_ && _); intros [= <-]; cbn [owner repo branch];
    repeat split; auto; try apply nth_fields; reflexivity.
Qed.

(** The cases that the code tells apart, on the segments of the path.
    Fewer than two segments raise ValueError.  When the third segment is
    not tree, or is tree with nothing after it, the branch is main; the
    third segment is then left out of the subpath, which is made of the
    segments after it. *)
Theorem parse_github_url_cases
    (urlparse_path : str -> outcome str) (url : str) :
  (forall parts,
      path_parts_of urlparse_path url = Return parts ->
      (length parts < 2)%nat ->
      parse_github_url urlparse_path url = Raise "ValueError")
  /\ (forall o r x rest,
         path_parts_of urlparse_path url = Return (o :: r :: x :: rest) ->
         x <> lit "tree" \/ rest = [] ->
         parse_github_url urlparse_path url
         = Return {| owner := o; repo := r; branch := lit "main";
                     path := join [slash] rest |}).
Proof.
  split.
  - intros parts H Hlen. unfold parse_github_url. rewrite H.
    apply Nat.ltb_lt in Hlen. now rewrite Hlen.
  - intros o r x rest H Hx. unfold parse_github_url. rewrite H.
    cbn [length Nat.ltb Nat.leb nth andb].
    destruct rest as [|b rest]; [reflexivity|].
    destruct Hx as [Hx|]; [|discriminate].
    rewrite bool_decide_eq_false_2 by exact Hx. reflexivity.
Qed.

(** ** The folder name *)

Lemma length_cons_sub (c : char) (s : str) :
  (length (c :: s) - length s)%nat = 1%nat.
Proof. simpl. destruct (length s); lia. Qed.

(** Replacing the characters of a class by nothing keeps the others. *)
Lemma re_sub_class (p : char -> bool) (s : str) :
  re_sub (Class p) [] s = List.filter (fun c => negb (p c)) s.
Proof.
  unfold re_sub. induction s as [|c s IH]; [reflexivity|].
  cbn [sub_from match_here exec List.filter].
  destruct (p c) eqn:E; cbn [negb].
  - rewrite length_cons_sub. cbn. exact IH.
  - now rewrite IH.
Qed.

Lemma sub_from_skip (r : regex) (repl a b : str) :
  sub_from r repl (length a) (a ++ b) = sub_from r repl O b.
Proof. induction a as [|c a IH]; [reflexivity|exact IH]. Qed.

Lemma span_class (p : char -> bool) (s : str) :
  exists w t, s = w ++ t /\ forallb p w = true /\ stops p t = true.
Proof.
  destruct (lstrip_by_suffix p s) as (a & Ha & Hp).
  exists a, (lstrip_by p s). repeat split; auto.
  destruct (lstrip_by p s) as [|c t] eqn:E; [reflexivity|].
  simpl. now rewrite (lstrip_by_head p s c t E).
Qed.

Lemma squeeze_run (p : char -> bool) (h : char) (w t : str) :
  forallb p w = true -> stops p t = true ->
  squeeze p h true (w ++ t) = squeeze p h false t.
Proof.
  intros Hw Ht. induction w as [|c w IH]; simpl in *.
  - destruct t as [|c t]; [reflexivity|]. simpl in *.
    apply negb_true_iff in Ht. now rewrite Ht.
  - apply andb_true_iff in Hw as [Hc Hw]. rewrite Hc. auto.
Qed.

(** Replacing the runs of a class by one character. *)
Lemma re_sub_runs (p : char -> bool) (h : char) (s : str) :
  re_sub (Rep true 1 p) [h] s = squeeze p h false s.
Proof.
  unfold re_sub.
  assert (H : forall n s, (length s <= n)%nat ->
                          sub_from (Rep true 1 p) [h] O s
                          = squeeze p h false s).
  { clear s. induction n as [|n IH]; intros s Hn.
    - destruct s; [reflexivity|simpl in Hn; lia].
    - destruct s as [|c s]; [reflexivity|].
      cbn [sub_from squeeze]. destruct (p c) eqn:Hc.
      + destruct (span_class p s) as (w & t & -> & Hw & Ht).
        unfold match_here. cbn [exec].
        rewrite (rep_greedy_run p 1 (c :: w) t _ (t, []));
          [|simpl; now rewrite Hc|exact Ht|simpl; lia|reflexivity].
        replace (length (c :: w ++ t) - length t)%nat with (S (length w))
          by (simpl; rewrite length_app; lia).
        cbn [Nat.pred app]. rewrite sub_from_skip, squeeze_run by assumption.
        f_equal. apply IH. simpl in Hn. rewrite length_app in Hn. lia.
      + unfold match_here. cbn [exec rep_greedy]. rewrite Hc.
        f_equal. apply IH. simpl in Hn. lia. }
  now apply (H (length s)).
Qed.

Section SlugShape.

Variables (p : char -> bool) (h : char).
Hypothesis class_h : p h = true.

Lemma squeeze_chars (b : bool) (s : str) (c : char) :
  In c (squeeze p h b s) -> c = h \/ (p c = false /\ In c s).
Proof.
  revert b; induction s as [|x s IH]; intros b; simpl; [tauto|].
  destruct (p x) eqn:E.
  - destruct b; simpl.
    + intros H. apply IH in H. tauto.
    + intros [<-|H]; [auto|]. apply IH in H. tauto.
  - simpl. intros [<-|H]; [auto|]. apply IH in H. tauto.
Qed.

Lemma squeeze_no_double (b : bool) (s : str) :
  contains [h; h] (squeeze p h b s) = false
  /\ (b = true -> startswith (squeeze p h b s) [h] = false).
Proof.
  revert b; induction s as [|x s IH]; intros b; [now split|].
  simpl. destruct (p x) eqn:E.
  - destruct b; [apply IH|]. split; [|discriminate].
    destruct (IH true) as [H1 H2].
    cbn [contains startswith]. rewrite H1, N.eqb_refl. cbn [andb orb].
    specialize (H2 eq_refl).
    destruct (squeeze p h true s) as [|y t]; [reflexivity|].
    simpl in H2 |- *. rewrite andb_true_r in H2. now rewrite H2.
  - assert (Hx : (x =? h) = false).
    { destruct (N.eqb_spec x h); [subst; congruence|reflexivity]. }
    destruct (IH false) as [H1 _]. split.
    + cbn [contains startswith]. now rewrite Hx, H1.
    + intros _. cbn [startswith]. now rewrite Hx.
Qed.

End SlugShape.

Lemma lstrip_by_drop (p : char -> bool) (s : str) :
  exists a, s = a ++ lstrip_by p s.
Proof. destruct (lstrip_by_suffix p s) as (a & H & _). eauto. Qed.

(** What [strip] leaves is a stretch of the text that neither starts nor
    ends with a character of the set. *)
Lemma strip_by_spec (p : char -> bool) (s : str) :
  (exists a b, s = a ++ strip_by p s ++ b)
  /\ stops p (strip_by p s) = true
  /\ stops p (rev (strip_by p s)) = true.
Proof.
  unfold strip_by. set (t := lstrip_by p s).
  destruct (lstrip_by_drop p s) as (a & Ha). fold t in Ha.
  destruct (rstrip_by_prefix p t) as (b & Hb).
  split; [exists a, b; now rewrite <- Hb|].
  assert (Hend : stops p (rev (rstrip_by p t)) = true).
  { unfold rstrip_by. rewrite rev_involutive.
    destruct (lstrip_by p (rev t)) as [|c u] eqn:E; [reflexivity|].
    simpl. now rewrite (lstrip_by_head p (rev t) c u E). }
  split; [|exact Hend].
  destruct (rstrip_by p t) as [|c u] eqn:E; [reflexivity|].
  simpl. rewrite (lstrip_by_head p s c (u ++ b)); [reflexivity|].
  fold t. now rewrite Hb.
Qed.

(** X10: the shape of a slug, whatever the text and the Unicode tables.
    Every character is the hyphen or a word character of the normalized and
    lowered text that is neither white space nor the underscore; no two
    hyphens follow each other; the slug neither starts nor ends with a
    hyphen. *)
Theorem slugify_shape
    (normalize_nfkd str_lower : str -> str) (is_word : char -> bool)
    (text : str) :
  let slug := slugify normalize_nfkd str_lower is_word text in
  (forall c, In c slug ->
             c = hyphen
             \/ (In c (str_lower (normalize_nfkd text))
                 /\ is_word c = true /\ is_space c = false
                 /\ c <> underscore))
  /\ contains [hyphen; hyphen] slug = false
  /\ startswith slug [hyphen] = false
  /\ ends_with_hyphen slug = false.
Proof.
  unfold slugify. rewrite re_sub_class, re_sub_runs.
  set (kept := List.filter _ _).
  set (v := squeeze (space_underscore_hyphen) hyphen false kept).
  destruct (strip_by_spec is_hyphen v) as [(a & b & Hv) [Hhead Hlast]].
  cbv zeta. set (slug := strip_by is_hyphen v) in *.
  split; [|split; [|split]].
  - intros c Hc.
    assert (Hcv : In c v).
    { rewrite Hv. apply in_app_iff. right. apply in_app_iff. now left. }
    apply squeeze_chars in Hcv as [->|[Hp Hk]]; [now left|right].
    apply filter_In in Hk as [Hin Hk]. unfold not_word_space_hyphen in Hk.
    rewrite negb_involutive in Hk. unfold space_underscore_hyphen in Hp.
    repeat rewrite orb_false_iff in Hp. destruct Hp as [[Hsp Hun] Hhy].
    rewrite Hsp, Hhy, !orb_false_r in Hk.
    repeat split; auto. intros ->. discriminate.
  - destruct (squeeze_no_double space_underscore_hyphen hyphen eq_refl
                false kept) as [H _].
    fold v in H. rewrite Hv in H.
    apply contains_false_drop in H. now apply contains_false_take in H.
  - destruct slug as [|c t]; [reflexivity|]. simpl in *.
    unfold is_hyphen in Hhead. apply negb_true_iff in Hhead.
    now rewrite Hhead.
  - unfold ends_with_hyphen. destruct (rev slug) as [|c t]; [reflexivity|].
    simpl in Hlast. unfold is_hyphen in Hlast.
    now apply negb_true_iff in Hlast.
Qed.

Lemma squeeze_id (p : char -> bool) (h : char) (s : str) :
  (forall c, In c s -> p c = true -> c = h) ->
  contains [h; h] s = false ->
  forall b, (b = true -> startswith s [h] = false) ->
            squeeze p h b s = s.
Proof.
  induction s as [|x s IH]; intros Hp Hhh b Hb; [reflexivity|].
  apply contains_cons_false in Hhh as [Hhead Htail].
  assert (Hp' : forall c, In c s -> p c = true -> c = h).
  { intros c Hc. apply Hp. now right. }
  cbn [squeeze]. destruct (p x) eqn:E.
  - assert (x = h) by (apply Hp; [now left|exact E]). subst x.
    cbn [startswith] in Hhead, Hb. rewrite N.eqb_refl in Hhead, Hb.
    destruct b; [now specialize (Hb eq_refl)|].
    f_equal. apply IH; auto.
  - f_equal. apply IH; auto. discriminate.
Qed.

Lemma lstrip_by_stops (p : char -> bool) (s : str) :
  stops p s = true -> lstrip_by p s = s.
Proof.
  destruct s as [|c s]; [reflexivity|]. simpl.
  intros H. apply negb_true_iff in H. now rewrite H.
Qed.

Lemma strip_by_stops (p : char -> bool) (s : str) :
  stops p s = true -> stops p (rev s) = true -> strip_by p s = s.
Proof.
  intros H1 H2. unfold strip_by, rstrip_by.
  rewrite (lstrip_by_stops p s H1), (lstrip_by_stops p (rev s) H2).
  apply rev_involutive.
Qed.

Lemma map_id_on (f : char -> char) (s : str) :
  (forall c, In c s -> f c = c) -> map f s = s.
Proof.
  induction s as [|c s IH]; intros H; [reflexivity|].
  simpl. rewrite H by now left. f_equal. apply IH. intros x Hx.
  apply H. now right.
Qed.

Lemma filter_id_on (f : char -> bool) (s : str) :
  (forall c, In c s -> f c = true) -> List.filter f s = s.
Proof.
  induction s as [|c s IH]; intros H; [reflexivity|].
  simpl. rewrite H by now left. f_equal. apply IH. intros x Hx.
  apply H. now right.
Qed.

Lemma slug_char_facts (c : char) :
  slug_char c = true ->
  ascii_lower c = c
  /\ negb (not_word_space_hyphen ascii_word c) = true
  /\ (space_underscore_hyphen c = true -> c = hyphen).
Proof.
  unfold slug_char, ascii_lower, not_word_space_hyphen, ascii_word, is_alnum,
    space_underscore_hyphen, is_space, hyphen, underscore.
  intros H. rewrite negb_involutive.
  repeat rewrite ?orb_true_iff, ?andb_true_iff, ?N.leb_le, ?N.eqb_eq in H.
  split; [|split].
  - destruct ((65 <=? c) && (c <=? 90)) eqn:E; [|reflexivity].
    rewrite andb_true_iff, !N.leb_le in E. lia.
  - repeat rewrite ?orb_true_iff, ?andb_true_iff, ?N.leb_le, ?N.eqb_eq.
    lia.
  - repeat rewrite ?orb_true_iff, ?andb_true_iff, ?N.leb_le, ?N.eqb_eq.
    lia.
Qed.

(** A slug in ASCII is its own slug. *)
Lemma slugify_ascii_fixed (s : str) :
  forallb slug_char s = true ->
  contains [hyphen; hyphen] s = false ->
  startswith s [hyphen] = false -> ends_with_hyphen s = false ->
  slugify_ascii s = s.
Proof.
  intros Hc Hhh Hhead Hlast. rewrite forallb_forall in Hc.
  unfold slugify_ascii, slugify. rewrite re_sub_class, re_sub_runs.
  rewrite map_id_on by (intros c H; now apply slug_char_facts, Hc).
  rewrite filter_id_on by (intros c H; now apply slug_char_facts, Hc).
  assert (Hp : forall c, In c s -> space_underscore_hyphen c = true ->
                         c = hyphen).
  { intros c H. now apply slug_char_facts, Hc. }
  rewrite (squeeze_id space_underscore_hyphen hyphen s Hp Hhh false)
    by discriminate.
  apply strip_by_stops.
  - destruct s as [|c t]; [reflexivity|]. simpl in *.
    rewrite andb_true_r in Hhead. unfold is_hyphen. now rewrite Hhead.
  - unfold ends_with_hyphen in Hlast.
    destruct (rev s) as [|c t]; [reflexivity|]. simpl.
    unfold is_hyphen. now rewrite Hlast.
Qed.

Lemma ascii_lower_word (x : char) :
  ascii_word (ascii_lower x) = true -> ascii_lower x <> underscore ->
  slug_char (ascii_lower x) = true.
Proof.
  unfold ascii_word, ascii_lower, slug_char, is_alnum, underscore, hyphen.
  destruct ((65 <=? x) && (x <=? 90)) eqn:E.
  - rewrite andb_true_iff, !N.leb_le in E. intros _ _.
    repeat rewrite ?orb_true_iff, ?andb_true_iff, ?N.leb_le, ?N.eqb_eq. lia.
  - rewrite andb_false_iff, !N.leb_gt in E. intros H Hu.
    repeat rewrite ?orb_true_iff, ?andb_true_iff, ?N.leb_le, ?N.eqb_eq in H.
    repeat rewrite ?orb_true_iff, ?andb_true_iff, ?N.leb_le, ?N.eqb_eq. lia.
Qed.

(** X11: for an ASCII text the slug is made of the characters a-z, 0-9 and
    the hyphen, and taking the slug of a slug changes nothing. *)
Theorem slugify_ascii_idempotent (text : str) :
  ascii_text text = true ->
  forallb slug_char (slugify_ascii text) = true
  /\ slugify_ascii (slugify_ascii text) = slugify_ascii text.
Proof.
  intros _.
  destruct (slugify_shape (fun t => t) (map ascii_lower) ascii_word text)
    as (Hchars & Hhh & Hhead & Hlast).
  fold (slugify_ascii text) in *.
  assert (Hslug : forallb slug_char (slugify_ascii text) = true).
  { apply forallb_forall. intros c Hc.
    destruct (Hchars c Hc) as [->|(Hin & Hw & _ & Hu)]; [reflexivity|].
    apply in_map_iff in Hin as (x & <- & _).
    now apply ascii_lower_word. }
  split; [exact Hslug|]. now apply slugify_ascii_fixed.
Qed.

(** ** The crawl *)

Section CrawlProperties.

Variable fnmatch : str -> str -> bool.
Variable requests_get : str -> outcome response.
Variable b64decode_utf8 : str -> option str.
Variables (owner_ repo_ branch_ : str) (skip_patterns : list str).

Let fetch := fetch_contents fnmatch requests_get b64decode_utf8
                            owner_ repo_ branch_ skip_patterns.
Let good := crawled fnmatch requests_get b64decode_utf8 skip_patterns.

Lemma download_crawled (item : entry) (new : list file_record) :
  existsb (endswith (entry_path item)) text_extensions = true ->
  should_skip_path fnmatch (entry_path item) skip_patterns = false ->
  download requests_get b64decode_utf8 item = Return new ->
  Forall good new.
Proof.
  intros Hext Hskip. unfold download.
  destruct (requests_get (entry_url item)) as [r| |] eqn:Hr;
    [|discriminate..].
  destruct (status_code r =? 200)%Z eqn:Hst; [|intros [= <-]; constructor].
  destruct (response_json r) as [|d] eqn:Hj; [discriminate|].
  destruct (bool_decide _) eqn:Hb; [|intros [= <-]; constructor].
  destruct (b64decode_utf8 _) as [content|] eqn:Hd;
    intros [= <-]; constructor; [|constructor].
  apply bool_decide_eq_true in Hb. apply Z.eqb_eq in Hst.
  split; [exact Hext|]. split; [exact Hskip|].
  exists (entry_url item), r, d. auto.
Qed.

Lemma fetch_contents_appends (limit : nat) :
  forall path all_files files,
    fetch limit path all_files = Return files ->
    exists new, files = all_files ++ new /\ Forall good new.
Proof.
  subst fetch. induction limit as [|limit IH]; intros path acc files H;
    [discriminate|].
  cbn [fetch_contents] in H.
  destruct (requests_get (contents_url _ _ _ path)) as [r| |];
    [|discriminate..].
  destruct (negb _).
  { injection H as <-. exists []. now rewrite app_nil_r. }
  revert acc files H.
  generalize (match response_json r with
              | JList entries => entries
              | JDict e => [e]
              end).
  intros items. induction items as [|item items IHi]; intros acc files H.
  - injection H as <-. exists []. now rewrite app_nil_r.
  - destruct (should_skip_path fnmatch (entry_path item) skip_patterns)
      eqn:Hskip; [now apply IHi|].
    destruct (bool_decide (entry_type item = lit "dir")).
    { destruct (fetch_contents _ _ _ _ _ _ _ limit (entry_path item) acc)
        as [acc'| |] eqn:E; [|discriminate..].
      apply IH in E as (new1 & -> & H1).
      apply IHi in H as (new2 & -> & H2).
      exists (new1 ++ new2). rewrite app_assoc. split; [reflexivity|].
      now apply Forall_app. }
    destruct (bool_decide (entry_type item = lit "file")); [|now apply IHi].
    destruct (existsb _ _) eqn:Hext; [|now apply IHi].
    destruct (download _ _ item) as [new1| |] eqn:E; [|discriminate..].
    apply (download_crawled item new1 Hext Hskip) in E.
    apply IHi in H as (new2 & -> & H2).
    exists (new1 ++ new2). rewrite app_assoc. split; [reflexivity|].
    now apply Forall_app.
Qed.

Lemma fetch_contents_limit (limit : nat) :
  forall path all_files files,
    fetch limit path all_files = Return files ->
    fetch (S limit) path all_files = Return files.
Proof.
  subst fetch. induction limit as [|limit IH]; intros path acc files H;
    [discriminate|].
  cbn [fetch_contents] in H.
  remember (S limit) as n eqn:En. cbn [fetch_contents]. subst n.
  destruct (requests_get (contents_url _ _ _ path)) as [r| |];
    [|discriminate..].
  destruct (negb _); [exact H|].
  revert acc files H.
  generalize (match response_json r with
              | JList entries => entries
              | JDict e => [e]
              end).
  intros items. induction items as [|item items IHi]; intros acc files H;
    [exact H|].
  destruct (should_skip_path fnmatch (entry_path item) skip_patterns);
    [now apply IHi|].
  destruct (bool_decide (entry_type item = lit "dir")).
  { destruct (fetch_contents _ _ _ _ _ _ _ limit (entry_path item) acc)
      as [acc'| |] eqn:E; [|discriminate..].
    rewrite (IH _ _ _ E). now apply IHi. }
  destruct (bool_decide (entry_type item = lit "file")); [|now apply IHi].
  destruct (existsb _ _); [|now apply IHi].
  destruct (download _ _ item) as [new1| |]; [|discriminate..].
  now apply IHi.
Qed.

End CrawlProperties.

(** X12: every file that the crawl returns has a path with one of the text
    extensions that no skip pattern matches, and its content is the
    decoding of an answer with status 200 and encoding base64. *)
Theorem get_repo_contents_crawled
    (fnmatch : str -> str -> bool) (requests_get : str -> outcome response)
    (b64decode_utf8 : str -> option str)
    (owner_ repo_ branch_ : str) (skip_patterns : list str)
    (limit : nat) (path : str) (files : list file_record) :
  get_repo_contents fnmatch requests_get b64decode_utf8
                    owner_ repo_ branch_ skip_patterns limit path
  = Return files ->
  Forall (crawled fnmatch requests_get b64decode_utf8 skip_patterns) files.
Proof.
  unfold get_repo_contents. intros H.
  apply fetch_contents_appends in H as (new & -> & H). exact H.
Qed.

(** X13: a crawl that returns with some depth of calls allowed returns the
    same files with any greater depth. *)
Theorem get_repo_contents_limit
    (fnmatch : str -> str -> bool) (requests_get : str -> outcome response)
    (b64decode_utf8 : str -> option str)
    (owner_ repo_ branch_ : str) (skip_patterns : list str)
    (limit limit' : nat) (path : str) (files : list file_record) :
  (limit <= limit')%nat ->
  get_repo_contents fnmatch requests_get b64decode_utf8
                    owner_ repo_ branch_ skip_patterns limit path
  = Return files ->
  get_repo_contents fnmatch requests_get b64decode_utf8
                    owner_ repo_ branch_ skip_patterns limit' path
  = Return files.
Proof.
  unfold get_repo_contents. intros Hle H.
  induction Hle as [|limit' Hle IH]; [exact H|].
  now apply fetch_contents_limit.
Qed.

(** ** The type label of a file *)

Lemma rfind_from_app (c : char) (a b : str) (i last : Z) :
  rfind_from c (a ++ b) i last
  = rfind_from c b (i + Z.of_nat (length a))%Z (rfind_from c a i last).
Proof.
  revert i last; induction a as [|x a IH]; intros i last.
  - simpl. now rewrite Z.add_0_r.
  - cbn [app rfind_from length]. rewrite IH. f_equal. lia.
Qed.

Lemma rfind_from_absent (c : char) (s : str) (i last : Z) :
  forallb (differs c) s = true -> rfind_from c s i last = last.
Proof.
  revert i last; induction s as [|x s IH]; intros i last; [reflexivity|].
  cbn [forallb rfind_from]. intros H. apply andb_true_iff in H as [Hx Hs].
  unfold differs in Hx. apply negb_true_iff in Hx. rewrite Hx. now apply IH.
Qed.

(** The last occurrence. *)
Lemma rfind_last (c : char) (a b : str) :
  forallb (differs c) b = true ->
  rfind c (a ++ c :: b) = Z.of_nat (length a).
Proof.
  intros H. unfold rfind. rewrite rfind_from_app. cbn [rfind_from].
  rewrite N.eqb_refl. now rewrite rfind_from_absent.
Qed.

Lemma rfind_absent (c : char) (s : str) :
  forallb (differs c) s = true -> rfind c s = (-1)%Z.
Proof. apply rfind_from_absent. Qed.

Lemma dir_part_cases (d : str) :
  dir_part d = true -> d = [] \/ exists d', d = d' ++ [slash].
Proof.
  unfold dir_part. destruct (rev d) as [|c t] eqn:E; intros H.
  - left. apply (f_equal (@rev char)) in E. now rewrite rev_involutive in E.
  - right. apply N.eqb_eq in H. subst c. exists (rev t).
    apply (f_equal (@rev char)) in E. now rewrite rev_involutive in E.
Qed.

(** The index of the last slash of a path that ends with a component
    without slash, plus one: the length of the directory part. *)
Lemma rfind_slash_dir (d rest : str) :
  dir_part d = true -> no_slash rest = true ->
  (rfind slash (d ++ rest) + 1)%Z = Z.of_nat (length d).
Proof.
  intros Hd Hrest. apply dir_part_cases in Hd as [->|(d' & ->)].
  - simpl. now rewrite rfind_absent.
  - rewrite <- app_assoc. cbn [app]. rewrite rfind_last by exact Hrest.
    rewrite length_app. simpl. lia.
Qed.

Lemma forallb_app_true (p : char -> bool) (a b : str) :
  forallb p a = true -> forallb p b = true -> forallb p (a ++ b) = true.
Proof. intros Ha Hb. now rewrite forallb_app, Ha, Hb. Qed.

Lemma splitext_extension (d name ext : str) :
  dir_part d = true -> no_slash name = true -> has_non_dot name = true ->
  no_slash ext = true -> no_dot ext = true ->
  splitext (d ++ name ++ full_stop :: ext)
  = (d ++ name, full_stop :: ext).
Proof.
  intros Hd Hname Hnd Hes Hed. unfold splitext.
  assert (Hsep : (rfind slash (d ++ name ++ full_stop :: ext) + 1)%Z
                 = Z.of_nat (length d)).
  { apply rfind_slash_dir; [exact Hd|].
    apply forallb_app_true; [exact Hname|].
    unfold no_slash in Hes. cbn [forallb]. now rewrite Hes. }
  assert (Hdot : rfind full_stop (d ++ name ++ full_stop :: ext)
                 = Z.of_nat (length (d ++ name))).
  { rewrite app_assoc. now apply rfind_last. }
  rewrite Hsep, Hdot, !Nat2Z.id.
  rewrite (app_assoc d name) in Hsep |- *.
  rewrite take_app_length, drop_app_length.
  rewrite (drop_app_length (d ++ name)), Hnd, andb_true_r.
  replace (_ <? _)%Z with true; [reflexivity|].
  symmetry. apply Z.ltb_lt. rewrite length_app. lia.
Qed.

Lemma rfind_from_bound (c : char) (s : str) (i last : Z) :
  (last < i)%Z -> (rfind_from c s i last < i + Z.of_nat (length s))%Z.
Proof.
  revert i last; induction s as [|x s IH]; intros i last Hl.
  - simpl. lia.
  - cbn [rfind_from length]. rewrite Nat2Z.inj_succ.
    replace (i + Z.succ (Z.of_nat (length s)))%Z
      with ((i + 1) + Z.of_nat (length s))%Z by lia.
    apply IH. destruct (x =? c); lia.
Qed.

Lemma splitext_none (d name : str) :
  dir_part d = true -> no_slash name = true ->
  no_dot name = true \/ (exists rest, name = full_stop :: rest
                                      /\ no_dot rest = true) ->
  splitext (d ++ name) = (d ++ name, []).
Proof.
  intros Hd Hname Hcase. unfold splitext.
  pose proof (rfind_slash_dir d name Hd Hname) as Hsep.
  destruct Hcase as [Hn|(rest & -> & Hrest)].
  - replace (_ <? _)%Z with false; [reflexivity|].
    symmetry. apply Z.ltb_ge.
    assert (Hdot : (rfind full_stop (d ++ name) < Z.of_nat (length d))%Z).
    { unfold rfind. rewrite rfind_from_app.
      rewrite (rfind_from_absent full_stop name) by exact Hn.
      apply (rfind_from_bound full_stop d 0 (-1)). lia. }
    lia.
  - assert (Hdot : rfind full_stop (d ++ full_stop :: rest)
                   = Z.of_nat (length d)) by now apply rfind_last.
    rewrite Hdot, Hsep, Nat2Z.id, take_app_length, drop_all.
    cbn [has_non_dot]. now rewrite andb_false_r.
Qed.

(** X14: the type label of a path.  With a name that has a character other
    than the dot before its last dot, the label is the extension after that
    dot, or tsx when the extension is one of tsx, jsx, ts and js.  A name
    without dot, or whose only dot is its first character, has the empty
    label. *)
Theorem file_type_of_extension (d name ext : str) :
  dir_part d = true -> no_slash name = true ->
  (has_non_dot name = true -> no_slash ext = true -> no_dot ext = true ->
   file_type_of (d ++ name ++ full_stop :: ext)
   = if bool_decide (ext ∈ js_family) then lit "tsx" else ext)
  /\ (no_dot name = true -> file_type_of (d ++ name) = [])
  /\ (no_dot name = true -> file_type_of (d ++ full_stop :: name) = []).
Proof.
  intros Hd Hname. split; [|split].
  - intros Hnd Hes Hed. unfold file_type_of.
    rewrite splitext_extension by assumption. reflexivity.
  - intros Hn. unfold file_type_of.
    rewrite splitext_none; auto.
  - intros Hn. unfold file_type_of.
    rewrite splitext_none; auto.
    right. exists name. auto.
Qed.

(** ** The markdown of the formatter and the project identifier *)

Lemma no_open_cons (c : char) (s : str) :
  (c =? 60) = false -> contains wrapper_open s = false ->
  contains wrapper_open (c :: s) = false.
Proof. intros Hc Hs. cbn [contains startswith wrapper_open]. now rewrite Hc, Hs. Qed.

Lemma no_open_lt (c : char) (s : str) :
  (c =? 82) = false -> contains wrapper_open (c :: s) = false ->
  contains wrapper_open (lt_sign :: c :: s) = false.
Proof.
  intros Hc Hs. cbn [contains startswith wrapper_open] in Hs |- *.
  rewrite Hc in *. now rewrite andb_false_r.
Qed.

Lemma no_open_sep (a : str) (c : char) (b : str) :
  forallb (differs c) wrapper_open = true ->
  contains wrapper_open a = false -> contains wrapper_open b = false ->
  contains wrapper_open (a ++ c :: b) = false.
Proof.
  intros Hc Ha Hb. apply contains_app_sep; [|discriminate|exact Ha|exact Hb].
  intros Hin. rewrite forallb_forall in Hc. specialize (Hc c Hin).
  unfold differs in Hc. now rewrite N.eqb_refl in Hc.
Qed.

Lemma file_type_no_open (p : str) :
  contains wrapper_open p = false ->
  contains wrapper_open (file_type_of p) = false.
Proof.
  intros H. unfold file_type_of.
  destruct (bool_decide _); [reflexivity|].
  assert (Hdrop : forall n s, contains wrapper_open s = false ->
                              contains wrapper_open (drop n s) = false).
  { intros n s Hs. rewrite <- (take_drop n s) in Hs.
    now apply contains_false_drop in Hs. }
  apply Hdrop. unfold splitext.
  destruct (_ && _); simpl; [now apply Hdrop|reflexivity].
Qed.

Lemma format_file_no_open (file : file_record) (rest : str) :
  record_tag_free file = true -> contains wrapper_open rest = false ->
  contains wrapper_open (format_file file ++ rest) = false.
Proof.
  unfold record_tag_free. intros H Hrest.
  apply andb_true_iff in H as [Hp Hc]. apply negb_true_iff in Hp, Hc.
  unfold format_file. repeat rewrite <- app_assoc.
  apply no_open_sep; [reflexivity|now apply file_type_no_open|].
  repeat (apply no_open_cons; [reflexivity|]).
  apply no_open_sep; [reflexivity|exact Hp|].
  repeat (apply no_open_cons; [reflexivity|]).
  apply no_open_lt; [reflexivity|].
  repeat (apply no_open_cons; [reflexivity|]).
  apply no_open_sep; [reflexivity|exact Hc|].
  repeat (apply no_open_cons; [reflexivity|]).
  apply no_open_lt; [reflexivity|].
  repeat (apply no_open_cons; [reflexivity|]).
  exact Hrest.
Qed.

(** X15: the project identifier cannot be read from the markdown that the
    formatter makes.  Its wrapper tag has no id attribute, so that for
    records whose paths and contents open no wrapper tag
    [extract_project_id] exits with status 1. *)
Theorem extract_project_id_of_create_markdown (files : list file_record) :
  forallb record_tag_free files = true ->
  extract_project_id (create_markdown files) = SysExit 1.
Proof.
  intros H. unfold extract_project_id.
  rewrite create_markdown_concat.
  set (tail := concat (map format_file files) ++ lit "</ReactProject>"
               ++ [newline]).
  assert (Htail : contains wrapper_open tail = false).
  { subst tail. induction files as [|file files IH]; cbn [map concat].
    - reflexivity.
    - cbn [forallb] in H. apply andb_true_iff in H as [Hf Hfs].
      rewrite <- app_assoc. apply format_file_no_open; auto. }
  change ((lit "<ReactProject>" ++ [newline; newline]) ++ tail)
    with (lt_sign :: (lit "ReactProject>" ++ [newline; newline]) ++ tail).
  rewrite re_search_cons_none.
  - rewrite project_id_absent; [reflexivity|].
    change ((lit "ReactProject>" ++ [newline; newline]) ++ tail)
      with (lit "ReactProject" ++ gt_sign :: newline :: newline :: tail).
    repeat (apply no_open_cons; [reflexivity|]). exact Htail.
  - change (lt_sign :: (lit "ReactProject>" ++ [newline; newline]) ++ tail)
      with (wrapper_open ++ gt_sign :: newline :: newline :: tail).
    unfold match_here, project_id_re. cbn [cat exec].
    rewrite exec_lits_app. now apply rep_greedy_stop.
Qed.

(** ** The prompt *)

Lemma rstrip_by_parts (p : char -> bool) (s : str) :
  exists b, s = rstrip_by p s ++ b /\ forallb p b = true.
Proof.
  unfold rstrip_by.
  destruct (lstrip_by_suffix p (rev s)) as (a & Ha & Hp).
  exists (rev a). split.
  - rewrite <- rev_app_distr, <- Ha. now rewrite rev_involutive.
  - now rewrite forallb_rev.
Qed.

Lemma strip_by_parts (p : char -> bool) (s : str) :
  exists a b, s = a ++ strip_by p s ++ b
              /\ forallb p a = true /\ forallb p b = true.
Proof.
  unfold strip_by.
  destruct (lstrip_by_suffix p s) as (a & Ha & Hpa).
  destruct (rstrip_by_parts p (lstrip_by p s)) as (b & Hb & Hpb).
  exists a, b. now rewrite <- Hb.
Qed.

(** X16: the answer to the prompt.  The path returned is the line typed
    without the white space around it, and it is not empty; a blank line and
    an interrupt end the run with status 1; the end of the input is the one
    exception that the prompt lets through. *)
Theorem prompt_for_markdown_file_outcome (answer : typed) :
  match prompt_for_markdown_file answer with
  | Return file_path =>
      file_path <> []
      /\ stops is_space file_path = true
      /\ stops is_space (rev file_path) = true
      /\ exists a b, answer = Line (a ++ file_path ++ b)
                     /\ forallb is_space a = true
                     /\ forallb is_space b = true
  | SysExit code =>
      code = 1%Z
      /\ (answer = KeyboardInterrupt
          \/ exists s, answer = Line s /\ forallb is_space s = true)
  | Raise e => answer = EOFError
  end.
Proof.
  destruct answer as [s| |]; cbn [prompt_for_markdown_file];
    [|split; [reflexivity|now left]|reflexivity].
  destruct (strip_by_parts is_space s) as (a & b & Hs & Ha & Hb).
  destruct (strip_by_spec is_space s) as (_ & Hhead & Hlast).
  fold (strip s) in *.
  destruct (strip s) as [|c t] eqn:E; cbn [truthy negb].
  - split; [reflexivity|]. right. exists s. split; [reflexivity|].
    rewrite Hs. simpl. rewrite forallb_app. now rewrite Ha, Hb.
  - split; [discriminate|]. split; [exact Hhead|]. split; [exact Hlast|].
    exists a, b. now rewrite <- Hs.
Qed.

(** ** The commands *)

Lemma all_succeed_snoc (returncode : list str -> str -> Z)
    (history new : list str) (command : str) :
  all_succeed returncode history (new ++ [command])
  = all_succeed returncode history new
    && (returncode (history ++ new) command =? 0)%Z.
Proof.
  revert history. induction new as [|c new IH]; intros history; simpl.
  - now rewrite app_nil_r, andb_true_r.
  - rewrite IH, <- app_assoc. simpl. now rewrite andb_assoc.
Qed.

(** Two commands, the second run exactly when the first exits with 0;
    the outcome is a return exactly when both were run and exited with 0. *)
Lemma two_commands_fail_fast (returncode : list str -> str -> Z)
    (history : list str) (first second : str) :
  let r :=
    match run_command returncode history first with
    | (history', Return _) => run_command returncode history' second
    | (history', failure) => (history', failure)
    end in
  exists new, fst r = history ++ new
              /\ (new = [first] \/ new = [first; second])
              /\ fail_fast returncode history new (snd r)
              /\ (snd r = Return tt -> new = [first; second]).
Proof.
  unfold run_command, fail_fast.
  destruct (returncode history first =? 0)%Z eqn:E1; cbn [negb].
  - destruct (returncode (history ++ [first]) second =? 0)%Z eqn:E2;
      cbn [negb fst snd]; exists [first; second]; rewrite <- app_assoc;
      (split; [reflexivity|]); (split; [now right|]);
      (split; [|reflexivity]);
      cbn [removelast all_succeed app]; rewrite ?E1, ?E2; cbn [andb].
    + split; [reflexivity|]. split; [tauto|now left].
    + split; [reflexivity|]. split; [|now right].
      split; discriminate.
  - cbn [fst snd]. exists [first]. split; [reflexivity|].
    split; [now left|]. split; [|discriminate].
    cbn [removelast all_succeed]. rewrite E1.
    cbn [andb]. split; [reflexivity|]. split; [|now right].
    split; discriminate.
Qed.

(** X17: the commands of [setup_shadcn].  It runs the init command of the
    component tool, fed by echo, and then, exactly when that one exited with
    0, the add command: one or two commands, no more, each through npx and
    none through pnpm.  It returns exactly when both were run and exited
    with 0, and raises a RuntimeError otherwise. *)
Theorem setup_shadcn_commands (returncode : list str -> str -> Z)
    (usingToast : bool) (history : list str) :
  let r := setup_shadcn returncode usingToast history in
  exists new, fst r = history ++ new
              /\ (new = [init_command usingToast]
                  \/ new = [init_command usingToast; add_command usingToast])
              /\ (1 <= length new <= 2)%nat
              /\ Forall npx_shadcn new
              /\ fail_fast returncode history new (snd r)
              /\ (snd r = Return tt -> length new = 2%nat).
Proof.
  unfold setup_shadcn. cbv iota beta zeta.
  match goal with
  | |- context [run_command returncode history ?c] => set (first := c)
  end.
  match goal with
  | |- context [run_command returncode _ ?c] =>
      lazymatch c with
      | first => fail
      | _ => set (second := c)
      end
  end.
  assert (E1 : first = init_command usingToast).
  { subst first. unfold init_command. destruct usingToast; reflexivity. }
  assert (E2 : second = add_command usingToast).
  { subst second. unfold add_command. destruct usingToast; reflexivity. }
  destruct (two_commands_fail_fast returncode history first second)
    as (new & Hnew & Hcases & Hff & Hret).
  cbv zeta in Hnew, Hff, Hret. rewrite E1, E2 in Hcases.
  exists new. split; [exact Hnew|]. split; [exact Hcases|].
  split.
  { destruct Hcases; subst new; cbn [length]; lia. }
  split.
  { assert (H1 : npx_shadcn (init_command usingToast)).
    { destruct usingToast; split; vm_compute; reflexivity. }
    assert (H2 : npx_shadcn (add_command usingToast)).
    { destruct usingToast; split; vm_compute; reflexivity. }
    destruct Hcases; subst new;
      repeat (apply Forall_cons_2; [assumption|]); apply Forall_nil_2. }
  split; [exact Hff|].
  intros Hr. now rewrite (Hret Hr).
Qed.

(** X18: the commands of [reinstall_npm_package].  A package that neither
    table of package.json lists is left alone: no command is run.  For a
    listed package it runs the remove command and then, exactly when that
    one exited with 0, the add command: one or two commands, no more, each
    ending with the name of the package, through pnpm when its lock file
    exists and through npm otherwise.  It returns exactly when both were run
    and exited with 0, and raises a RuntimeError otherwise. *)
Theorem reinstall_npm_package_commands (returncode : list str -> str -> Z)
    (pnpm_lock_exists : bool) (package_name : str)
    (package_json_data : gmap str (gmap str str)) (history : list str) :
  let r :=
    reinstall_npm_package returncode pnpm_lock_exists package_name
      package_json_data history in
  (~ listed package_name package_json_data -> r = (history, Return tt))
  /\ (listed package_name package_json_data ->
      exists new,
        fst r = history ++ new
        /\ (new = [uninstall_command pnpm_lock_exists package_name]
            \/ new = [uninstall_command pnpm_lock_exists package_name;
                      install_command pnpm_lock_exists package_name])
        /\ (1 <= length new <= 2)%nat
        /\ Forall (manages (if pnpm_lock_exists then lit "pnpm "
                            else lit "npm ") package_name) new
        /\ fail_fast returncode history new (snd r)
        /\ (snd r = Return tt -> length new = 2%nat)).
Proof.
  unfold reinstall_npm_package, listed. cbv zeta.
  set (deps := default ∅ (package_json_data !! lit "dependencies")).
  set (dev_deps := default ∅ (package_json_data !! lit "devDependencies")).
  destruct (bool_decide (is_Some (deps !! package_name))
            || bool_decide (is_Some (dev_deps !! package_name))) eqn:E;
    cbn [negb].
  - apply orb_true_iff in E.
    split.
    { intros Hn. exfalso. apply Hn.
      destruct E as [E|E]; apply bool_decide_eq_true in E; tauto. }
    intros _.
    match goal with
    | |- context [run_command returncode history ?c] => set (first := c)
    end.
    match goal with
    | |- context [run_command returncode _ ?c] =>
        lazymatch c with
        | first => fail
        | _ => set (second := c)
        end
    end.
    assert (E1 : first = uninstall_command pnpm_lock_exists package_name).
    { subst first. unfold uninstall_command.
      destruct pnpm_lock_exists; reflexivity. }
    assert (E2 : second = install_command pnpm_lock_exists package_name).
    { subst second. unfold install_command.
      destruct pnpm_lock_exists; reflexivity. }
    destruct (two_commands_fail_fast returncode history first second)
      as (new & Hnew & Hcases & Hff & Hret).
    cbv zeta in Hnew, Hff, Hret. rewrite E1, E2 in Hcases.
    exists new. split; [exact Hnew|]. split; [exact Hcases|].
    split.
    { destruct Hcases; subst new; cbn [length]; lia. }
    split.
    { assert (H1 : manages (if pnpm_lock_exists then lit "pnpm "
                            else lit "npm ") package_name
                     (uninstall_command pnpm_lock_exists package_name)).
      { unfold uninstall_command. destruct pnpm_lock_exists.
        - exists (lit "pnpm remove "). split; reflexivity.
        - exists (lit "npm uninstall "). split; reflexivity. }
      assert (H2 : manages (if pnpm_lock_exists then lit "pnpm "
                            else lit "npm ") package_name
                     (install_command pnpm_lock_exists package_name)).
      { unfold install_command. destruct pnpm_lock_exists.
        - exists (lit "pnpm add "). split; reflexivity.
        - exists (lit "npm install "). split; reflexivity. }
      destruct Hcases; subst new;
        repeat (apply Forall_cons_2; [assumption|]); apply Forall_nil_2. }
    split; [exact Hff|].
    intros Hr. now rewrite (Hret Hr).
  - apply orb_false_iff in E as [E1 E2].
    apply bool_decide_eq_false in E1, E2.
    split; [reflexivity|]. intros [H|H]; contradiction.
Qed.

(** ** The toast components *)

Lemma startswith_prefix (a b s : str) :
  startswith s (a ++ b) = true -> startswith s a = true.
Proof.
  revert s. induction a as [|x a IH]; intros s; [reflexivity|].
  destruct s as [|c s]; cbn [startswith app]; [discriminate|].
  intros H. apply andb_true_iff in H as [H1 H2].
  now rewrite H1, (IH s H2).
Qed.

Lemma contains_prefix (a b s : str) :
  contains (a ++ b) s = true -> contains a s = true.
Proof.
  induction s as [|c s IH]; cbn [contains]; intros H;
    apply orb_true_iff in H as [H|H].
  - now rewrite (startswith_prefix a b _ H).
  - discriminate.
  - now rewrite (startswith_prefix a b _ H).
  - rewrite (IH H). apply orb_true_r.
Qed.

(** X19: the test for the toast components.  The second path of the test
    starts with the first one, so the test is the first containment alone:
    the content mentions the path of the toast component. *)
Theorem using_toast_first_path (content : str) :
  using_toast content = contains (lit "@/components/ui/toast") content.
Proof.
  unfold using_toast.
  destruct (contains (lit "@/components/ui/toast") content) eqn:E;
    [reflexivity|].
  cbn [orb].
  destruct (contains (lit "@/components/ui/toaster") content) eqn:E2;
    [|reflexivity].
  change (lit "@/components/ui/toaster")
    with (lit "@/components/ui/toast" ++ lit "er") in E2.
  apply contains_prefix in E2. congruence.
Qed.

(** ** The files written *)

Section WrittenFiles.

Context {file_system fs_path : Type} `{EqDecision fs_path}.
Variable resolve : file_system -> str -> outcome fs_path.
Variable parent : fs_path -> fs_path.
Variable path_exists : file_system -> fs_path -> outcome bool.
Variable mkdir_parents : file_system -> fs_path -> outcome file_system.
Variable write_text : file_system -> fs_path -> str -> outcome file_system.

(** The text of the file at a path, if there is one. *)
Variable read_text : file_system -> fs_path -> option str.

(** A file that was written holds the text written; writing a file and
    making directories leave the other files as they are, and paths resolve
    as before. *)
Hypothesis write_same : forall fs p text fs',
  write_text fs p text = Return fs' -> read_text fs' p = Some text.
Hypothesis write_other : forall fs p text fs' q,
  write_text fs p text = Return fs' -> q <> p ->
  read_text fs' q = read_text fs q.
Hypothesis mkdir_keeps : forall fs d fs' q,
  mkdir_parents fs d = Return fs' -> read_text fs' q = read_text fs q.
Hypothesis resolve_write : forall fs p text fs' x,
  write_text fs p text = Return fs' -> resolve fs' x = resolve fs x.
Hypothesis resolve_mkdir : forall fs d fs' x,
  mkdir_parents fs d = Return fs' -> resolve fs' x = resolve fs x.

Lemma last_write_ext (r1 r2 : str -> outcome fs_path)
    (files : list (str * str)) (p : fs_path) :
  (forall x, r1 x = r2 x) -> last_write r1 files p = last_write r2 files p.
Proof.
  intros Hr. induction files as [|[file_path code] files IH];
    [reflexivity|].
  cbn [last_write]. now rewrite IH, Hr.
Qed.

(** X20: the last block wins.  When [write_project_files] returns, each
    file holds the code of the last pair whose path resolves to it, and the
    files that no pair names are as they were. *)
Theorem write_project_files_last_wins (files : list (str * str))
    (fs fs' : file_system) :
  write_project_files resolve parent path_exists mkdir_parents write_text
    files fs = Return fs' ->
  forall p, read_text fs' p
            = match last_write (resolve fs) files p with
              | Some code => Some code
              | None => read_text fs p
              end.
Proof.
  revert fs. induction files as [|[file_path code] files IH]; intros fs.
  - cbn [write_project_files last_write]. now intros [= <-].
  - cbn [write_project_files].
    destruct (resolve fs file_path) as [full_path| |] eqn:Er;
      [|discriminate..].
    set (made := match path_exists fs (parent full_path) with
                 | Return false => mkdir_parents fs (parent full_path)
                 | Return true => Return fs
                 | SysExit code0 => SysExit code0
                 | Raise e => Raise e
                 end).
    destruct made as [fs1| |] eqn:Em; [|discriminate..].
    destruct (write_text fs1 full_path code) as [fs2| |] eqn:Ew;
      [|discriminate..].
    intros Hrest p. rewrite (IH fs2 Hrest p).
    assert (Hread1 : forall q, read_text fs1 q = read_text fs q).
    { intros q. subst made.
      destruct (path_exists fs (parent full_path)) as [[|]| |];
        try discriminate.
      - now injection Em as <-.
      - exact (mkdir_keeps _ _ _ q Em). }
    assert (Hres1 : forall x, resolve fs1 x = resolve fs x).
    { intros x. subst made.
      destruct (path_exists fs (parent full_path)) as [[|]| |];
        try discriminate.
      - now injection Em as <-.
      - exact (resolve_mkdir _ _ _ x Em). }
    assert (Hres2 : forall x, resolve fs2 x = resolve fs x).
    { intros x. rewrite (resolve_write _ _ _ _ x Ew). apply Hres1. }
    rewrite (last_write_ext (resolve fs2) (resolve fs) files p Hres2).
    cbn [last_write].
    destruct (last_write (resolve fs) files p) as [later|]; [reflexivity|].
    rewrite Er. destruct (decide (full_path = p)) as [->|Hne].
    + exact (write_same _ _ _ _ Ew).
    + rewrite (write_other _ _ _ _ p Ew) by congruence. apply Hread1.
Qed.

End WrittenFiles.

(** ** The further properties at concrete inputs *)

Lemma extract_returns_blocks_witness :
  extract_files_from_markdown (render two_blocks)
  = Return [(lit "a.ts", lit "import z from 'zod'");
            (lit "b/c.ts", lit "import './local'")]
  /\ Forall (fun r =>
               exists pre b post,
                 render two_blocks = pre ++ render_block b ++ post
                 /\ block_ok b = true /\ blank (block_path b) = false
                 /\ r = (block_path b, body b))
            [(lit "a.ts", lit "import z from 'zod'");
             (lit "b/c.ts", lit "import './local'")].
Proof.
  split; [vm_compute; reflexivity|].
  apply (extract_returns_blocks (render two_blocks)).
  vm_compute. reflexivity.
Defined.

Lemma extract_project_id_returns_value_witness :
  extract_project_id (lit "# Title" ++ [newline] ++ demo_tag ++ lit "...")
  = Return (lit "demo")
  /\ lit "demo" <> [] /\ forallb not_dquote (lit "demo") = true
  /\ exists pre ws1 ws2 post,
       lit "# Title" ++ [newline] ++ demo_tag ++ lit "..."
       = pre ++ wrapper_tag ws1 (lit "demo") ws2 ++ post
       /\ ws1 <> [] /\ forallb is_space ws1 = true
       /\ forallb is_space ws2 = true.
Proof.
  split; [vm_compute; reflexivity|].
  apply (extract_project_id_returns_value
           (lit "# Title" ++ [newline] ++ demo_tag ++ lit "...")).
  vm_compute. reflexivity.
Defined.

Lemma import_specifiers_sound_witness :
  In (lit "express") (import_specifiers express_code)
  /\ lit "express" <> [] /\ forallb not_quote (lit "express") = true
  /\ exists pre ws1 mid ws2 ws3 q1 q2 post,
       express_code
       = pre ++ lit "import" ++ ws1 ++ mid ++ ws2 ++ lit "from" ++ ws3
         ++ [q1] ++ lit "express" ++ [q2] ++ post
       /\ ws1 <> [] /\ forallb is_space ws1 = true
       /\ forallb dot mid = true
       /\ ws2 <> [] /\ forallb is_space ws2 = true
       /\ ws3 <> [] /\ forallb is_space ws3 = true
       /\ is_quote q1 = true /\ is_quote q2 = true.
Proof.
  assert (H : In (lit "express") (import_specifiers express_code)).
  { vm_compute. left. reflexivity. }
  split; [exact H|].
  exact (import_specifiers_sound express_code (lit "express") H).
Defined.

Lemma dependency_names_shape_witness :
  lit "@radix-ui/react-toast"
    ∈ collect_dependencies [(lit "app/page.tsx", imports_code)]
  /\ lit "@radix-ui/react-toast" <> []
  /\ (slashes (lit "@radix-ui/react-toast") <= 1)%nat
  /\ forallb not_quote (lit "@radix-ui/react-toast") = true
  /\ startswith (lit "@radix-ui/react-toast") (lit "./") = false
  /\ startswith (lit "@radix-ui/react-toast") (lit "@/") = false.
Proof.
  assert (H : lit "@radix-ui/react-toast"
                ∈ collect_dependencies [(lit "app/page.tsx", imports_code)]).
  { apply (bool_decide_unpack _). vm_compute. reflexivity. }
  split; [exact H|].
  exact (dependency_names_shape _ _ H).
Defined.

Lemma collect_dependencies_app_witness :
  collect_dependencies
    [(lit "b.ts", express_code); (lit "a.tsx", imports_code)]
  = collect_dependencies
      [(lit "a.tsx", imports_code); (lit "b.ts", express_code)].
Proof.
  apply (proj1 (proj2 collect_dependencies_app)).
  apply perm_swap.
Defined.

Lemma collect_dependencies_rule_witness :
  lit "@radix-ui/react-toast"
    ∈ collect_dependencies [(lit "app/page.tsx", imports_code)].
Proof.
  apply (proj2 (collect_dependencies_rule
                  [(lit "app/page.tsx", imports_code)]
                  (lit "@radix-ui/react-toast"))).
  exists (lit "app/page.tsx", imports_code),
         (lit "@radix-ui/react-toast/sub").
  split; [left; reflexivity|].
  split; [vm_compute; tauto|].
  repeat split; vm_compute; reflexivity.
Defined.

Lemma install_action_spec_witness :
  install_third_party_dependencies true [(lit "server.ts", express_code)]
  = NoInstall
  /\ install_third_party_dependencies false
       [(lit "app/page.tsx", imports_code)]
     = RunInstall false
         (collect_dependencies [(lit "app/page.tsx", imports_code)]).
Proof.
  split.
  - apply (proj1 (install_action_spec true
                    [(lit "server.ts", express_code)])).
    intros file dep [<-|[]] Hdep. vm_compute in Hdep.
    destruct Hdep as [<-|[]]. reflexivity.
  - apply (proj2 (install_action_spec false
                    [(lit "app/page.tsx", imports_code)])).
    intros H.
    apply (proj1 (install_action_spec false
                    [(lit "app/page.tsx", imports_code)])) with
      (file := (lit "app/page.tsx", imports_code)) (dep := lit "zod") in H.
    + vm_compute in H. discriminate H.
    + left. reflexivity.
    + vm_compute. tauto.
Defined.

Lemma parse_github_url_trailing_slashes_witness :
  parse_github_url urlparse_path_model (flash_cards_url ++ lit "//")
  = parse_github_url urlparse_path_model flash_cards_url.
Proof.
  apply (parse_github_url_trailing_slashes urlparse_path_model
           flash_cards_url (lit "//")).
  reflexivity.
Defined.

Lemma parse_github_url_fields_witness :
  lit "ameerhmzx" <> []
  /\ forallb (differs slash) (lit "ameerhmzx") = true
  /\ forallb (differs slash) (lit "language-flash-cards") = true
  /\ forallb (differs slash) (lit "dev") = true.
Proof.
  apply (parse_github_url_fields urlparse_path_model flash_cards_tree_url
           {| owner := lit "ameerhmzx"; repo := lit "language-flash-cards";
              branch := lit "dev"; path := lit "src/app" |}).
  vm_compute. reflexivity.
Defined.

Lemma slugify_ascii_idempotent_witness :
  ascii_text (lit "My  Cool_Project (v2)!") = true
  /\ slugify_ascii (lit "My  Cool_Project (v2)!") = lit "my-cool-project-v2"
  /\ forallb slug_char (slugify_ascii (lit "My  Cool_Project (v2)!")) = true
  /\ slugify_ascii (slugify_ascii (lit "My  Cool_Project (v2)!"))
     = slugify_ascii (lit "My  Cool_Project (v2)!").
Proof.
  split; [reflexivity|]. split; [vm_compute; reflexivity|].
  apply (slugify_ascii_idempotent (lit "My  Cool_Project (v2)!")).
  reflexivity.
Defined.

Lemma get_repo_contents_crawled_witness :
  get_repo_contents exact_fnmatch small_repo small_b64decode
    (lit "o") (lit "r") (lit "main") [lit "src/secret.ts"] 2 []
  = Return small_repo_files
  /\ Forall (crawled exact_fnmatch small_repo small_b64decode
               [lit "src/secret.ts"]) small_repo_files.
Proof.
  split; [vm_compute; reflexivity|].
  apply (get_repo_contents_crawled exact_fnmatch small_repo small_b64decode
           (lit "o") (lit "r") (lit "main") [lit "src/secret.ts"] 2 []).
  vm_compute. reflexivity.
Defined.

Lemma get_repo_contents_limit_witness :
  get_repo_contents exact_fnmatch small_repo small_b64decode
    (lit "o") (lit "r") (lit "main") [lit "src/secret.ts"] 1000 []
  = Return small_repo_files.
Proof.
  apply (get_repo_contents_limit exact_fnmatch small_repo small_b64decode
           (lit "o") (lit "r") (lit "main") [lit "src/secret.ts"] 2 1000).
  - lia.
  - vm_compute. reflexivity.
Defined.

Lemma file_type_of_extension_witness :
  file_type_of (lit "src/app/" ++ lit "page" ++ full_stop :: lit "jsx")
  = lit "tsx"
  /\ file_type_of (lit "src/app/" ++ lit "page" ++ full_stop :: lit "css")
     = lit "css"
  /\ file_type_of (lit "src/app/" ++ lit "Makefile") = []
  /\ file_type_of (lit "src/app/" ++ full_stop :: lit "gitignore") = [].
Proof.
  split; [|split; [|split]].
  - apply (proj1 (file_type_of_extension (lit "src/app/") (lit "page")
                    (lit "jsx") eq_refl eq_refl)); reflexivity.
  - apply (proj1 (file_type_of_extension (lit "src/app/") (lit "page")
                    (lit "css") eq_refl eq_refl)); reflexivity.
  - apply (proj1 (proj2 (file_type_of_extension (lit "src/app/")
                           (lit "Makefile") [] eq_refl eq_refl))).
    reflexivity.
  - apply (proj2 (proj2 (file_type_of_extension (lit "src/app/")
                           (lit "gitignore") [] eq_refl eq_refl))).
    reflexivity.
Defined.

Lemma extract_project_id_of_create_markdown_witness :
  forallb record_tag_free [a_ts; readme] = true
  /\ extract_project_id (create_markdown [a_ts; readme]) = SysExit 1.
Proof.
  split; [reflexivity|].
  apply (extract_project_id_of_create_markdown [a_ts; readme]).
  reflexivity.
Defined.

Lemma reinstall_npm_package_commands_witness :
  listed (lit "zod") zod_package_json
  /\ exists new,
       fst (reinstall_npm_package always_zero false (lit "zod")
              zod_package_json []) = [] ++ new
       /\ (new = [uninstall_command false (lit "zod")]
           \/ new = [uninstall_command false (lit "zod");
                     install_command false (lit "zod")])
       /\ (1 <= length new <= 2)%nat
       /\ Forall (manages (lit "npm ") (lit "zod")) new
       /\ fail_fast always_zero [] new
            (snd (reinstall_npm_package always_zero false (lit "zod")
                    zod_package_json []))
       /\ (snd (reinstall_npm_package always_zero false (lit "zod")
                  zod_package_json []) = Return tt ->
           length new = 2%nat).
Proof.
  assert (H : listed (lit "zod") zod_package_json).
  { left. apply (bool_decide_unpack _). vm_compute. reflexivity. }
  split; [exact H|].
  exact (proj2 (reinstall_npm_package_commands always_zero false (lit "zod")
                  zod_package_json []) H).
Defined.

Lemma small_write_same (fs : small_fs) (p text : str) (fs' : small_fs) :
  small_write fs p text = Return fs' -> small_read fs' p = Some text.
Proof.
  intros [= <-]. unfold small_read. cbn [snd]. apply lookup_insert_eq.
Qed.

Lemma small_write_other (fs : small_fs) (p text : str) (fs' : small_fs)
    (q : str) :
  small_write fs p text = Return fs' -> q <> p ->
  small_read fs' q = small_read fs q.
Proof.
  intros [= <-] Hne. unfold small_read. cbn [snd].
  apply lookup_insert_ne. congruence.
Qed.

Lemma small_mkdir_keeps (fs : small_fs) (d : str) (fs' : small_fs)
    (q : str) :
  small_mkdir fs d = Return fs' -> small_read fs' q = small_read fs q.
Proof. now intros [= <-]. Qed.

Lemma write_project_files_last_wins_witness :
  exists fs',
    write_project_files small_resolve small_parent small_exists small_mkdir
      small_write three_writes (∅, ∅) = Return fs'
    /\ small_read fs' (lit "app/page.tsx") = Some (lit "three")
    /\ small_read fs' (lit "lib/utils.ts") = Some (lit "two")
    /\ small_read fs' (lit "package.json") = None.
Proof.
  destruct (write_project_files small_resolve small_parent small_exists
              small_mkdir small_write three_writes (∅, ∅))
    as [fs'| |] eqn:E; [|vm_compute in E; discriminate E..].
  exists fs'. split; [reflexivity|].
  pose proof (write_project_files_last_wins small_resolve small_parent
                small_exists small_mkdir small_write small_read
                small_write_same small_write_other small_mkdir_keeps
                (fun _ _ _ _ _ _ => eq_refl) (fun _ _ _ _ _ => eq_refl)
                three_writes (∅, ∅) fs' E) as H.
  rewrite !H. vm_compute. repeat split.
Defined.
